(** * Advent of Code 2025 puzzle programs: a shallow embedding

    The C++ programs of the repository (Day 9 rectangle programs, the
    button-press program that shares a file with Day 9 part 1, the two
    Day 10 part-2 solvers) and the Day 7 beam simulation loop are embedded
    as Rocq functions, and the statements made about them are settled.

    Conventions of the embedding.
    - C++ [int] and [long long] values are integers in [Z], with the range
      written out where it matters: the result of [stoi], stream extraction
      into an [int], the [INT_MAX] sentinel, and the areas of Day 9, which
      are computed from the coordinates of the input with the wrap-around
      of [int] and [long long].  The press counters and counts of Day 10
      are left unbounded: they would have to pass [INT_MAX] to differ.
    - A C++ [double] is the rational number it denotes, and every
      conversion and operation rounds to the nearest double.
    - The recursion of the Python function of Day 7 takes a budget of
      stack frames and raises RecursionError when it is used up.
    - [std::vector<int>] is [list Z]; an index outside the vector is
      undefined behaviour and the model says so ([Undefined]).
    - [std::map], [std::unordered_map] are [gmap], [std::unordered_set] is
      [gset], [std::queue] is a list popped at the head and pushed at the
      tail.
    - Loops whose termination is not evident take a fuel argument and
      answer [OutOfFuel] when it runs out. *)

From Stdlib Require Import ZArith Ascii String List QArith.
From stdpp Require Import gmap strings list fin_maps sorting.

Open Scope Z_scope.

(** ** Results of running a piece of C++ *)

Inductive exn := invalid_argument | out_of_range.

Inductive result (A : Type) : Type :=
| Ok (a : A)            (* normal completion *)
| Throws (e : exn)      (* an uncaught exception: std::terminate *)
| Undefined             (* undefined behaviour *)
| OutOfFuel.              (* the fuel ran out *)
Arguments Ok {A} a.
Arguments Throws {A} e.
Arguments Undefined {A}.
Arguments OutOfFuel {A}.

Definition rbind {A B} (r : result A) (k : A -> result B) : result B :=
  match r with
  | Ok a => k a
  | Throws e => Throws e
  | Undefined => Undefined
  | OutOfFuel => OutOfFuel
  end.

Notation "x <~ r ;; k" := (rbind r (fun x => k))
  (at level 100, r at next level, right associativity).

Fixpoint rmap_list {A B} (f : A -> result B) (l : list A) : result (list B) :=
  match l with
  | [] => Ok []
  | a :: l' => b <~ f a ;; bs <~ rmap_list f l' ;; Ok (b :: bs)
  end.

Definition INT_MAX : Z := 2147483647.
Definition INT_MIN : Z := -2147483648.

(* A signed integer of [bits] bits.  A result outside the range is undefined
   behaviour in C++; what the machine does, and what is modelled where a
   program computes with coordinates read from its input, is the
   wrap-around of two's complement. *)
Definition wrap (bits : Z) (z : Z) : Z :=
  (z + 2 ^ (bits - 1)) mod 2 ^ bits - 2 ^ (bits - 1).

Definition int32 : Z -> Z := wrap 32.   (* int *)
Definition int64 : Z -> Z := wrap 64.   (* long long *)

(** ** Characters and [stoi] *)

Definition isdigit (c : ascii) : bool :=
  let n := Z.of_nat (nat_of_ascii c) in (48 <=? n) && (n <=? 57).

(* [isspace] in the "C" locale: space, \t, \n, \v, \f, \r *)
Definition isspace (c : ascii) : bool :=
  let n := Z.of_nat (nat_of_ascii c) in (n =? 32) || ((9 <=? n) && (n <=? 13)).

Definition digit_value (c : ascii) : Z := Z.of_nat (nat_of_ascii c) - 48.

(* the number a string of decimal digits denotes, most significant first *)
Fixpoint decimal_from (acc : Z) (s : string) : Z :=
  match s with
  | EmptyString => acc
  | String c s' => decimal_from (10 * acc + digit_value c) s'
  end.

Definition decimal (s : string) : Z := decimal_from 0 s.

Fixpoint skip_space (s : string) : string :=
  match s with
  | String c s' => if isspace c then skip_space s' else s
  | EmptyString => s
  end.

(* the longest prefix of decimal digits, and the rest *)
Fixpoint span_digits (s : string) : string * string :=
  match s with
  | String c s' =>
      if isdigit c then let '(d, r) := span_digits s' in (String c d, r)
      else (EmptyString, s)
  | EmptyString => (EmptyString, EmptyString)
  end.

(* [std::stoi(s)]: leading white space, an optional sign, decimal digits;
   what follows the digits is ignored.  No digit: [std::invalid_argument];
   a value that does not fit an [int]: [std::out_of_range]. *)
Definition stoi (s : string) : result Z :=
  let s1 := skip_space s in
  let '(neg, s2) :=
    match s1 with
    | String "-" r => (true, r)
    | String "+" r => (false, r)
    | _ => (false, s1)
    end in
  let '(ds, _) := span_digits s2 in
  match ds with
  | EmptyString => Throws invalid_argument
  | _ =>
      let v := if neg then - decimal ds else decimal ds in
      if (INT_MIN <=? v) && (v <=? INT_MAX) then Ok v else Throws out_of_range
  end.

Definition string_snoc (s : string) (c : ascii) : string :=
  (s ++ String c EmptyString)%string.

Definition string_empty (s : string) : bool :=
  match s with EmptyString => true | _ => false end.

(** ** The button-press program (second program of Day9/solution.cpp) *)

Record Machine := { buttons : list (list Z); target : list Z }.

(* vector<int> parseButton(const string &s): the loop over the characters
   of [s] with its two locals [res] and [tmp], then the final flush. *)
Fixpoint parseButton_loop (s : string) (res : list Z) (tmp : string)
  : result (list Z) :=
  match s with
  | String c s' =>
      if isdigit c then parseButton_loop s' res (string_snoc tmp c)
      else if negb (string_empty tmp) then
        v <~ stoi tmp ;; parseButton_loop s' (res ++ [v]) EmptyString
      else parseButton_loop s' res tmp
  | EmptyString =>
      if negb (string_empty tmp) then v <~ stoi tmp ;; Ok (res ++ [v])
      else Ok res
  end.

Definition parseButton (s : string) : result (list Z) :=
  parseButton_loop s [] EmptyString.

(* vector<int> parseTarget(const string &s): a second copy in the source *)
Fixpoint parseTarget_loop (s : string) (res : list Z) (tmp : string)
  : result (list Z) :=
  match s with
  | String c s' =>
      if isdigit c then parseTarget_loop s' res (string_snoc tmp c)
      else if negb (string_empty tmp) then
        v <~ stoi tmp ;; parseTarget_loop s' (res ++ [v]) EmptyString
      else parseTarget_loop s' res tmp
  | EmptyString =>
      if negb (string_empty tmp) then v <~ stoi tmp ;; Ok (res ++ [v])
      else Ok res
  end.

Definition parseTarget (s : string) : result (list Z) :=
  parseTarget_loop s [] EmptyString.

(* The statement's words: the maximal runs of decimal digits of [s], left
   to right.  A digit starts a new run unless the next character continues
   one. *)
Fixpoint digit_runs (s : string) : list string :=
  match s with
  | EmptyString => []
  | String c s' =>
      if isdigit c then
        match s' with
        | String c' _ =>
            if isdigit c' then
              match digit_runs s' with
              | r :: rs => String c r :: rs
              | [] => [String c EmptyString]
              end
            else String c EmptyString :: digit_runs s'
        | EmptyString => [String c EmptyString]
        end
      else digit_runs s'
  end.

(* for (int idx : btn) next[idx]++;  an index outside [next] is undefined
   behaviour.  The counters are int in the source and are left unbounded
   here: the two agree as long as no counter is incremented at INT_MAX
   (which takes 2^31 increments of one counter and is undefined behaviour
   in the source). *)
Fixpoint press (next : list Z) (btn : list Z) : result (list Z) :=
  match btn with
  | [] => Ok next
  | idx :: btn' =>
      if (0 <=? idx) && (idx <? Z.of_nat (length next)) then
        press (alter Z.succ (Z.to_nat idx) next) btn'
      else Undefined
  end.

(* the body of [for (auto &btn : m.buttons)] inside the BFS loop *)
Fixpoint minPresses_buttons (btns : list (list Z)) (curr : list Z)
    (presses : Z) (q : list (list Z * Z)) (dist : gmap (list Z) Z)
  : result (list (list Z * Z) * gmap (list Z) Z) :=
  match btns with
  | [] => Ok (q, dist)
  | btn :: btns' =>
      next <~ press curr btn ;;
      if match dist !! next with
         | None => true
         | Some d => presses + 1 <? d
         end
      then minPresses_buttons btns' curr presses
             (q ++ [(next, presses + 1)]) (<[next := presses + 1]> dist)
      else minPresses_buttons btns' curr presses q dist
  end.

(* while (!q.empty()) { ... } return -1; *)
Fixpoint minPresses_loop (fuel : nat) (m : Machine)
    (q : list (list Z * Z)) (dist : gmap (list Z) Z) : result Z :=
  match fuel with
  | O => OutOfFuel
  | S fuel' =>
      match q with
      | [] => Ok (-1)
      | (curr, presses) :: q' =>
          if decide (curr = target m) then Ok presses
          else
            qd <~ minPresses_buttons (buttons m) curr presses q' dist ;;
            minPresses_loop fuel' m qd.1 qd.2
      end
  end.

Definition zeros (n : nat) : list Z := replicate n 0.

(* int minPresses(const Machine &m) *)
Definition minPresses (fuel : nat) (m : Machine) : result Z :=
  let start := zeros (length (target m)) in
  minPresses_loop fuel m [(start, 0)] (<[start := 0]> ∅).

(* Pressing a sequence of buttons, given by their positions in
   [m.buttons], from a counter vector. *)
Fixpoint press_seq (m : Machine) (s : list Z) (bs : list nat)
  : option (list Z) :=
  match bs with
  | [] => Some s
  | b :: bs' =>
      match buttons m !! b with
      | Some btn =>
          match press s btn with
          | Ok s' => press_seq m s' bs'
          | _ => None
          end
      | None => None
      end
  end.

(* [bs] takes the all-zero counters to the target *)
Definition reaches_target (m : Machine) (bs : list nat) : Prop :=
  press_seq m (zeros (length (target m))) bs = Some (target m).

(* [d] is the length of a shortest sequence of presses to the target *)
Definition min_presses (m : Machine) (d : nat) : Prop :=
  (exists bs, reaches_target m bs /\ length bs = d) /\
  (forall bs, reaches_target m bs -> (d <= length bs)%nat).

(* every index a button lists is the index of a counter *)
Definition wf_machine (m : Machine) : Prop :=
  Forall (Forall (fun idx => 0 <= idx < Z.of_nat (length (target m))))
         (buttons m).

(** Output of a program: what is inserted into a stream, in order. *)
Inductive out_item :=
| OStr (s : string)     (* a string literal or std::string *)
| OInt (z : Z)          (* an integer, printed in decimal *)
| ONl.                  (* a line end: "\n" or std::endl *)

Record run := { out : list out_item; err : list out_item; status : Z }.

(* The files a program can open: the lines [getline] would return. *)
Definition files := string -> option (list string).

(* while (ss >> token): the maximal runs of non-space characters *)
Fixpoint words_from (s : string) (tmp : string) : list string :=
  match s with
  | String c s' =>
      if isspace c then
        if string_empty tmp then words_from s' tmp
        else tmp :: words_from s' EmptyString
      else words_from s' (string_snoc tmp c)
  | EmptyString => if string_empty tmp then [] else [tmp]
  end.

Definition words (s : string) : list string := words_from s EmptyString.

(* The body of the line loop of main: one machine per line with at least
   two tokens.  The last token gives the target, the tokens between the
   first and the last give the buttons. *)
Definition parse_machine_line (line : string) : result (option Machine) :=
  if string_empty line then Ok None
  else
    let tokens := words line in
    if (length tokens <? 2)%nat then Ok None
    else
      t <~ parseTarget (List.last tokens EmptyString) ;;
      bs <~ rmap_list parseButton (removelast (tail tokens)) ;;
      Ok (Some {| buttons := bs; target := t |}).

Fixpoint parse_machines (lines : list string) : result (list Machine) :=
  match lines with
  | [] => Ok []
  | line :: rest =>
      om <~ parse_machine_line line ;;
      ms <~ parse_machines rest ;;
      Ok (match om with Some m => m :: ms | None => ms end)
  end.

(* for (auto &m : machines) { ... }: the text printed and the total *)
Fixpoint total_presses (fuel : nat) (ms : list Machine) (total : Z)
  : result (list out_item * Z) :=
  match ms with
  | [] => Ok ([], total)
  | m :: ms' =>
      presses <~ minPresses fuel m ;;
      if presses =? -1 then
        r <~ total_presses fuel ms' total ;;
        Ok (OStr "Machine unreachable!" :: ONl :: r.1, r.2)
      else total_presses fuel ms' (total + presses)
  end.

(* int main(int argc, char* argv[]) of the button-press program; [argv]
   holds the program name and the arguments *)
Definition main_buttons (fuel : nat) (argv : list string) (fs : files)
  : result run :=
  match argv with
  | [] | [_] =>
      Ok {| out := [];
            err := [OStr "Usage: "; OStr (List.hd EmptyString argv);
                    OStr " input.txt"; ONl];
            status := 1 |}
  | _ :: path :: _ =>
      match fs path with
      | None =>
          Ok {| out := [];
                err := [OStr "Cannot open file: "; OStr path; ONl];
                status := 1 |}
      | Some lines =>
          ms <~ parse_machines lines ;;
          r <~ total_presses fuel ms 0 ;;
          Ok {| out := r.1 ++ [OStr "Fewest button presses: "; OInt r.2; ONl];
                err := [];
                status := 0 |}
      end
  end.

(** ** The Day 10 part-2 solvers *)

(* The loop [for (int counter_idx : buttons[button_idx])] of both solvers,
   on [new_state].  [Some s]: the press is valid and gives [s]; [None]:
   [valid = false], some counter went past its target.  An entry
   [counter_idx >= n] is passed over; a negative one indexes the vector
   out of bounds. *)
Fixpoint apply_button (targets : list Z) (new_state : list Z)
    (btn : list Z) : result (option (list Z)) :=
  match btn with
  | [] => Ok (Some new_state)
  | counter_idx :: btn' =>
      if counter_idx <? Z.of_nat (length targets) then
        if 0 <=? counter_idx then
          let i := Z.to_nat counter_idx in
          let new_state' := alter Z.succ i new_state in
          match new_state' !! i, targets !! i with
          | Some v, Some t =>
              if t <? v then Ok None
              else apply_button targets new_state' btn'
          | _, _ => Undefined
          end
        else Undefined
      else apply_button targets new_state btn'
  end.

(* QueueItem = tuple<State, int, vector<int>> *)
Definition QueueItem : Type := list Z * Z * list Z.

(* solution_part2.cpp: [for (int button_idx = 0; button_idx < m; ...)],
   over the buttons from [button_idx] on *)
Fixpoint bounded_buttons (targets : list Z) (max_presses_per_button : Z)
    (btns : list (list Z)) (button_idx : nat)
    (current_state : list Z) (presses : Z) (press_counts : list Z)
    (q : list QueueItem) (visited : gset (list Z))
  : result (list QueueItem * gset (list Z)) :=
  match btns with
  | [] => Ok (q, visited)
  | btn :: btns' =>
      let continue q' visited' :=
        bounded_buttons targets max_presses_per_button btns' (S button_idx)
          current_state presses press_counts q' visited' in
      match press_counts !! button_idx with
      | None => Undefined
      | Some c =>
          if max_presses_per_button <=? c then continue q visited
          else
            r <~ apply_button targets current_state btn ;;
            match r with
            | None => continue q visited
            | Some new_state =>
                let new_press_counts := alter Z.succ button_idx press_counts in
                if decide (new_state ∈ visited) then continue q visited
                else continue (q ++ [(new_state, presses + 1, new_press_counts)])
                              ({[new_state]} ∪ visited)
            end
      end
  end.

(* the state of the search: the queue, the visited set and best_cost *)
Definition BConfig : Type := list QueueItem * gset (list Z) * Z.

(* one turn of [while (!q.empty())]; [inr v]: the loop is left and [v] is
   returned *)
Definition bounded_step (btns : list (list Z)) (targets : list Z)
    (max_presses_per_button : Z) (cfg : BConfig) : result (BConfig + Z) :=
  let '(q, visited, best_cost) := cfg in
  match q with
  | [] => Ok (inr (if decide (best_cost ≠ INT_MAX) then best_cost else -1))
  | (current_state, presses, press_counts) :: q' =>
      if decide (current_state = targets) then
        Ok (inl (q', visited, Z.min best_cost presses))
      else if best_cost <=? presses then Ok (inl (q', visited, best_cost))
      else
        qv <~ bounded_buttons targets max_presses_per_button btns 0
                current_state presses press_counts q' visited ;;
        Ok (inl (qv.1, qv.2, best_cost))
  end.

Fixpoint bounded_loop (fuel : nat) (btns : list (list Z)) (targets : list Z)
    (max_presses_per_button : Z) (cfg : BConfig) : result Z :=
  match fuel with
  | O => OutOfFuel
  | S fuel' =>
      r <~ bounded_step btns targets max_presses_per_button cfg ;;
      match r with
      | inl cfg' => bounded_loop fuel' btns targets max_presses_per_button cfg'
      | inr v => Ok v
      end
  end.

(* the state of the search after [turns] turns of the loop, if the loop
   has not been left before *)
Fixpoint bounded_after (turns : nat) (btns : list (list Z))
    (targets : list Z) (max_presses_per_button : Z) (cfg : BConfig)
  : result (option BConfig) :=
  match turns with
  | O => Ok (Some cfg)
  | S turns' =>
      r <~ bounded_step btns targets max_presses_per_button cfg ;;
      match r with
      | inl cfg' =>
          bounded_after turns' btns targets max_presses_per_button cfg'
      | inr _ => Ok None
      end
  end.

Definition bounded_init (btns : list (list Z)) (targets : list Z) : BConfig :=
  let start_state := zeros (length targets) in
  ([(start_state, 0, zeros (length btns))], {[start_state]}, INT_MAX).

(* int solve_machine_part2_bounded(buttons, targets,
                                   max_presses_per_button = 50) *)
Definition solve_machine_part2_bounded_with (max_presses_per_button : Z)
    (fuel : nat) (btns : list (list Z)) (targets : list Z) : result Z :=
  bounded_loop fuel btns targets max_presses_per_button
    (bounded_init btns targets).

Definition solve_machine_part2_bounded := solve_machine_part2_bounded_with 50.

(* std::vector's operator<: lexicographic *)
Fixpoint vec_ltb (a b : list Z) : bool :=
  match a, b with
  | _, [] => false
  | [], _ :: _ => true
  | x :: a', y :: b' => (x <? y) || ((x =? y) && vec_ltb a' b')
  end.

(* PQItem = tuple<int, State, vector<int>> and its operator< *)
Definition PQItem : Type := Z * list Z * list Z.

Definition pq_ltb (a b : PQItem) : bool :=
  let '(c1, s1, p1) := a in
  let '(c2, s2, p2) := b in
  (c1 <? c2) ||
  ((c1 =? c2) && (vec_ltb s1 s2 || (bool_decide (s1 = s2) && vec_ltb p1 p2))).

Definition pq_cost (it : PQItem) : Z := it.1.1.

(* priority_queue<PQItem, vector<PQItem>, greater<PQItem>> is a bag of
   items; [top] is a least item, [pop] removes it. *)
Fixpoint pq_least (x : PQItem) (l : list PQItem) : PQItem :=
  match l with
  | [] => x
  | y :: l' => pq_least (if pq_ltb y x then y else x) l'
  end.

Fixpoint pq_remove (x : PQItem) (l : list PQItem) : list PQItem :=
  match l with
  | [] => []
  | y :: l' => if decide (y = x) then l' else y :: pq_remove x l'
  end.

Definition pq_pop (pq : list PQItem) : option (PQItem * list PQItem) :=
  match pq with
  | [] => None
  | x :: l => let t := pq_least x l in Some (t, pq_remove t pq)
  end.

(* [m[k]] of an unordered_map<State, int>: a missing key is inserted with
   the value 0 *)
Definition map_index (m : gmap (list Z) Z) (k : list Z)
  : Z * gmap (list Z) Z :=
  match m !! k with
  | Some v => (v, m)
  | None => (0, <[k := 0]> m)
  end.

(* solution_part2_dijkstra.cpp: the loop over the buttons *)
Fixpoint dijkstra_buttons (targets : list Z) (max_presses_per_button : Z)
    (btns : list (list Z)) (button_idx : nat)
    (current_state : list Z) (cost : Z) (press_counts : list Z)
    (pq : list PQItem) (min_cost : gmap (list Z) Z)
  : result (list PQItem * gmap (list Z) Z) :=
  match btns with
  | [] => Ok (pq, min_cost)
  | btn :: btns' =>
      let continue pq' min_cost' :=
        dijkstra_buttons targets max_presses_per_button btns' (S button_idx)
          current_state cost press_counts pq' min_cost' in
      match press_counts !! button_idx with
      | None => Undefined
      | Some c =>
          if max_presses_per_button <=? c then continue pq min_cost
          else
            r <~ apply_button targets current_state btn ;;
            match r with
            | None => continue pq min_cost
            | Some new_state =>
                let new_press_counts := alter Z.succ button_idx press_counts in
                let new_cost := cost + 1 in
                match min_cost !! new_state with
                | None =>
                    continue ((new_cost, new_state, new_press_counts) :: pq)
                             (<[new_state := new_cost]> min_cost)
                | Some old =>
                    if new_cost <? old then
                      continue ((new_cost, new_state, new_press_counts) :: pq)
                               (<[new_state := new_cost]> min_cost)
                    else continue pq min_cost
                end
            end
      end
  end.

(* the state of the search: the priority queue and min_cost *)
Definition DConfig : Type := list PQItem * gmap (list Z) Z.

(* one turn of [while (!pq.empty())]; [inr v]: [v] is returned *)
Definition dijkstra_step (btns : list (list Z)) (targets : list Z)
    (max_presses_per_button : Z) (cfg : DConfig) : result (DConfig + Z) :=
  let '(pq, min_cost) := cfg in
  match pq_pop pq with
  | None => Ok (inr (-1))
  | Some ((cost, current_state, press_counts), pq') =>
      let '(known, min_cost1) := map_index min_cost current_state in
      if known <? cost then Ok (inl (pq', min_cost1))
      else if decide (current_state = targets) then Ok (inr cost)
      else
        pm <~ dijkstra_buttons targets max_presses_per_button btns 0
                current_state cost press_counts pq' min_cost1 ;;
        Ok (inl pm)
  end.

Fixpoint dijkstra_loop (fuel : nat) (btns : list (list Z)) (targets : list Z)
    (max_presses_per_button : Z) (cfg : DConfig) : result Z :=
  match fuel with
  | O => OutOfFuel
  | S fuel' =>
      r <~ dijkstra_step btns targets max_presses_per_button cfg ;;
      match r with
      | inl cfg' => dijkstra_loop fuel' btns targets max_presses_per_button cfg'
      | inr v => Ok v
      end
  end.

Fixpoint dijkstra_after (turns : nat) (btns : list (list Z))
    (targets : list Z) (max_presses_per_button : Z) (cfg : DConfig)
  : result (option DConfig) :=
  match turns with
  | O => Ok (Some cfg)
  | S turns' =>
      r <~ dijkstra_step btns targets max_presses_per_button cfg ;;
      match r with
      | inl cfg' =>
          dijkstra_after turns' btns targets max_presses_per_button cfg'
      | inr _ => Ok None
      end
  end.

Definition dijkstra_init (btns : list (list Z)) (targets : list Z) : DConfig :=
  let start_state := zeros (length targets) in
  ([(0, start_state, zeros (length btns))], <[start_state := 0]> ∅).

(* int solve_machine_part2_dijkstra(buttons, targets,
                                    max_presses_per_button = 100) *)
Definition solve_machine_part2_dijkstra_with (max_presses_per_button : Z)
    (fuel : nat) (btns : list (list Z)) (targets : list Z) : result Z :=
  dijkstra_loop fuel btns targets max_presses_per_button
    (dijkstra_init btns targets).

Definition solve_machine_part2_dijkstra :=
  solve_machine_part2_dijkstra_with 100.

(** ** Day 9 part 2: the largest rectangle inside the polygon of red tiles *)

Record Point := { px : Z; py : Z }.
Record VEdge := { vx : Z; y_min : Z; y_max : Z }.
Record HEdge := { hy : Z; x_min : Z; x_max : Z }.

(* points[(i + 1) % n] for i = 0 .. n-1: the points rotated by one *)
Definition next_points {A} (l : list A) : list A :=
  match l with
  | [] => []
  | p :: l' => l' ++ [p]
  end.

(* solution2.cpp, step 2: one edge per pair of consecutive points *)
Definition build_v_edges (points : list Point) : list VEdge :=
  omap (fun '(p1, p2) =>
          if px p1 =? px p2
          then Some {| vx := px p1; y_min := Z.min (py p1) (py p2);
                       y_max := Z.max (py p1) (py p2) |}
          else None)
       (zip points (next_points points)).

Definition build_h_edges (points : list Point) : list HEdge :=
  omap (fun '(p1, p2) =>
          if px p1 =? px p2 then None
          else if py p1 =? py p2
          then Some {| hy := py p1; x_min := Z.min (px p1) (px p2);
                       x_max := Z.max (px p1) (px p2) |}
          else None)
       (zip points (next_points points)).

(* std::sort with the comparator [key a < key b]; the order of edges with
   equal keys is unspecified in C++ and does not change what is computed
   from the sorted vectors below *)
Fixpoint insert_by {A} (key : A -> Z) (a : A) (l : list A) : list A :=
  match l with
  | [] => [a]
  | b :: l' => if key a <? key b then a :: l else b :: insert_by key a l'
  end.

Definition sort_by {A} (key : A -> Z) (l : list A) : list A :=
  foldr (insert_by key) [] l.

(* upper_bound(first, last, val, val < key e): the suffix that starts at the
   first element whose key is greater than [val] *)
Fixpoint upper_bound {A} (key : A -> Z) (val : Z) (l : list A) : list A :=
  match l with
  | [] => []
  | e :: l' => if val <? key e then l else upper_bound key val l'
  end.

(* lower_bound(first, last, val, key e < val): the suffix that starts at the
   first element whose key is not less than [val] *)
Fixpoint lower_bound {A} (key : A -> Z) (val : Z) (l : list A) : list A :=
  match l with
  | [] => []
  | e :: l' => if key e <? val then lower_bound key val l' else l
  end.

(* CHECK A: the loop from [it_v]; the result is [invalid] *)
Fixpoint check_a (right bottom top : Z) (it_v : list VEdge) : bool :=
  match it_v with
  | [] => false
  | e :: rest =>
      if right <=? vx e then false
      else if (y_min e <? top) && (bottom <? y_max e) then true
      else check_a right bottom top rest
  end.

(* CHECK B: the loop from [it_h]; the result is [invalid] *)
Fixpoint check_b (left right top : Z) (it_h : list HEdge) : bool :=
  match it_h with
  | [] => false
  | e :: rest =>
      if top <=? hy e then false
      else if (x_min e <? right) && (left <? x_max e) then true
      else check_b left right top rest
  end.

(* CHECK C: the loop from [it_ray]; the result is [intersections] *)
Fixpoint count_ray (bottom : Z) (it_ray : list VEdge) : Z :=
  match it_ray with
  | [] => 0
  | e :: rest =>
      (if (y_min e <=? bottom) && (bottom <? y_max e) then 1 else 0)
      + count_ray bottom rest
  end.

(* The three checks of the inner loop body for the pair (x1,y1), (x2,y2):
   [true] when the body reaches [max_area = area]. *)
Definition fast_check (v_edges : list VEdge) (h_edges : list HEdge)
    (p q : Point) : bool :=
  let left := Z.min (px p) (px q) in
  let right := Z.max (px p) (px q) in
  let bottom := Z.min (py p) (py q) in
  let top := Z.max (py p) (py q) in
  if check_a right bottom top (upper_bound vx left v_edges) then false
  else if check_b left right top (upper_bound hy bottom h_edges) then false
  else negb (count_ray bottom (lower_bound vx right v_edges) mod 2 =? 0).

(* the number of tiles of the rectangle that two tiles span *)
Definition tile_area (p q : Point) : Z :=
  (Z.abs (px p - px q) + 1) * (Z.abs (py p - py q) + 1).

(* long long width = abs(x1 - x2); long long height = abs(y1 - y2);
   long long area = (width + 1) * (height + 1);  in long long arithmetic *)
Definition area_ll (p q : Point) : Z :=
  let width := int64 (Z.abs (int64 (px p - px q))) in
  let height := int64 (Z.abs (int64 (py p - py q))) in
  int64 (int64 (width + 1) * int64 (height + 1)).

(* all pairs (points[i], points[j]) with i < j, in the order of the two
   nested loops *)
Fixpoint pairs {A} (l : list A) : list (A * A) :=
  match l with
  | [] => []
  | a :: l' => map (pair a) l' ++ pairs l'
  end.

(* solution2.cpp, step 4: the body of the two nested loops *)
Definition fast_step (v_edges : list VEdge) (h_edges : list HEdge)
    (max_area : Z) (pq : Point * Point) : Z :=
  let area := area_ll pq.1 pq.2 in
  if area <=? max_area then max_area
  else if fast_check v_edges h_edges pq.1 pq.2 then area
  else max_area.

Definition fast_max_area (points : list Point) : Z :=
  let v_edges := sort_by vx (build_v_edges points) in
  let h_edges := sort_by hy (build_h_edges points) in
  foldl (fast_step v_edges h_edges) 0 (pairs points).

(** test_example.cpp: the brute-force check *)

(* reds[i], reds[(i+1) % n] for i = 0 .. n-1 *)
Definition edges_of (reds : list Point) : list (Point * Point) :=
  zip reds (next_points reds).

Definition isOnBoundary (testx testy : Z) (reds : list Point) : bool :=
  existsb (fun '(p1, p2) =>
             let x1 := px p1 in let y1 := py p1 in
             let x2 := px p2 in let y2 := py p2 in
             if x1 =? x2 then
               (testx =? x1) && (Z.min y1 y2 <=? testy) && (testy <=? Z.max y1 y2)
             else if y1 =? y2 then
               (testy =? y1) && (Z.min x1 x2 <=? testx) && (testx <=? Z.max x1 x2)
             else false)
          (edges_of reds).

(* A finite double, as the rational number it denotes.  [round_double q]
   is the double nearest to [q], with ties going to the even significand:
   the rounding of every conversion and operation of IEEE 754 binary64 (53
   bits of significand; below 2^-1022 the doubles stay 2^-1074 apart).
   The overflow to infinity above 2^1024 is not modelled: what is rounded
   here are 64-bit integers, their products and quotients. *)
Definition round_double (q : Q) : Q :=
  let n := Qnum q in
  let d := Zpos (Qden q) in
  let a := Z.abs n in
  let f := a * 2 ^ 1100 / d in
  if f =? 0 then 0%Q
  else
    let e := Z.max (Z.log2 f - 1100 - 52) (-1074) in
    let num := if 0 <=? e then a else a * 2 ^ (- e) in
    let den := if 0 <=? e then d * 2 ^ e else d in
    let m := num / den in
    let r := num mod den in
    let m' := if (den <? 2 * r) || ((den =? 2 * r) && Z.odd m)
              then m + 1 else m in
    if 0 <=? e then inject_Z (Z.sgn n * m' * 2 ^ e)
    else Qmake (Z.sgn n * m') (Z.to_pos (2 ^ (- e))).

(* the conversion of a long long to double *)
Definition double_of_ll (z : Z) : Q := round_double (inject_Z z).

(* double x_intersect = x1 + (double)(x2 - x1) * (testy - y1) / (y2 - y1):
   the differences are taken in long long, then every operand is
   converted to double and every operation rounds.  The divisor is not 0
   where the function is called (y1 and y2 differ there). *)
Definition x_intersect (x1 y1 x2 y2 testy : Z) : Q :=
  let product :=
    round_double (double_of_ll (int64 (x2 - x1))
                  * double_of_ll (int64 (testy - y1)))%Q in
  let quotient :=
    round_double (product / double_of_ll (int64 (y2 - y1)))%Q in
  round_double (double_of_ll x1 + quotient)%Q.

Definition isInsidePolygon (testx testy : Z) (reds : list Point) : bool :=
  let winding :=
    foldl (fun (winding : Z) '(p1, p2) =>
             let x1 := px p1 in let y1 := py p1 in
             let x2 := px p2 in let y2 := py p2 in
             if ((y1 <=? testy) && (testy <? y2)) || ((testy <? y1) && (y2 <=? testy))
             then
               if negb (Qle_bool (x_intersect x1 y1 x2 y2 testy)
                                 (double_of_ll testx))
               then winding + 1 else winding
             else winding)
          0 (edges_of reds) in
  Z.rem winding 2 =? 1.

Definition isValidTile (x y : Z) (reds : list Point) : bool :=
  existsb (fun p => (px p =? x) && (py p =? y)) reds
  || isOnBoundary x y reds || isInsidePolygon x y reds.

(* the integers lo, lo+1, ..., hi *)
Definition range (lo hi : Z) : list Z := seqZ lo (hi - lo + 1).

Definition isRectangleValid (x1 y1 x2 y2 : Z) (reds : list Point) : bool :=
  forallb (fun x => isValidTile x y1 reds) (range x1 x2)
  && forallb (fun x => isValidTile x y2 reds) (range x1 x2)
  && forallb (fun y => isValidTile x1 y reds) (range (y1 + 1) (y2 - 1))
  && forallb (fun y => isValidTile x2 y reds) (range (y1 + 1) (y2 - 1)).

(* the acceptance test of the loop body of main for the pair (p, q) *)
Definition brute_check (reds : list Point) (p q : Point) : bool :=
  let left := Z.min (px p) (px q) in
  let right := Z.max (px p) (px q) in
  let top := Z.min (py p) (py q) in
  let bottom := Z.max (py p) (py q) in
  isRectangleValid left top right bottom reds.

(* the body of the two nested loops of main: the new [max_area] and the
   line printed, if any *)
Definition brute_step (reds : list Point) (acc : Z * list out_item)
    (pq : Point * Point) : Z * list out_item :=
  let '(max_area, printed) := acc in
  let left := Z.min (px pq.1) (px pq.2) in
  let right := Z.max (px pq.1) (px pq.2) in
  let top := Z.min (py pq.1) (py pq.2) in
  let bottom := Z.max (py pq.1) (py pq.2) in
  let area := (right - left + 1) * (bottom - top + 1) in
  if isRectangleValid left top right bottom reds then
    if max_area <? area then
      (area,
       printed ++ [OStr "Valid rectangle: ("; OInt left; OStr ","; OInt top;
                   OStr ") to ("; OInt right; OStr ","; OInt bottom;
                   OStr ") area "; OInt area; ONl])
    else acc
  else acc.

Definition brute_max_area (reds : list Point) : Z :=
  (foldl (brute_step reds) (0, []) (pairs reds)).1.

Definition mkp (x y : Z) : Point := {| px := x; py := y |}.

(* the eight red tiles written in the main of test_example.cpp *)
Definition example_reds : list Point :=
  [mkp 7 1; mkp 11 1; mkp 11 7; mkp 9 7; mkp 9 5; mkp 2 5; mkp 2 3; mkp 7 3].

Definition main_test_example : run :=
  let r := foldl (brute_step example_reds) (0, []) (pairs example_reds) in
  {| out := [OStr "Testing example with ";
             OInt (Z.of_nat (length example_reds)); OStr " red tiles"; ONl]
            ++ r.2 ++ [OStr "Max area: "; OInt r.1; ONl];
     err := [];
     status := 0 |}.

(** ** Day 7: the row-by-row beam simulation of walkthrough.md *)

Module Day7.

(* grid[r][c] for a column c >= 0; [None] is Python's IndexError *)
Definition cell (row : string) (c : Z) : option ascii :=
String.get (Z.to_nat c) row.

(* the body of [for c in current_beams] *)
Definition beam (cols : Z) (row : string) (c : Z)
  (acc : option (gset Z * Z)) : option (gset Z * Z) :=
match acc with
| None => None
| Some (next_beams, splits) =>
    match cell row c with
    | None => None
    | Some ch =>
        if Ascii.eqb ch "^" then
          let nb1 := if 0 <=? c - 1 then {[c - 1]} ∪ next_beams
                     else next_beams in
          let nb2 := if c + 1 <? cols then {[c + 1]} ∪ nb1 else nb1 in
          Some (nb2, splits + 1)
        else if Ascii.eqb ch "." then Some ({[c]} ∪ next_beams, splits)
        else Some (next_beams, splits)
    end
end.

(* one turn of [for r in range(1, rows)]: a Python set is iterated in an
 order of its own; [elements] fixes one, and the body does not depend on
 it *)
Definition row_step (cols : Z) (row : string) (current_beams : gset Z)
  (splits : Z) : option (gset Z * Z) :=
foldr (beam cols row) (Some (∅, splits)) (elements current_beams).

Fixpoint simulate (cols : Z) (rows_below : list string)
  (current_beams : gset Z) (splits : Z) : option Z :=
match rows_below with
| [] => Some splits
| row :: rest =>
    match row_step cols row current_beams splits with
    | None => None
    | Some (next_beams, splits') => simulate cols rest next_beams splits'
    end
end.

Fixpoint index_of (ch : ascii) (s : string) (i : Z) : option Z :=
match s with
| EmptyString => None
| String c s' => if Ascii.eqb c ch then Some i else index_of ch s' (i + 1)
end.

(** Modelled from the spec: day7.py is not among the sources; the
  walkthrough gives its loop and says of what precedes it: the input is
  read into a 2D grid, the 'S' of the first row is located and is the
  initial beam, the split counter starts at 0. *)
Definition count_splits (grid : list string) : option Z :=
match grid with
| [] => None
| first :: rows_below =>
    match index_of "S" first 0 with
    | None => None
    | Some start_col =>
        simulate (Z.of_nat (String.length first)) rows_below
          {[start_col]} 0
    end
end.

(* what a call of a Python function ends in *)
Inductive pyresult :=
| PyVal (z : Z)
| PyIndexError
| PyRecursionError.

(* The second code block of the walkthrough (part 2): the number of paths
 from row r, column c.  [rows_from] holds the rows r, r+1, ...; the memo
 of the source only saves recomputation.  Every call takes a frame of
 the interpreter's stack: [frames] is the number of frames the recursion
 limit still allows, and a call made when none is left raises
 RecursionError.  The left call is evaluated before the right one. *)
Fixpoint count_paths (frames : nat) (cols : Z) (rows_from : list string)
  (c : Z) : pyresult :=
match frames with
| O => PyRecursionError
| S frames' =>
    match rows_from with
    | [] => PyVal 1
    | row :: rest =>
        if (c <? 0) || (cols <=? c) then PyVal 1
        else
          match cell row c with
          | None => PyIndexError
          | Some ch =>
              if Ascii.eqb ch "^" then
                match count_paths frames' cols rest (c - 1) with
                | PyVal a =>
                    match count_paths frames' cols rest (c + 1) with
                    | PyVal b => PyVal (a + b)
                    | e => e
                    end
                | e => e
                end
              else count_paths frames' cols rest c
          end
    end
end.

(** Modelled from the spec: the example grid of the puzzle statement, to
  which the walkthrough's "Example Input: Result was 21 splits" (and,
  for part 2, "Example Result: 40") refers; the file is not among the
  sources. *)
Definition example_grid : list string :=
[ ".......S.......";
  "...............";
  ".......^.......";
  "...............";
  "......^.^......";
  "...............";
  ".....^.^.^.....";
  "...............";
  "....^.^...^....";
  "...............";
  "...^.^...^.^...";
  "...............";
  "..^...^.....^..";
  "...............";
  ".^.^.^.^.^...^.";
  "..............." ]%string.

End Day7.

(** ** Reading numbers from a stream *)

Definition LLONG_MAX : Z := 9223372036854775807.
Definition LLONG_MIN : Z := -9223372036854775808.

(* [ss >> x] for an integer type with the range lo..hi: white space is
   skipped, then an optional sign and decimal digits are read.  [None]: the
   extraction failed (no digit, or a value outside the range) and the
   stream is in the fail state. *)
Definition read_num (lo hi : Z) (s : string) : option (Z * string) :=
  let s1 := skip_space s in
  let '(neg, s2) :=
    match s1 with
    | String "-" r => (true, r)
    | String "+" r => (false, r)
    | _ => (false, s1)
    end in
  let '(ds, rest) := span_digits s2 in
  match ds with
  | EmptyString => None
  | _ =>
      let v := if neg then - decimal ds else decimal ds in
      if (lo <=? v) && (v <=? hi) then Some (v, rest) else None
  end.

(* [ss >> c] for a char: white space is skipped, one character is read *)
Definition read_char (s : string) : option (ascii * string) :=
  match skip_space s with
  | String c r => Some (c, r)
  | EmptyString => None
  end.

(** ** Day 9 part 1 (first program of Day9/solution.cpp) *)

(* ss >> x >> comma >> y; the point when [!ss.fail()] *)
Definition parse_point (line : string) : option (Z * Z) :=
  match read_num INT_MIN INT_MAX line with
  | None => None
  | Some (x, r1) =>
      match read_char r1 with
      | None => None
      | Some (_, r2) =>
          match read_num INT_MIN INT_MAX r2 with
          | None => None
          | Some (y, _) => Some (x, y)
          end
      end
  end.

(* the body of [while (getline(infile, line))]: the points and the text
   sent to cerr so far *)
Definition read_point_line (acc : list (Z * Z) * list out_item)
    (line : string) : list (Z * Z) * list out_item :=
  if string_empty line then acc
  else
    match parse_point line with
    | None => (acc.1, acc.2 ++ [OStr "Invalid line: "; OStr line; ONl])
    | Some p => (acc.1 ++ [p], acc.2)
    end.

(* the body of the two nested loops over i < j *)
(* int dx = abs(points[i].first - points[j].first), likewise dy, in int;
   long long area = (dx + 1LL) * (dy + 1): the first factor is computed in
   long long, the second in int, the product in long long *)
Definition area_step (max_area : Z) (pq : (Z * Z) * (Z * Z)) : Z :=
  let dx := int32 (Z.abs (int32 (pq.1.1 - pq.2.1))) in
  let dy := int32 (Z.abs (int32 (pq.1.2 - pq.2.2))) in
  let area := int64 (int64 (dx + 1) * int32 (dy + 1)) in
  if max_area <? area then area else max_area.

Definition largest_area (points : list (Z * Z)) : Z :=
  foldl area_step 0 (pairs points).

Definition main_part1 (fs : files) : run :=
  match fs "input.txt"%string with
  | None =>
      {| out := []; err := [OStr "Error opening input.txt"; ONl];
         status := 1 |}
  | Some lines =>
      let r := foldl read_point_line ([], []) lines in
      {| out := [OInt (largest_area r.1); ONl]; err := r.2; status := 0 |}
  end.

(** ** Day 9 part 2 (solution2.cpp): input and main *)

(* for (char &c : line) if (c == ',') c = ' '; *)
Fixpoint commas_to_spaces (s : string) : string :=
  match s with
  | EmptyString => EmptyString
  | String c s' =>
      String (if Ascii.eqb c "," then " "%char else c) (commas_to_spaces s')
  end.

(* while (ss >> x >> y) points.push_back({x, y});  every turn consumes at
   least one character, so the length of the text bounds the turns *)
Fixpoint read_pairs (turns : nat) (s : string) : list Point :=
  match turns with
  | O => []
  | S turns' =>
      match read_num LLONG_MIN LLONG_MAX s with
      | None => []
      | Some (x, r1) =>
          match read_num LLONG_MIN LLONG_MAX r1 with
          | None => []
          | Some (y, r2) => mkp x y :: read_pairs turns' r2
          end
      end
  end.

Definition parse_line2 (line : string) : list Point :=
  read_pairs (S (String.length line)) (commas_to_spaces line).

(* vector<Point> parseInput(const string& filename), once the file is open *)
Definition parseInput (lines : list string) : list Point :=
  flat_map parse_line2 lines.

Definition main_solution2 (fs : files) : run :=
  match fs "input.txt"%string with
  | None =>
      {| out := [];
         err := [OStr "Error: Could not open "; OStr "input.txt"; ONl];
         status := 1 |}
  | Some lines =>
      let points := parseInput lines in
      if (length points <? 4)%nat then
        {| out := [OStr "Not enough points to form a polygon."; ONl];
           err := []; status := 0 |}
      else
        {| out := [OStr "Part 2 Largest Area: "; OInt (fast_max_area points);
                   ONl];
           err := []; status := 0 |}
  end.

(** ** Day 10 part 2: input and main of the two solver programs *)

(* the text before the first [c] and the text after it *)
Fixpoint until (c : ascii) (s : string) : option (string * string) :=
  match s with
  | EmptyString => None
  | String a s' =>
      if Ascii.eqb a c then Some (EmptyString, s')
      else match until c s' with
           | Some (b, r) => Some (String a b, r)
           | None => None
           end
  end.

(* regex_search for "\([^\)]+\)" (op = "(", cl = ")") and "\{[^\}]+\}": the
   leftmost opening character that is followed by one or more characters
   other than the closing one and then the closing one.  The result is the
   text between the two (the match without its first and last character)
   and the suffix after the match. *)
Fixpoint regex_search (op cl : ascii) (s : string) : option (string * string) :=
  match s with
  | EmptyString => None
  | String c s' =>
      if Ascii.eqb c op then
        match until cl s' with
        | Some (String a inner, suffix) => Some (String a inner, suffix)
        | _ => regex_search op cl s'
        end
      else regex_search op cl s'
  end.

(* while (getline(ss, token, ',')): the pieces between commas; a piece is
   read as long as the stream is not at its end *)
Fixpoint split_commas_from (s : string) (tmp : string) : list string :=
  match s with
  | EmptyString => if string_empty tmp then [] else [tmp]
  | String c s' =>
      if Ascii.eqb c "," then tmp :: split_commas_from s' EmptyString
      else split_commas_from s' (string_snoc tmp c)
  end.

Definition split_commas (s : string) : list string :=
  split_commas_from s EmptyString.

(* the loop "Find all buttons"; each match consumes at least three
   characters *)
Fixpoint find_buttons (turns : nat) (s : string) : result (list (list Z)) :=
  match turns with
  | O => Ok []
  | S turns' =>
      match regex_search "(" ")" s with
      | None => Ok []
      | Some (button_str, suffix) =>
          button <~ rmap_list stoi (split_commas button_str) ;;
          rest <~ find_buttons turns' suffix ;;
          Ok (button :: rest)
      end
  end.

(* pair<vector<vector<int>>, vector<int>> parse_machine_part2(line) *)
Definition parse_machine_part2 (line : string)
  : result (list (list Z) * list Z) :=
  btns <~ find_buttons (S (String.length line)) line ;;
  targets <~
    match regex_search "{" "}" line with
    | None => Ok []
    | Some (target_str, _) => rmap_list stoi (split_commas target_str)
    end ;;
  Ok (btns, targets).

(* the loop [while (getline(file, line))] of main, for a solver [solve]:
   the text printed, [total_presses] and [machine_count] *)
Fixpoint part2_lines (solve : list (list Z) -> list Z -> result Z)
    (lines : list string) (total_presses : Z) (machine_count : Z)
  : result (list out_item * Z * Z) :=
  match lines with
  | [] => Ok ([], total_presses, machine_count)
  | line :: rest =>
      if string_empty line then
        part2_lines solve rest total_presses machine_count
      else
        bt <~ parse_machine_part2 line ;;
        min_presses <~ solve bt.1 bt.2 ;;
        if min_presses =? -1 then
          r <~ part2_lines solve rest total_presses machine_count ;;
          Ok ([OStr "Machine "; OInt (Z.of_nat (length bt.2));
               OStr " counters, "; OInt (Z.of_nat (length bt.1));
               OStr " buttons: No solution found (try increasing max_presses_per_button)";
               ONl] ++ r.1.1, r.1.2, r.2)
        else
          r <~ part2_lines solve rest (total_presses + min_presses)
                 (machine_count + 1) ;;
          Ok ([OStr "Machine "; OInt (Z.of_nat (length bt.2));
               OStr " counters, "; OInt (Z.of_nat (length bt.1));
               OStr " buttons: "; OInt min_presses; OStr " presses"; ONl]
              ++ r.1.1, r.1.2, r.2)
  end.

(* argv[1] when there is one, "input.txt" otherwise *)
Definition part2_filename (argv : list string) : string :=
  match argv with
  | _ :: a :: _ => a
  | _ => "input.txt"%string
  end.

Definition main_part2 (solve : list (list Z) -> list Z -> result Z)
    (argv : list string) (fs : files) : result run :=
  let filename := part2_filename argv in
  match fs filename with
  | None =>
      Ok {| out := []; err := [OStr "Error opening file: "; OStr filename; ONl];
            status := 1 |}
  | Some lines =>
      r <~ part2_lines solve lines 0 0 ;;
      Ok {| out := r.1.1 ++
                   [OStr "Total minimum presses: "; OInt r.1.2; ONl;
                    OStr "Processed "; OInt r.2; OStr " machines"; ONl];
            err := []; status := 0 |}
  end.

Definition main_bounded (fuel : nat) := main_part2 (solve_machine_part2_bounded fuel).
Definition main_dijkstra (fuel : nat) := main_part2 (solve_machine_part2_dijkstra fuel).


(** ** Shortest paths and the invariant of a search by levels *)

Section LevelSearch.
Context {St : Type} `{Countable St}.
Variable edge : St -> St -> Prop.
Variable start : St.

(* [reach k s]: [s] is reached from [start] along [k] edges *)
Inductive reach : Z -> St -> Prop :=
| reach_start : reach 0 start
| reach_step k s s' : reach k s -> edge s s' -> reach (k + 1) s'.

Definition shortest (c : Z) (s : St) : Prop :=
  reach c s /\ forall j, reach j s -> c <= j.

(* The work list [W] holds states with their cost, [X] is the set of the
   states seen, [P] the successors of the state being expanded that are
   still to be looked at, [k] the level of that state. *)
Record search_inv (goal : St) (k : Z) (W : list (St * Z)) (X : gset St)
    (P : list St) : Prop := {
  inv_work : forall s c, (s, c) ∈ W ->
    s ∈ X /\ shortest c s /\ (c = k \/ c = k + 1);
  inv_level : forall s j, reach j s -> j <= k -> s ∈ X;
  inv_done : forall s, s ∈ X -> s ∉ W.*1 ->
    forall s', edge s s' -> s' ∈ X \/ s' ∈ P;
  inv_pending : forall s', s' ∈ P -> reach (k + 1) s';
  inv_seen : forall s, s ∈ X -> exists c, shortest c s /\ c <= k + 1;
  inv_goal : goal ∈ X -> goal ∈ W.*1;
  inv_nonneg : 0 <= k
}.
End LevelSearch.

(** ** The graph of the button-press program *)

(* one press of a button of [m] leads from [s] to [s'] *)
Definition press_edge (m : Machine) (s s' : list Z) : Prop :=
  exists btn, btn ∈ buttons m /\ press s btn = Ok s'.

Definition press_ok (s btn : list Z) : option (list Z) :=
  match press s btn with
  | Ok s' => Some s'
  | _ => None
  end.

Definition successors (m : Machine) (s : list Z) : list (list Z) :=
  omap (press_ok s) (buttons m).

(* the counter vectors that at most [n] presses reach *)
Fixpoint states_within (m : Machine) (n : nat) : list (list Z) :=
  match n with
  | O => [zeros (length (target m))]
  | S n' =>
      let l := states_within m n' in l ++ flat_map (successors m) l
  end.

(* what the BFS loop of minPresses maintains between two turns, and inside
   the loop over the buttons *)
Record minPresses_inv (m : Machine) (k : Z) (q : list (list Z * Z))
    (dist : gmap (list Z) Z) (P : list (list Z)) : Prop := {
  mp_search :
    search_inv (press_edge m) (zeros (length (target m))) (target m)
      k q (dom dist) P;
  mp_dist : forall s d, dist !! s = Some d ->
    shortest (press_edge m) (zeros (length (target m))) d s;
  mp_sorted : StronglySorted (fun a b : list Z * Z => a.2 <= b.2) q
}.

(** The example of the puzzle statement (input.md of Day 10, not among the
    sources; the README gives its results: 2, 3 and 2 presses, 7 in all, for
    the indicator lights of part 1, and 10 + 12 + 11 = 33 for the counters
    of part 2).  The comments of parseButton and parseTarget quote "(1,3)"
    and "{3,5,4,7}" from its first line. *)
Definition example_lines : list string :=
  [ "[.##.] (3) (1,3) (2) (2,3) (0,2) (0,1) {3,5,4,7}";
    "[...#.] (0,2,3,4) (2,3) (0,4) (0,1,2) (1,2,3,4) {7,5,12,7,2}";
    "[.###.#] (0,1,2,3,4) (0,3,4) (0,1,2,4,5) (1,2) {10,11,11,5,10,5}" ]%string.

Definition example_machines : list Machine :=
  [ {| buttons := [[3]; [1; 3]; [2]; [2; 3]; [0; 2]; [0; 1]];
       target := [3; 5; 4; 7] |};
    {| buttons := [[0; 2; 3; 4]; [2; 3]; [0; 4]; [0; 1; 2]; [1; 2; 3; 4]];
       target := [7; 5; 12; 7; 2] |};
    {| buttons := [[0; 1; 2; 3; 4]; [0; 3; 4]; [0; 1; 2; 4; 5]; [1; 2]];
       target := [10; 11; 11; 5; 10; 5] |} ].

(* a file system with one file *)
Definition one_file (name : string) (lines : list string) : files :=
  fun f => if String.eqb f name then Some lines else None.

(* a machine whose second counter no button touches *)
Definition stuck_machine : Machine :=
  {| buttons := [[0]]; target := [0; 1] |}.

Fixpoint all_digits (s : string) : bool :=
  match s with
  | EmptyString => true
  | String c s' => isdigit c && all_digits s'
  end.

(* what the two parsers return, in the statement's words: the runs, each
   converted to an integer; std::out_of_range when one does not fit an int *)
Definition digit_run_values (s : string) : result (list Z) :=
  if forallb (fun r => decimal r <=? INT_MAX) (digit_runs s)
  then Ok (map decimal (digit_runs s))
  else Throws out_of_range.

(** ** The graph of the Day 10 solvers *)

(* the bound the pruning keeps: no counter below 0 or above its target (a
   counter with a negative target stays 0) *)
Definition in_bounds (targets s : list Z) : Prop :=
  Forall2 (fun v t => 0 <= v <= Z.max 0 t) s targets.

(* no button lists a negative index *)
Definition wf_buttons (btns : list (list Z)) : Prop :=
  Forall (Forall (fun idx => 0 <= idx)) btns.

Definition valid_press (targets s btn : list Z) : option (list Z) :=
  match apply_button targets s btn with
  | Ok (Some s') => Some s'
  | _ => None
  end.

(* a press of a button of [btns] that passes the pruning leads from [s] to
   [s'] *)
Definition button_edge (btns : list (list Z)) (targets : list Z)
    (s s' : list Z) : Prop :=
  exists btn, btn ∈ btns /\ apply_button targets s btn = Ok (Some s').

(* all the counter vectors within the bounds *)
Fixpoint box (targets : list Z) : list (list Z) :=
  match targets with
  | [] => [[]]
  | t :: ts =>
      flat_map (fun v => map (cons v) (box ts)) (seqZ 0 (Z.max 0 t + 1))
  end.

Definition counter_sum (s : list Z) : Z := foldr Z.add 0 s.

(* the entries of a button that name a counter *)
Definition effective (targets : list Z) (idx : Z) : Prop :=
  0 <= idx < Z.of_nat (length targets).

(* The press counts of an item never make the cap matter: a button pressed
   [c] > 0 times names a counter that is at least [c]. *)
Definition counts_ok (btns : list (list Z)) (targets s counts : list Z)
  : Prop :=
  length counts = length btns /\
  forall b btn c, btns !! b = Some btn -> counts !! b = Some c ->
    c = 0 \/
    exists idx v, idx ∈ btn /\ effective targets idx /\
      s !! Z.to_nat idx = Some v /\ c <= v.

(* the states in the two search structures of the bounded BFS *)
Definition bounded_states (cfg : BConfig) : list (list Z) :=
  (fun it : QueueItem => it.1.1) <$> cfg.1.1.

Definition bounded_config_ok (targets : list Z) (cfg : BConfig) : Prop :=
  (forall s, s ∈ bounded_states cfg -> in_bounds targets s) /\
  (forall s, s ∈ cfg.1.2 -> in_bounds targets s).

Definition dijkstra_states (cfg : DConfig) : list (list Z) :=
  (fun it : PQItem => it.1.2) <$> cfg.1.

Definition dijkstra_config_ok (targets : list Z) (cfg : DConfig) : Prop :=
  (forall s, s ∈ dijkstra_states cfg -> in_bounds targets s) /\
  (forall s, s ∈ dom cfg.2 -> in_bounds targets s).

(* the work list of the level search in a queue and in a priority queue *)
Definition queue_work (q : list QueueItem) : list (list Z * Z) :=
  (fun it : QueueItem => (it.1.1, it.1.2)) <$> q.

Definition pq_work (pq : list PQItem) : list (list Z * Z) :=
  (fun it : PQItem => (it.1.2, it.1.1)) <$> pq.

(* what the bounded BFS maintains until it takes the target from the
   queue *)
Record bounded_inv (btns : list (list Z)) (targets : list Z) (k : Z)
    (q : list QueueItem) (visited : gset (list Z)) (P : list (list Z))
  : Prop := {
  bi_search :
    search_inv (button_edge btns targets) (zeros (length targets)) targets
      k (queue_work q) visited P;
  bi_sorted : StronglySorted (fun a b : QueueItem => a.1.2 <= b.1.2) q;
  bi_items : forall s p counts, (s, p, counts) ∈ q ->
    counts_ok btns targets s counts /\ p <= counter_sum s;
  bi_bounds : forall s, s ∈ visited -> in_bounds targets s
}.

(* what the Dijkstra loop maintains *)
Record dijkstra_inv (btns : list (list Z)) (targets : list Z) (k : Z)
    (pq : list PQItem) (min_cost : gmap (list Z) Z) (P : list (list Z))
  : Prop := {
  di_search :
    search_inv (button_edge btns targets) (zeros (length targets)) targets
      k (pq_work pq) (dom min_cost) P;
  di_cost : forall s d, min_cost !! s = Some d ->
    shortest (button_edge btns targets) (zeros (length targets)) d s;
  di_items : forall c s counts, (c, s, counts) ∈ pq ->
    counts_ok btns targets s counts /\ min_cost !! s = Some c;
  di_bounds : forall s, s ∈ dom min_cost -> in_bounds targets s
}.

(** ** Lines and output of whole programs *)

(* a line that Day 9 part 1 turns into a point *)
Definition point_line (line : string) : bool :=
  negb (string_empty line) && bool_decide (is_Some (parse_point line)).

(* the warnings of Day 9 part 1: one per non-empty line that is no point *)
Definition point_warnings (lines : list string) : list out_item :=
  flat_map (fun line =>
              if negb (string_empty line)
                 && negb (bool_decide (is_Some (parse_point line)))
              then [OStr "Invalid line: "; OStr line; ONl] else [])
           lines.

(* a line of which solution2.cpp keeps at least one point *)
Definition pair_line (line : string) : bool :=
  match parse_line2 line with [] => false | _ => true end.

Definition is_int (o : out_item) : bool :=
  match o with OInt _ => true | _ => false end.

Definition is_text (o : out_item) : bool :=
  match o with OStr _ => true | _ => false end.

(* an output that consists of one or two integers (and line ends) *)
Definition only_integers (o : list out_item) : Prop :=
  forallb (fun x => negb (is_text x)) o = true /\
  (1 <= length (filter (fun x => is_int x = true) o) <= 2)%nat.

(* the lines of the 8-point example, and a polygon in the shape of a U
   whose arms are one tile apart *)
Definition example_point_lines : list string :=
  ["7,1"; "11,1"; "11,7"; "9,7"; "9,5"; "2,5"; "2,3"; "7,3"]%string.

Definition u_shape : list Point :=
  [mkp 0 0; mkp 5 0; mkp 5 4; mkp 3 4; mkp 3 2; mkp 2 2; mkp 2 4; mkp 0 4].

(* the line the Day 10 programs print for one machine with the buttons
   and targets [bt] and the result [v] of the solver *)
Definition machine_report (bt : list (list Z) * list Z) (v : Z)
  : list out_item :=
  if v =? -1 then
    [OStr "Machine "; OInt (Z.of_nat (length bt.2));
     OStr " counters, "; OInt (Z.of_nat (length bt.1));
     OStr " buttons: No solution found (try increasing max_presses_per_button)";
     ONl]
  else
    [OStr "Machine "; OInt (Z.of_nat (length bt.2));
     OStr " counters, "; OInt (Z.of_nat (length bt.1));
     OStr " buttons: "; OInt v; OStr " presses"; ONl].

(* the results other than -1, their sum, and the line the button-press
   program prints for each -1 *)
Definition solved (vs : list Z) : list Z :=
  filter (fun v => v <> -1) vs.

Definition solved_total (vs : list Z) : Z := foldr Z.add 0 (solved vs).

Definition unreachable_lines (vs : list Z) : list out_item :=
  flat_map (fun v => if v =? -1 then [OStr "Machine unreachable!"; ONl]
                     else []) vs.

(* the lines of a file that are not empty *)
Definition nonempty_lines (lines : list string) : list string :=
  filter (fun line => string_empty line = false) lines.

(* what test_example.cpp prints: the header, a line per improvement of
   max_area in the order of the two loops, and the maximum *)
Definition test_example_output : list out_item :=
  [OStr "Testing example with "; OInt 8; OStr " red tiles"; ONl;
   OStr "Valid rectangle: ("; OInt 7; OStr ","; OInt 1; OStr ") to (";
   OInt 11; OStr ","; OInt 1; OStr ") area "; OInt 5; ONl;
   OStr "Valid rectangle: ("; OInt 7; OStr ","; OInt 1; OStr ") to (";
   OInt 9; OStr ","; OInt 5; OStr ") area "; OInt 15; ONl;
   OStr "Valid rectangle: ("; OInt 9; OStr ","; OInt 1; OStr ") to (";
   OInt 11; OStr ","; OInt 7; OStr ") area "; OInt 21; ONl;
   OStr "Valid rectangle: ("; OInt 2; OStr ","; OInt 3; OStr ") to (";
   OInt 9; OStr ","; OInt 5; OStr ") area "; OInt 24; ONl;
   OStr "Max area: "; OInt 24; ONl].

(** ** Further notions for the properties of the programs *)

(* how often a button lists the counter [i] *)
Definition listed (i : nat) (btn : list Z) : Z :=
  Z.of_nat (length (filter (fun idx => idx = Z.of_nat i) btn)).

(* the counters after a press of [btn], when every index it lists exists *)
Definition pressed (s btn : list Z) : list Z :=
  imap (fun i v => v + listed i btn) s.


(** ** Day 9: what the checks of the rectangle programs compute *)

(* sorted by a key, as std::sort leaves a vector *)
Definition sorted_by {A} (key : A -> Z) (l : list A) : Prop :=
  StronglySorted (fun a b => key a <= key b) l.

(* CHECK A over all vertical edges: the edge lies strictly between the left
   and the right side and overlaps the y-range of the rectangle *)
Definition cuts_v (left right bottom top : Z) (e : VEdge) : bool :=
  (left <? vx e) && (vx e <? right) && (y_min e <? top) && (bottom <? y_max e).

(* CHECK B over all horizontal edges *)
Definition cuts_h (left right bottom top : Z) (e : HEdge) : bool :=
  (bottom <? hy e) && (hy e <? top) && (x_min e <? right) && (left <? x_max e).

(* CHECK C over all vertical edges: the edge is at the right side or beyond
   and covers the slice [bottom, bottom + 1] *)
Definition ray_hit (right bottom : Z) (e : VEdge) : bool :=
  (right <=? vx e) && (y_min e <=? bottom) && (bottom <? y_max e).

Definition fast_check_all (v_edges : list VEdge) (h_edges : list HEdge)
    (p q : Point) : bool :=
  let left := Z.min (px p) (px q) in
  let right := Z.max (px p) (px q) in
  let bottom := Z.min (py p) (py q) in
  let top := Z.max (py p) (py q) in
  negb (existsb (cuts_v left right bottom top) v_edges)
  && negb (existsb (cuts_h left right bottom top) h_edges)
  && Z.odd (Z.of_nat (length (filter (fun e => ray_hit right bottom e = true)
                                     v_edges))).

(* a loop body that keeps the largest area among the accepted items *)
Definition keep_max {A} (ok : A -> bool) (area : A -> Z) (m : Z) (x : A) : Z :=
  if ok x then Z.max m (area x) else m.

(* the area of the rectangle of two points in Day 9 part 1 *)
Definition pair_area (pq : (Z * Z) * (Z * Z)) : Z :=
  (Z.abs (pq.1.1 - pq.2.1) + 1) * (Z.abs (pq.1.2 - pq.2.2) + 1).

Definition point_xy (p : Point) : Z * Z := (px p, py p).

(* the tiles of the border of the rectangle with corners (x1,y1), (x2,y2) *)
Definition on_border (x1 y1 x2 y2 x y : Z) : Prop :=
  x1 <= x <= x2 /\ y1 <= y <= y2 /\ (x = x1 \/ x = x2 \/ y = y1 \/ y = y2).

(* every edge of the polygon is vertical or horizontal *)
Definition rectilinear (reds : list Point) : Prop :=
  Forall (fun e : Point * Point => px e.1 = px e.2 \/ py e.1 = py e.2)
         (edges_of reds).

(* a vertical edge strictly to the right of the tile whose y-range, closed
   at the lower and open at the upper end, holds [testy] *)
Definition right_of (testx testy : Z) (e : Point * Point) : bool :=
  (px e.1 =? px e.2) && (testx <? px e.1)
  && (Z.min (py e.1) (py e.2) <=? testy) && (testy <? Z.max (py e.1) (py e.2)).

(** ** Day 10: sequences of presses that pass the pruning *)

(* pressing the buttons at the positions [bs] one after the other, every
   press passing the pruning *)
Fixpoint press_path (btns : list (list Z)) (targets s : list Z)
    (bs : list nat) : option (list Z) :=
  match bs with
  | [] => Some s
  | b :: bs' =>
      match btns !! b with
      | Some btn =>
          match valid_press targets s btn with
          | Some s' => press_path btns targets s' bs'
          | None => None
          end
      | None => None
      end
  end.

Definition times_pressed (b : nat) (bs : list nat) : Z :=
  Z.of_nat (length (filter (fun b' => b' = b) bs)).

(* [v] presses, none taking a counter past its target and no button pressed
   more than [cap] times, lead from the all-zero counters to the targets *)
Definition presses_found (btns : list (list Z)) (targets : list Z)
    (cap v : Z) : Prop :=
  exists bs,
    press_path btns targets (zeros (length targets)) bs = Some targets /\
    Z.of_nat (length bs) = v /\
    forall b, times_pressed b bs <= Z.max 0 cap.

(* an item of the queue or of the priority queue: its state is within the
   bounds and is what some sequence of [p] presses gives, and its press
   counts are the counts of that sequence *)
Definition item_ok (btns : list (list Z)) (targets : list Z) (cap : Z)
    (s : list Z) (p : Z) (counts : list Z) : Prop :=
  in_bounds targets s /\ length counts = length btns /\
  exists bs,
    press_path btns targets (zeros (length targets)) bs = Some s /\
    Z.of_nat (length bs) = p /\
    forall b c, counts !! b = Some c ->
      c = times_pressed b bs /\ c <= Z.max 0 cap.

(* no counter that [btn] lists ends above its target *)
Definition fits (targets s btn : list Z) : Prop :=
  forall i v t, s !! i = Some v -> targets !! i = Some t ->
    0 < listed i btn -> v + listed i btn <= t.

(** ** Strings, tokens and well-formed lines *)

Fixpoint string_forallb (P : ascii -> bool) (s : string) : bool :=
  match s with
  | EmptyString => true
  | String c s' => P c && string_forallb P s'
  end.

Fixpoint string_filter (P : ascii -> bool) (s : string) : string :=
  match s with
  | EmptyString => EmptyString
  | String c s' => if P c then String c (string_filter P s') else string_filter P s'
  end.

Definition not_space (c : ascii) : bool := negb (isspace c).
Definition not_comma (c : ascii) : bool := negb (Ascii.eqb c ",").

(* a non-empty run of decimal digits that denotes a value up to INT_MAX *)
Definition int_text (s : string) : Prop :=
  s <> EmptyString /\ all_digits s = true /\ decimal s <= INT_MAX.

(* the line "x,y" *)
Definition xy_line (x y : string) : string := (x ++ String "," y)%string.

(* coordinates with which no area computed by the Day 9 programs leaves
   the range of int or long long: below 2^30 in absolute value *)
Definition small (z : Z) : Prop := Z.abs z < 1073741824.

Definition small_points (points : list (Z * Z)) : Prop :=
  Forall (fun p => small p.1 /\ small p.2) points.

Definition small_tiles (points : list Point) : Prop :=
  Forall (fun p => small (px p) /\ small (py p)) points.

(* coordinates that a double holds exactly: below 2^53 in absolute value *)
Definition exact_double (z : Z) : Prop := Z.abs z < 9007199254740992.

Definition well_formed_line (line : string) : Prop :=
  exists x y, int_text x /\ int_text y /\
    small (decimal x) /\ small (decimal y) /\ line = xy_line x y.

(** ** Day 7: grids, splitters and paths *)

(* every row below the first has [cols] characters *)
Definition rectangular (cols : Z) (rows : list string) : Prop :=
  Forall (fun row => Z.of_nat (String.length row) = cols) rows.

(* every beam is a column of the grid *)
Definition in_grid (cols : Z) (beams : gset Z) : Prop :=
  forall c, c ∈ beams -> 0 <= c < cols.

(* the beams of [l] that meet a splitter in [row] *)
Definition hits (row : string) (l : list Z) : Z :=
  Z.of_nat (length (filter (fun c => Day7.cell row c = Some "^"%char) l)).

(* the number of splitters of a row, and of all rows *)
Definition splitters (row : string) : Z :=
  hits row (seqZ 0 (Z.of_nat (String.length row))).

Definition all_splitters (rows : list string) : Z :=
  foldr (fun row a => splitters row + a) 0 rows.

(* the number of paths from a column through the rows, as a number: what
   count_paths returns when the recursion limit lets it return *)
Fixpoint paths (cols : Z) (rows : list string) (c : Z) : Z :=
  match rows with
  | [] => 1
  | row :: rest =>
      if (c <? 0) || (cols <=? c) then 1
      else
        match Day7.cell row c with
        | Some ch =>
            if Ascii.eqb ch "^"
            then paths cols rest (c - 1) + paths cols rest (c + 1)
            else paths cols rest c
        | None => 0
        end
  end.

Definition zsum (f : Z -> Z) (l : list Z) : Z :=
  foldr (fun c a => f c + a) 0 l.

(* the paths beyond one per beam *)
Definition surplus (p : Z -> Z) (beams : gset Z) : Z :=
  zsum p (elements beams) - Z.of_nat (size beams).

(** * Properties *)

(** ** The search by levels *)

Section SearchFacts.
Context {St : Type} `{Countable St}.
Variable edge : St -> St -> Prop.
Variable start : St.

Local Abbreviation reach := (reach edge start).
Local Abbreviation shortest := (shortest edge start).
Local Abbreviation search_inv := (search_inv edge start).

Lemma reach_nonneg k s : reach k s -> 0 <= k.
Proof. induction 1; lia. Qed.

Lemma reach_zero k s : reach k s -> k <= 0 -> s = start.
Proof.
  destruct 1 as [|k s s' Hr He]; [done|].
  intros Hk. apply reach_nonneg in Hr. lia.
Qed.

Lemma reach_pred k s :
  reach k s -> 0 < k -> exists s0, reach (k - 1) s0 /\ edge s0 s.
Proof.
  destruct 1 as [|k s s' Hr He]; [lia|].
  intros _. exists s. by replace (k + 1 - 1) with k by lia.
Qed.

Lemma shortest_unique c c' s : shortest c s -> shortest c' s -> c = c'.
Proof.
  intros [Hr Hmin] [Hr' Hmin']. apply Hmin in Hr'. apply Hmin' in Hr. lia.
Qed.

Lemma shortest_start : shortest 0 start.
Proof. split; [constructor|]. intros j Hj. by eapply reach_nonneg. Qed.

Lemma search_inv_init goal :
  search_inv goal 0 [(start, 0)] {[start]} [].
Proof.
  split.
  - intros s c Hin. apply list_elem_of_singleton in Hin as [= -> ->].
    split; [by apply elem_of_singleton|].
    split; [apply shortest_start | by left].
  - intros s j Hr Hj. apply reach_zero in Hr as ->; [|done].
    by apply elem_of_singleton.
  - intros s ->%elem_of_singleton Hn. destruct Hn. by left.
  - intros s' Hs'. by apply elem_of_nil in Hs'.
  - intros s ->%elem_of_singleton. exists 0. split; [apply shortest_start | lia].
  - intros ->%elem_of_singleton. by left.
  - done.
Qed.

(* once no item of level [k] is left, the invariant holds one level up *)
Lemma search_inv_level_up goal k W X :
  search_inv goal k W X [] ->
  (forall s c, (s, c) ∈ W -> c ≠ k) ->
  search_inv goal (k + 1) W X [].
Proof.
  intros [Hw Hl Hd Hp Hs Hg Hk0] Hk. split; try done.
  - intros s c Hin. destruct (Hw s c Hin) as (? & ? & [->| ->]).
    + by destruct (Hk s k).
    + split_and!; auto.
  - intros s j Hr Hj.
    destruct (decide (j <= k)) as [?|Hgt]; [by eapply Hl|].
    assert (j = k + 1) as -> by lia.
    destruct (reach_pred _ _ Hr) as (s0 & Hr0 & He); [lia|].
    replace (k + 1 - 1) with k in Hr0 by lia.
    assert (s0 ∈ X) as Hs0 by (eapply Hl; [done | lia]).
    destruct (decide (s0 ∈ W.*1)) as [Hin|Hnin].
    + apply list_elem_of_fmap in Hin as ([s1 c] & -> & Hin). simpl in *.
      destruct (Hw _ _ Hin) as (_ & [_ Hmin] & [->| ->]).
      * by destruct (Hk s1 k).
      * apply Hmin in Hr0. lia.
    + destruct (Hd s0 Hs0 Hnin s He) as [?|Hnil]; [done|].
      by apply elem_of_nil in Hnil.
  - intros s' Hnil. by apply elem_of_nil in Hnil.
  - intros s Hin. destruct (Hs s Hin) as (c & ? & ?). exists c. split; [done | lia].
  - lia.
Qed.

(* the level of an item of least cost *)
Lemma search_inv_least goal k W X s c :
  search_inv goal k W X [] ->
  (s, c) ∈ W ->
  (forall s' c', (s', c') ∈ W -> c <= c') ->
  search_inv goal c W X [].
Proof.
  intros Hinv Hin Hleast.
  destruct (inv_work _ _ _ _ _ _ _ Hinv s c Hin) as (_ & _ & [->| ->]); [done|].
  apply search_inv_level_up; [done|].
  intros s' c' Hin' ->. apply Hleast in Hin'. lia.
Qed.

(* a state of the current level leaves the work list to be expanded *)
Lemma search_inv_pop goal k W W' X s P :
  search_inv goal k W X [] ->
  (forall x, x ∈ W <-> x = (s, k) \/ x ∈ W') ->
  s ≠ goal ->
  (forall s', edge s s' <-> s' ∈ P) ->
  search_inv goal k W' X P.
Proof.
  intros [Hw Hl Hd Hp Hs Hg Hk0] HW Hne HP. split; try done.
  - intros s0 c Hin. apply Hw, HW. by right.
  - intros s0 Hs0 Hnin s' He.
    destruct (decide (s0 = s)) as [->|Hne0]; [right; by apply HP|].
    left. destruct (Hd s0 Hs0) with (s' := s') as [?|Hnil]; [|done|done|].
    + intros Hin. apply list_elem_of_fmap in Hin as ([s1 c] & -> & Hin).
      apply HW in Hin as [[= -> ->]|Hin]; [done|].
      apply Hnin, list_elem_of_fmap. by exists (s1, c).
    + by apply elem_of_nil in Hnil.
  - intros s' Hs'. apply HP in Hs'.
    destruct (Hw s k) as (_ & [Hr _] & _); [apply HW; by left|].
    by econstructor.
  - intros Hin. apply Hg, list_elem_of_fmap in Hin as ([s1 c] & -> & Hin).
    apply HW in Hin as [[= -> ->]|Hin]; [done|].
    apply list_elem_of_fmap. by exists (s1, c).
Qed.

(* a successor that was seen before *)
Lemma search_inv_skip goal k W X s' P :
  search_inv goal k W X (s' :: P) -> s' ∈ X -> search_inv goal k W X P.
Proof.
  intros [Hw Hl Hd Hp Hs Hg Hk0] Hin. split; try done.
  - intros s Hs0 Hnin s1 He.
    destruct (Hd s Hs0 Hnin s1 He) as [?|[->|?]%elem_of_cons]; auto.
  - intros s1 Hs1. apply Hp. by right.
Qed.

(* a new successor enters the work list at the next level *)
Lemma search_inv_push goal k W W' X s' P :
  search_inv goal k W X (s' :: P) ->
  s' ∉ X ->
  (forall x, x ∈ W' <-> x = (s', k + 1) \/ x ∈ W) ->
  search_inv goal k W' ({[s']} ∪ X) P.
Proof.
  intros [Hw Hl Hd Hp Hs Hg Hk0] Hnin HW.
  assert (shortest (k + 1) s') as Hsh.
  { split; [apply Hp; by left|]. intros j Hr.
    destruct (decide (k + 1 <= j)) as [?|Hlt]; [done|].
    destruct Hnin. eapply Hl; [done | lia]. }
  split; [| | | | | |done].
  - intros s c [[= -> ->]|Hin]%HW.
    + split; [by apply elem_of_union_l, elem_of_singleton|].
      split; [done | by right].
    + destruct (Hw s c Hin) as (? & ? & ?).
      split; [by apply elem_of_union_r | done].
  - intros s j Hr Hj. apply elem_of_union_r. by eapply Hl.
  - intros s [->%elem_of_singleton|Hs0]%elem_of_union Hn s1 He.
    + destruct Hn. apply list_elem_of_fmap. exists (s', k + 1).
      split; [done|]. apply HW. by left.
    + destruct (Hd s Hs0) with (s' := s1) as [?|[->|?]%elem_of_cons];
        [| done | | | by right].
      * intros Hin. apply Hn.
        apply list_elem_of_fmap in Hin as (x & -> & Hin).
        apply list_elem_of_fmap. exists x. split; [done|]. apply HW.
        by right.
      * left. by apply elem_of_union_r.
      * left. by apply elem_of_union_l, elem_of_singleton.
  - intros s1 Hs1. apply Hp. by right.
  - intros s [->%elem_of_singleton|Hs0]%elem_of_union.
    + exists (k + 1). split; [done | lia].
    + by apply Hs.
  - intros [->%elem_of_singleton|Hin]%elem_of_union.
    + apply list_elem_of_fmap. exists (s', k + 1). split; [done|].
      apply HW. by left.
    + apply Hg, list_elem_of_fmap in Hin as (x & -> & Hin).
      apply list_elem_of_fmap. exists x. split; [done|]. apply HW. by right.
Qed.

(* when the work list is empty every reachable state was seen *)
Lemma search_inv_closed goal k X j s :
  search_inv goal k [] X [] -> reach j s -> s ∈ X.
Proof.
  intros [Hw Hl Hd Hp Hs Hg Hk0]. induction 1 as [|j s s' Hr IH He].
  - eapply Hl; [constructor | done].
  - destruct (Hd s IH) with (s' := s') as [?|Hnil]; [|done|done|].
    + intros Hnil. by apply elem_of_nil in Hnil.
    + by apply elem_of_nil in Hnil.
Qed.

(* ... and the goal is none of them *)
Lemma search_inv_empty goal k X j :
  search_inv goal k [] X [] -> ~ reach j goal.
Proof.
  intros Hinv Hr. pose proof (search_inv_closed _ _ _ _ _ Hinv Hr) as Hin.
  apply (inv_goal _ _ _ _ _ _ _ Hinv) in Hin. by apply elem_of_nil in Hin.
Qed.

(* while the goal waits, the level stays below any path to it *)
Lemma search_inv_level_le goal k W X P j :
  search_inv goal k W X P -> reach j goal -> k <= j.
Proof.
  intros [Hw Hl Hd Hp Hs Hg Hk0] Hr.
  destruct (decide (k <= j)) as [?|Hlt]; [done|].
  assert (goal ∈ X) as Hin by (eapply Hl; [done | lia]).
  apply Hg, list_elem_of_fmap in Hin as ([s c] & -> & Hin). simpl in *.
  destruct (Hw _ _ Hin) as (_ & [_ Hmin] & Hc). apply Hmin in Hr. lia.
Qed.

Lemma search_inv_seen_within goal k W X P j s :
  search_inv goal k W X P -> reach j goal -> s ∈ X ->
  exists c, shortest c s /\ c <= j + 1.
Proof.
  intros Hinv Hr Hin. pose proof (search_inv_level_le _ _ _ _ _ _ Hinv Hr).
  destruct (inv_seen _ _ _ _ _ _ _ Hinv s Hin) as (c & ? & ?).
  exists c. split; [done | lia].
Qed.

End SearchFacts.

(* a set whose members all occur in a list is no larger than the list *)
Lemma size_le_length `{Countable A} (X : gset A) (U : list A) :
  (forall x, x ∈ X -> x ∈ U) -> (size X <= length U)%nat.
Proof.
  intros Hsub. unfold size, set_size. simpl.
  apply submseteq_length, NoDup_submseteq; [apply NoDup_elements|].
  intros x Hx. apply Hsub. by apply elem_of_elements.
Qed.

(** ** minPresses: the BFS over counter vectors *)

Lemma press_length s btn s' : press s btn = Ok s' -> length s' = length s.
Proof.
  revert s. induction btn as [|idx btn IH]; intros s; simpl.
  - by intros [= ->].
  - case_match; [|done]. intros Hp. apply IH in Hp.
    by rewrite length_alter in Hp.
Qed.

Lemma press_defined s btn :
  Forall (fun idx => 0 <= idx < Z.of_nat (length s)) btn ->
  exists s', press s btn = Ok s'.
Proof.
  revert s. induction btn as [|idx btn IH]; intros s Hwf; simpl.
  - by eexists.
  - apply Forall_cons in Hwf as [Hidx Hwf].
    replace ((0 <=? idx) && (idx <? Z.of_nat (length s))) with true by lia.
    apply IH. by rewrite length_alter.
Qed.

Lemma zeros_length n : length (zeros n) = n.
Proof. apply length_replicate. Qed.

Section MinPresses.
Variable m : Machine.

Local Abbreviation start := (zeros (length (target m))).
Local Abbreviation reach := (reach (press_edge m) start).
Local Abbreviation shortest := (shortest (press_edge m) start).

Lemma reach_length k s : reach k s -> length s = length (target m).
Proof.
  induction 1 as [|k s s' _ IH (btn & _ & Hp)]; [apply zeros_length|].
  apply press_length in Hp. congruence.
Qed.

Lemma press_seq_snoc s bs b :
  press_seq m s (bs ++ [b]) =
  s' ← press_seq m s bs; btn ← buttons m !! b; press_ok s' btn.
Proof.
  revert s. induction bs as [|b0 bs IH]; intros s; simpl.
  - destruct (buttons m !! b) as [btn|]; [|done]. simpl.
    unfold press_ok. by destruct (press s btn).
  - destruct (buttons m !! b0) as [btn|]; [|done].
    destruct (press s btn); [apply IH | done..].
Qed.

(* paths of the graph are sequences of presses *)
Lemma reach_press_seq k s :
  reach k s <->
  exists bs, press_seq m start bs = Some s /\ Z.of_nat (length bs) = k.
Proof.
  split.
  - induction 1 as [|k s s' _ (bs & Hbs & <-) (btn & Hin & Hp)].
    + by exists [].
    + apply list_elem_of_lookup in Hin as [b Hb]. exists (bs ++ [b]).
      rewrite press_seq_snoc, Hbs, length_app. simpl. rewrite Hb. simpl.
      unfold press_ok. rewrite Hp. split; [done | lia].
  - intros (bs & Hbs & <-). revert s Hbs.
    induction bs as [|b bs IH] using rev_ind; intros s.
    + intros [= <-]. constructor.
    + rewrite press_seq_snoc, length_app. simpl.
      destruct (press_seq m start bs) as [s0|]; [|done]. simpl.
      destruct (buttons m !! b) as [btn|] eqn:Hb; [|done]. simpl.
      unfold press_ok. destruct (press s0 btn) as [s1| | |] eqn:Hp; [|done..].
      intros [= <-].
      replace (Z.of_nat (length bs + 1)) with (Z.of_nat (length bs) + 1) by lia.
      econstructor; [by apply IH|].
      exists btn. split; [|done]. by eapply list_elem_of_lookup_2.
Qed.

Lemma shortest_min_presses c :
  shortest c (target m) -> min_presses m (Z.to_nat c).
Proof.
  intros [Hr Hmin]. split.
  - apply reach_press_seq in Hr as (bs & Hbs & <-). exists bs.
    split; [done | lia].
  - intros bs Hbs.
    assert (reach (Z.of_nat (length bs)) (target m)) as Hr'
      by (apply reach_press_seq; by exists bs).
    apply Hmin in Hr'. lia.
Qed.

Lemma successors_edge s s' : press_edge m s s' <-> s' ∈ successors m s.
Proof.
  unfold successors, press_edge, press_ok. rewrite list_elem_of_omap.
  split; intros (btn & Hin & Hp); exists btn; split; try done.
  - by rewrite Hp.
  - by destruct (press s btn) as [s1| | |]; simplify_eq.
Qed.

Lemma states_within_reach k s n :
  reach k s -> k <= Z.of_nat n -> s ∈ states_within m n.
Proof.
  intros Hr. revert n. induction Hr as [|k s s' Hr IH He]; intros n Hk.
  - induction n as [|n IHn]; simpl; [by left|].
    apply elem_of_app. left. apply IHn. lia.
  - destruct n as [|n]; [apply reach_nonneg in Hr; lia|]. simpl.
    apply elem_of_app. right. apply list_elem_of_In, in_flat_map.
    exists s. split; apply list_elem_of_In; [apply IH; lia|].
    by apply successors_edge.
Qed.

Hypothesis Hwf : wf_machine m.

(* the loop over the buttons, from the buttons [rest] on *)
Lemma minPresses_buttons_inv k rest s q dist :
  (forall btn, btn ∈ rest -> btn ∈ buttons m) ->
  length s = length (target m) ->
  minPresses_inv m k q dist (omap (press_ok s) rest) ->
  exists q' dist',
    minPresses_buttons rest s k q dist = Ok (q', dist') /\
    minPresses_inv m k q' dist' [] /\
    (length q' + size (dom dist) = length q + size (dom dist'))%nat.
Proof.
  intros Hrest Hlen. revert q dist.
  induction rest as [|btn rest IH]; intros q dist Hinv; simpl.
  { by exists q, dist. }
  destruct (press_defined s btn) as [s' Hp].
  { rewrite Hlen. eapply Forall_forall in Hwf; [done|]. apply Hrest. by left. }
  simpl in Hinv. unfold press_ok in Hinv at 1. rewrite Hp in Hinv.
  rewrite Hp. simpl. destruct Hinv as [Hs Hd Hq].
  assert (forall btn0, btn0 ∈ rest -> btn0 ∈ buttons m) as Hrest'
    by (intros ? ?; apply Hrest; by right).
  destruct (dist !! s') as [d|] eqn:Hlk.
  - (* seen before: its distance is not above k + 1 *)
    assert ((k + 1 <? d) = false) as ->.
    { apply Z.ltb_ge. apply Hd in Hlk as [_ Hmin]. apply Hmin.
      apply (inv_pending _ _ _ _ _ _ _ Hs). by left. }
    apply IH; [done|]. split; [|done..].
    eapply search_inv_skip; [done|]. apply elem_of_dom. by eexists.
  - assert (s' ∉ dom dist) as Hnin by by apply not_elem_of_dom.
    assert (search_inv (press_edge m) start (target m) k
              (q ++ [(s', k + 1)]) (dom (<[s' := k + 1]> dist))
              (omap (press_ok s) rest)) as Hs'.
    { rewrite dom_insert_L. eapply search_inv_push; [done..|].
      intros x. rewrite elem_of_app, list_elem_of_singleton. tauto. }
    destruct (IH Hrest' (q ++ [(s', k + 1)]) (<[s' := k + 1]> dist))
      as (q' & dist' & Hrun & Hinv' & Hsz).
    { split; [done| |].
      - intros s0 d. rewrite lookup_insert. case_decide as Heq.
        + intros [= <-]. subst s0.
          eapply (inv_work _ _ _ _ _ _ _ Hs'), elem_of_app. right. by left.
        + apply Hd.
      - apply StronglySorted_app_2; [|done | repeat constructor].
        intros [s1 c1] [s2 c2] Hin1 [= -> ->]%list_elem_of_singleton. simpl.
        destruct (inv_work _ _ _ _ _ _ _ Hs s1 c1 Hin1) as (_ & _ & ?). lia. }
    exists q', dist'. split; [done|]. split; [done|].
    rewrite dom_insert_L, size_union, size_singleton, length_app in Hsz
      by set_solver.
    simpl in Hsz. lia.
Qed.

(* the BFS loop: a target that some [j] presses reach is found, with the
   least number of presses, once the fuel exceeds the potential [n] *)
Lemma minPresses_loop_shortest j U fuel :
  reach j (target m) ->
  (forall c s, reach c s -> c <= j + 1 -> s ∈ U) ->
  forall n k q dist,
    minPresses_inv m k q dist [] ->
    (length q + length U = size (dom dist) + n)%nat ->
    (n < fuel)%nat ->
    exists c, minPresses_loop fuel m q dist = Ok c /\ shortest c (target m).
Proof.
  intros Hj HU. induction fuel as [|fuel IH]; intros n k q dist Hinv Hn Hf;
    [lia|].
  destruct Hinv as [Hs Hd Hq].
  assert (size (dom dist) <= length U)%nat as HsU.
  { apply size_le_length. intros s Hin.
    destruct (search_inv_seen_within _ _ _ _ _ _ _ _ _ Hs Hj Hin)
      as (c & [Hr _] & ?). by eapply HU. }
  destruct q as [|[s c] q]; simpl.
  { by destruct (search_inv_empty _ _ _ _ _ _ Hs Hj). }
  destruct (inv_work _ _ _ _ _ _ _ Hs s c) as (Hin & [Hr Hmin] & _); [by left|].
  case_decide as Hgoal; [subst s; by exists c|].
  apply StronglySorted_inv in Hq as [Hq Hhd].
  assert (search_inv (press_edge m) start (target m) c
            ((s, c) :: q) (dom dist) []) as Hs1.
  { eapply search_inv_least; [done | by left|].
    intros s1 c1 [[= -> ->]|Hin1]%elem_of_cons; [lia|].
    eapply Forall_forall in Hhd; [|done]. done. }
  destruct (minPresses_buttons_inv c (buttons m) s q dist)
    as (q' & dist' & -> & Hinv' & Hsz); [done | by eapply reach_length|..].
  { split; [|done..]. eapply search_inv_pop; [done| | done |].
    - intros x. by rewrite elem_of_cons.
    - apply successors_edge. }
  simpl in *. eapply (IH (n - 1)%nat); [done | lia | lia].
Qed.

End MinPresses.

(* every target that presses can reach is found by minPresses, with the
   least number of presses *)
Lemma minPresses_finds_shortest m bs :
  wf_machine m -> reaches_target m bs ->
  exists d, min_presses m d /\
    forall fuel, (length (states_within m (S (length bs))) < fuel)%nat ->
      minPresses fuel m = Ok (Z.of_nat d).
Proof.
  intros Hwf Hbs.
  assert (reach (press_edge m) (zeros (length (target m)))
            (Z.of_nat (length bs)) (target m)) as Hr
    by (apply reach_press_seq; by exists bs).
  set (U := states_within m (S (length bs))).
  assert (forall fuel, (length U < fuel)%nat ->
            exists c, minPresses fuel m = Ok c /\
              shortest (press_edge m) (zeros (length (target m))) c (target m))
    as Hrun.
  { intros fuel Hf. unfold minPresses.
    eapply (minPresses_loop_shortest m Hwf _ U fuel Hr) with (n := length U)
      (k := 0); [| |simpl|done].
    - intros c s Hc Hle. eapply states_within_reach; [done | lia].
    - split.
      + rewrite dom_insert_L, dom_empty_L, union_empty_r_L.
        apply search_inv_init.
      + intros s d. rewrite lookup_insert. case_decide; [|done].
        intros [= <-]. subst s. apply shortest_start.
      + repeat constructor.
    - rewrite dom_insert_L, dom_empty_L, union_empty_r_L, size_singleton. lia. }
  destruct (Hrun (S (length U))) as (c & _ & Hc); [lia|].
  exists (Z.to_nat c). split; [by apply shortest_min_presses|].
  intros fuel Hf. destruct (Hrun fuel Hf) as (c' & -> & Hc').
  rewrite (shortest_unique _ _ _ _ _ Hc Hc'). f_equal.
  destruct Hc' as [Hc' _]. apply reach_nonneg in Hc'. lia.
Qed.

(** more fuel does not change an answer *)
Lemma minPresses_loop_fuel m fuel fuel' q dist v :
  minPresses_loop fuel m q dist = Ok v -> (fuel <= fuel')%nat ->
  minPresses_loop fuel' m q dist = Ok v.
Proof.
  revert fuel' q dist. induction fuel as [|fuel IH]; intros fuel' q dist; [done|].
  destruct fuel' as [|fuel']; [lia|]. simpl.
  destruct q as [|[s c] q]; [done|]. case_decide; [done|].
  destruct (minPresses_buttons _ _ _ _ _) as [[q' dist']| | |]; simpl; [|done..].
  intros Hrun Hle. apply IH; [done | lia].
Qed.

Lemma minPresses_fuel m fuel fuel' v :
  minPresses fuel m = Ok v -> (fuel <= fuel')%nat -> minPresses fuel' m = Ok v.
Proof. apply minPresses_loop_fuel. Qed.

Lemma total_presses_fuel ms fuel fuel' total r :
  total_presses fuel ms total = Ok r -> (fuel <= fuel')%nat ->
  total_presses fuel' ms total = Ok r.
Proof.
  revert total r. induction ms as [|m ms IH]; intros total r; simpl; [done|].
  destruct (minPresses fuel m) as [v| | |] eqn:Hv; simpl; [|done..].
  intros Hrun Hle. rewrite (minPresses_fuel _ _ _ _ Hv Hle). simpl.
  destruct (v =? -1).
  - destruct (total_presses fuel ms total) as [r'| | |] eqn:Hr'; [|done..].
    by rewrite (IH _ _ Hr' Hle).
  - by apply IH.
Qed.

(** ** The example of the puzzle statement in the button-press program *)

Lemma example_lines_parse : parse_machines example_lines = Ok example_machines.
Proof. vm_compute. reflexivity. Qed.

Lemma example_minima fuel :
  (Z.to_nat 20000 <= fuel)%nat ->
  rmap_list (minPresses fuel) example_machines = Ok [10; 12; 11].
Proof.
  intros Hf. unfold example_machines. cbn [rmap_list].
  rewrite (minPresses_fuel _ (Z.to_nat 20000) fuel 10); [|by vm_compute | done].
  rewrite (minPresses_fuel _ (Z.to_nat 20000) fuel 12); [|by vm_compute | done].
  rewrite (minPresses_fuel _ (Z.to_nat 20000) fuel 11); [|by vm_compute | done].
  reflexivity.
Qed.

Lemma example_total fuel :
  (Z.to_nat 20000 <= fuel)%nat ->
  total_presses fuel example_machines 0 = Ok ([], 33).
Proof.
  intros Hf. eapply total_presses_fuel; [|done]. by vm_compute.
Qed.

(** C1, as far as it holds.  For every machine whose buttons list only
    indices of counters and whose target some sequence of presses reaches
    from the all-zero counters, minPresses returns (given enough fuel for
    its loop) the length of a shortest such sequence.  On the example input
    of the puzzle statement the three minima are 10, 12 and 11 and the
    program prints their sum, 33. *)
Theorem minPresses_shortest_example_33 :
  (forall m bs, wf_machine m -> reaches_target m bs ->
     exists d fuel0, min_presses m d /\
       forall fuel, (fuel0 <= fuel)%nat -> minPresses fuel m = Ok (Z.of_nat d))
  /\ (forall fuel, (Z.to_nat 20000 <= fuel)%nat ->
        parse_machines example_lines = Ok example_machines /\
        rmap_list (minPresses fuel) example_machines = Ok [10; 12; 11] /\
        main_buttons fuel ["solution"; "input.md"]%string
          (one_file "input.md" example_lines)
        = Ok {| out := [OStr "Fewest button presses: "; OInt 33; ONl];
                err := []; status := 0 |}).
Proof.
  split.
  - intros m bs Hwf Hbs.
    destruct (minPresses_finds_shortest m bs Hwf Hbs) as (d & Hd & Hrun).
    exists d, (S (length (states_within m (S (length bs))))).
    split; [done|]. intros fuel Hf. apply Hrun. lia.
  - intros fuel Hf. split; [apply example_lines_parse|].
    split; [by apply example_minima|].
    unfold main_buttons, one_file. simpl String.eqb.
    cbv iota beta. rewrite example_lines_parse. cbn [rbind].
    by rewrite (example_total fuel Hf).
Qed.

(* a concrete instance: the first machine of the example and ten presses
   that reach its target *)
Lemma minPresses_shortest_example_33_witness :
  exists d fuel0,
    min_presses (List.hd stuck_machine example_machines) d /\
    forall fuel, (fuel0 <= fuel)%nat ->
      minPresses fuel (List.hd stuck_machine example_machines) = Ok (Z.of_nat d).
Proof.
  apply (proj1 minPresses_shortest_example_33 _
           [0; 1; 1; 1; 3; 3; 3; 4; 5; 5]%nat).
  - unfold wf_machine. simpl. repeat constructor; lia.
  - reflexivity.
Defined.

(** C1 as stated fails: on the example input the per-machine results of
    minPresses never sum to 7. *)
Lemma example_total_not_7 :
  ~ exists fuel printed,
      total_presses fuel example_machines 0 = Ok (printed, 7).
Proof.
  intros (fuel & printed & Hrun).
  pose proof (total_presses_fuel _ _ (fuel `max` Z.to_nat 20000) _ _ Hrun) as H1.
  rewrite example_total in H1 by lia. specialize (H1 ltac:(lia)). congruence.
Qed.

(** ** A machine with an unreachable target *)

Lemma stuck_loop fuel k dist :
  0 <= k ->
  (forall j, k < j -> dist !! [j; 0] = None) ->
  minPresses_loop fuel stuck_machine [([k; 0], k)] dist = OutOfFuel.
Proof.
  revert k dist. induction fuel as [|fuel IH]; intros k dist Hk Hdist; [done|].
  simpl. case_decide as Heq; [simplify_eq; lia|].
  replace ((0 <=? 0) && (0 <? Z.of_nat 2)) with true by done. simpl.
  replace (Z.succ k) with (k + 1) by lia.
  rewrite Hdist by lia. simpl. apply IH; [lia|].
  intros j Hj. rewrite lookup_insert_ne; [apply Hdist; lia|].
  intros [=]. lia.
Qed.

Lemma stuck_second_counter bs s s' :
  s !! 1%nat = Some 0 -> press_seq stuck_machine s bs = Some s' ->
  s' !! 1%nat = Some 0.
Proof.
  revert s. induction bs as [|b bs IH]; intros s Hs; simpl.
  { by intros [= <-]. }
  destruct b as [|b]; [|by rewrite lookup_cons_ne_0, lookup_nil].
  simpl. destruct (0 <? Z.of_nat (length s)); [|done].
  apply IH. by rewrite list_lookup_alter_ne.
Qed.

(** C2 at the machine with the button (0) and the target {0,1}.  No
    sequence of presses reaches the target, yet whatever the fuel, the loop
    of minPresses has not returned: the value -1 is never produced, and the
    program that reads this machine does not print its result. *)
Theorem minPresses_unreachable_never_returns :
  (forall bs, ~ reaches_target stuck_machine bs) /\
  parse_machines ["[.#] (0) {0,1}"]%string = Ok [stuck_machine] /\
  forall fuel,
    minPresses fuel stuck_machine = OutOfFuel /\
    main_buttons fuel ["solution"; "input.txt"]%string
      (one_file "input.txt" ["[.#] (0) {0,1}"]%string) = OutOfFuel.
Proof.
  split.
  { intros bs Hbs. by apply stuck_second_counter in Hbs. }
  split; [by vm_compute|]. intros fuel.
  assert (minPresses fuel stuck_machine = OutOfFuel) as Hstuck.
  { unfold minPresses. apply stuck_loop; [done|].
    intros j Hj. rewrite lookup_insert_ne; [done|]. intros [=]. lia. }
  split; [done|].
  unfold main_buttons, one_file. simpl String.eqb. cbv iota beta.
  replace (parse_machines ["[.#] (0) {0,1}"%string]) with (Ok [stuck_machine])
    by by vm_compute.
  cbn [rbind total_presses]. by rewrite Hstuck.
Qed.

(** ** parseButton and parseTarget *)

Lemma parse_loops_equal s res tmp :
  parseButton_loop s res tmp = parseTarget_loop s res tmp.
Proof.
  revert res tmp. induction s as [|c s IH]; intros res tmp; simpl; [done|].
  destruct (isdigit c); [apply IH|].
  destruct (negb (string_empty tmp)); [|apply IH].
  destruct (stoi tmp); simpl; [apply IH | done..].
Qed.

Lemma isdigit_not_space c : isdigit c = true -> isspace c = false.
Proof. unfold isdigit, isspace. lia. Qed.

Lemma isdigit_value c : isdigit c = true -> 0 <= digit_value c <= 9.
Proof. unfold isdigit, digit_value. lia. Qed.

Lemma span_all_digits s : all_digits s = true -> span_digits s = (s, EmptyString).
Proof.
  induction s as [|c s IH]; simpl; [done|].
  intros [-> Hs]%andb_prop. by rewrite IH.
Qed.

Lemma decimal_from_nonneg acc s :
  all_digits s = true -> 0 <= acc -> 0 <= decimal_from acc s.
Proof.
  revert acc. induction s as [|c s IH]; intros acc; simpl; [done|].
  intros [Hc Hs]%andb_prop Hacc. apply IH; [done|].
  apply isdigit_value in Hc. lia.
Qed.

(* stoi on a run of digits *)
Lemma stoi_digits c s :
  all_digits (String c s) = true ->
  stoi (String c s) =
  if decimal (String c s) <=? INT_MAX then Ok (decimal (String c s))
  else Throws out_of_range.
Proof.
  intros Hd. pose proof Hd as [Hc Hs]%andb_prop. unfold stoi.
  cbn [skip_space]. rewrite (isdigit_not_space _ Hc).
  assert (match String c s with
          | String "-" r => (true, r)
          | String "+" r => (false, r)
          | _ => (false, String c s)
          end = (false, String c s)) as ->.
  { revert Hc. destruct c as [[] [] [] [] [] [] [] []]; done. }
  rewrite (span_all_digits _ Hd).
  pose proof (decimal_from_nonneg 0 _ Hd ltac:(done)) as Hnn.
  fold (decimal (String c s)) in Hnn.
  replace (INT_MIN <=? decimal (String c s)) with true; [done|].
  unfold INT_MIN. lia.
Qed.

Lemma all_digits_snoc s c :
  all_digits s = true -> isdigit c = true -> all_digits (string_snoc s c) = true.
Proof.
  intros Hs Hc. unfold string_snoc. induction s as [|a s IH].
  - simpl. by rewrite Hc.
  - change (isdigit a && all_digits (s ++ String c "")%string = true).
    simpl in Hs. apply andb_prop in Hs as [-> Hs]. by apply IH.
Qed.

Lemma string_snoc_app s c r :
  (string_snoc s c ++ r = s ++ String c r)%string.
Proof.
  unfold string_snoc. induction s as [|a s IH]; [done|].
  change (String a ((s ++ String c "") ++ r) = String a (s ++ String c r))%string.
  f_equal. apply IH.
Qed.

Lemma string_app_empty_r s : (s ++ "")%string = s.
Proof.
  induction s as [|a s IH]; [done|].
  change (String a (s ++ "") = String a s)%string. by f_equal.
Qed.

(* a run of digits followed by no digit is a maximal run *)
Lemma digit_runs_run c tmp rest :
  all_digits (String c tmp) = true ->
  match rest with String a _ => isdigit a = false | EmptyString => True end ->
  digit_runs (String c tmp ++ rest) = String c tmp :: digit_runs rest.
Proof.
  revert c. induction tmp as [|c' tmp IH]; intros c Hd Hrest.
  - apply andb_prop in Hd as [Hc _].
    change (String c "" ++ rest)%string with (String c rest).
    cbn [digit_runs]. rewrite Hc.
    destruct rest as [|a rest]; [done|]. by rewrite Hrest.
  - pose proof Hd as [Hc Hd']%andb_prop. pose proof Hd' as [Hc' _]%andb_prop.
    change (String c (String c' tmp) ++ rest)%string
      with (String c (String c' tmp ++ rest)).
    cbn [digit_runs]. rewrite Hc.
    change (String c' tmp ++ rest)%string with (String c' (tmp ++ rest)) at 1.
    cbv iota. rewrite Hc'.
    change (String c' (tmp ++ rest)) with (String c' tmp ++ rest)%string.
    by rewrite (IH c' Hd' Hrest).
Qed.

Lemma digit_runs_all_digits s :
  Forall (fun r => all_digits r = true /\ r ≠ EmptyString) (digit_runs s).
Proof.
  induction s as [|c s IH]; simpl; [constructor|].
  destruct (isdigit c) eqn:Hc; [|done].
  destruct s as [|c' s]; [repeat constructor; simpl; by rewrite ?Hc|].
  destruct (isdigit c') eqn:Hc'.
  - destruct (digit_runs (String c' s)) as [|r rs].
    + repeat constructor; simpl; by rewrite ?Hc.
    + apply Forall_cons in IH as [[Hr _] Hrs]. constructor; [|done].
      split; [|done]. simpl. by rewrite Hc, Hr.
  - constructor; [|done]. split; [|done]. simpl. by rewrite Hc.
Qed.

Lemma rmap_stoi_runs rs :
  Forall (fun r => all_digits r = true /\ r ≠ EmptyString) rs ->
  rmap_list stoi rs =
  if forallb (fun r => decimal r <=? INT_MAX) rs then Ok (map decimal rs)
  else Throws out_of_range.
Proof.
  induction 1 as [|r rs [Hr Hne] _ IH]; simpl; [done|].
  destruct r as [|c r]; [done|]. rewrite (stoi_digits _ _ Hr).
  destruct (decimal (String c r) <=? INT_MAX); simpl; [|done].
  rewrite IH. by destruct (forallb _ rs).
Qed.

(* the loop of parseButton, with the run in progress [tmp] *)
Lemma parseButton_loop_runs s res tmp :
  all_digits tmp = true ->
  parseButton_loop s res tmp =
  (rs <~ rmap_list stoi (digit_runs (tmp ++ s)) ;; Ok (res ++ rs)).
Proof.
  revert res tmp. induction s as [|c s IH]; intros res tmp Htmp.
  - rewrite string_app_empty_r. simpl. destruct tmp as [|a tmp]; simpl negb.
    + simpl. by rewrite app_nil_r.
    + cbv iota. rewrite <-(string_app_empty_r (String a tmp)) at 2.
      rewrite (digit_runs_run a tmp EmptyString Htmp I). simpl rmap_list.
      by destruct (stoi (String a tmp)).
  - cbn [parseButton_loop]. destruct (isdigit c) eqn:Hc.
    + rewrite IH by by apply all_digits_snoc. by rewrite string_snoc_app.
    + destruct tmp as [|a tmp]; simpl negb; cbv iota.
      * rewrite IH by done. simpl. by rewrite Hc.
      * rewrite (digit_runs_run a tmp (String c s) Htmp Hc). simpl rmap_list.
        destruct (stoi (String a tmp)) as [v| | |]; simpl; [|done..].
        rewrite IH by done. change ("" ++ s)%string with s.
        cbn [digit_runs]. rewrite Hc.
        destruct (rmap_list stoi (digit_runs s)); simpl; [|done..].
        by rewrite <-app_assoc.
Qed.

(** C10, as far as it holds.  parseButton and parseTarget are equal on every
    string.  Both return the maximal runs of decimal digits of the string,
    each converted to an integer, left to right, when every run denotes a
    number up to INT_MAX; otherwise both throw std::out_of_range. *)
Theorem parseButton_parseTarget_digit_runs s :
  parseButton s = parseTarget s /\ parseButton s = digit_run_values s.
Proof.
  split; [apply parse_loops_equal|].
  unfold parseButton, digit_run_values.
  rewrite parseButton_loop_runs by done. simpl.
  rewrite rmap_stoi_runs by apply digit_runs_all_digits.
  by destruct (forallb _ _).
Qed.

(** C10 as stated fails: on a run of eleven nines neither function returns
    a list. *)
Lemma parseButton_overflow :
  digit_runs "(99999999999)" = ["99999999999"%string] /\
  parseButton "(99999999999)" = Throws out_of_range /\
  parseTarget "(99999999999)" = Throws out_of_range.
Proof. by vm_compute. Qed.

(** ** One press in the Day 10 solvers *)

Section ApplyButton.
Variable targets : list Z.

Local Abbreviation n := (Z.of_nat (length targets)).

(* an entry that names no counter is passed over *)
Lemma apply_button_skip s idx btn :
  n <= idx ->
  apply_button targets s (idx :: btn) = apply_button targets s btn.
Proof. intros Hge. simpl. by replace (idx <? n) with false by lia. Qed.

(* one entry that names a counter: an increment and the test against the
   target *)
Lemma apply_button_cons s idx btn r :
  apply_button targets s (idx :: btn) = Ok r ->
  effective targets idx ->
  exists v t, s !! Z.to_nat idx = Some v /\
    targets !! Z.to_nat idx = Some t /\
    if t <? v + 1 then r = None
    else apply_button targets (alter Z.succ (Z.to_nat idx) s) btn = Ok r.
Proof.
  intros Hrun [Hlo Hhi]. simpl in Hrun.
  replace (idx <? n) with true in Hrun by lia.
  replace (0 <=? idx) with true in Hrun by lia.
  rewrite list_lookup_alter_eq in Hrun.
  destruct (s !! Z.to_nat idx) as [v|] eqn:Hv; simpl in Hrun; [|done].
  destruct (targets !! Z.to_nat idx) as [t|] eqn:Ht; [|done].
  exists v, t. split; [done|]. split; [done|].
  replace (Z.succ v) with (v + 1) in Hrun by lia.
  destruct (t <? v + 1); [by simplify_eq | done].
Qed.

Lemma apply_button_inv s idx btn r :
  apply_button targets s (idx :: btn) = Ok r ->
  (n <= idx /\ apply_button targets s btn = Ok r) \/
  (effective targets idx /\
   exists v t, s !! Z.to_nat idx = Some v /\
     targets !! Z.to_nat idx = Some t /\
     if t <? v + 1 then r = None
     else apply_button targets (alter Z.succ (Z.to_nat idx) s) btn = Ok r).
Proof.
  intros Hrun. destruct (decide (n <= idx)) as [Hge|Hlt].
  - left. split; [done|]. by rewrite apply_button_skip in Hrun.
  - destruct (decide (0 <= idx)) as [Hlo|Hneg].
    + right. assert (effective targets idx) as He by (unfold effective; lia).
      split; [done|]. by apply apply_button_cons.
    + simpl in Hrun. replace (idx <? n) with true in Hrun by lia.
      by replace (0 <=? idx) with false in Hrun by lia.
Qed.

Lemma counter_sum_alter s i v :
  s !! i = Some v -> counter_sum (alter Z.succ i s) = counter_sum s + 1.
Proof.
  revert i. induction s as [|a s IH]; intros [|i] Hv; simplify_eq/=.
  - unfold counter_sum. simpl. lia.
  - specialize (IH _ Hv). unfold counter_sum in *. simpl in *. lia.
Qed.

(* a valid press: the shape of the result *)
Lemma apply_button_valid s btn s' :
  apply_button targets s btn = Ok (Some s') ->
  length s' = length s /\
  (forall j v, s !! j = Some v -> exists v', s' !! j = Some v' /\ v <= v') /\
  (forall idx v, idx ∈ btn -> effective targets idx ->
     s !! Z.to_nat idx = Some v ->
     exists v', s' !! Z.to_nat idx = Some v' /\ v + 1 <= v') /\
  counter_sum s <= counter_sum s' /\
  ((exists idx, idx ∈ btn /\ effective targets idx) -> counter_sum s + 1 <= counter_sum s') /\
  ((forall idx, idx ∈ btn -> ~ effective targets idx) -> s' = s).
Proof.
  revert s. induction btn as [|idx btn IH]; intros s Hrun.
  - simpl in Hrun. simplify_eq. split_and!; try done.
    + intros j v Hv. exists v. split; [done | lia].
    + intros idx v Hin. by apply elem_of_nil in Hin.
    + intros (idx & Hin & _). by apply elem_of_nil in Hin.
  - apply apply_button_inv in Hrun as [[Hge Hrun]|(Heff & v & t & Hv & Ht & Hrun)].
    + destruct (IH s Hrun) as (Hlen & Hmono & Hincr & Htot & Htot1 & Hsame).
      split_and!; try done.
      * intros idx0 v0 [->|Hin]%elem_of_cons He; [unfold effective in He; lia|].
        by apply Hincr.
      * intros (idx0 & [->|Hin]%elem_of_cons & He);
          [unfold effective in He; lia|].
        apply Htot1. by exists idx0.
      * intros Hno. apply Hsame. intros idx0 Hin. apply Hno. by right.
    + destruct (t <? v + 1); [done|].
      destruct (IH _ Hrun) as (Hlen & Hmono & Hincr & Htot & Htot1 & Hsame).
      rewrite length_alter in Hlen.
      pose proof (counter_sum_alter s _ v Hv) as Hta.
      assert (forall j w, s !! j = Some w ->
                exists w', alter Z.succ (Z.to_nat idx) s !! j = Some w' /\
                  w <= w' /\ (j = Z.to_nat idx -> w + 1 <= w')) as Hstep.
      { intros j w Hw. rewrite list_lookup_alter. case_decide as Heq.
        - subst j. rewrite Hw. simpl. exists (Z.succ w). split; [done | lia].
        - exists w. split; [done | lia]. }
      split_and!; try done.
      * intros j w Hw. destruct (Hstep j w Hw) as (w' & Hw' & Hle & _).
        destruct (Hmono j w' Hw') as (w'' & Hw'' & Hle'). exists w''.
        split; [done | lia].
      * intros idx0 v0 Hin He Hv0.
        destruct (Hstep _ v0 Hv0) as (w' & Hw' & Hle & Hlt).
        apply elem_of_cons in Hin as [->|Hin].
        -- destruct (Hmono _ w' Hw') as (w'' & Hw'' & Hle'). exists w''.
           split; [done|]. specialize (Hlt eq_refl). lia.
        -- destruct (Hincr idx0 w' Hin He Hw') as (w'' & Hw'' & Hle').
           exists w''. split; [done | lia].
      * lia.
      * intros _. lia.
      * intros Hno. destruct (Hno idx); [by left | done].
Qed.

Lemma in_bounds_length s : in_bounds targets s -> length s = length targets.
Proof. apply Forall2_length. Qed.

Lemma in_bounds_zeros : in_bounds targets (zeros (length targets)).
Proof.
  unfold in_bounds, zeros. induction targets as [|t ts IH]; simpl;
    constructor; [lia | done].
Qed.

(* the pruning keeps every counter within its bounds *)
Lemma apply_button_bounds s btn s' :
  in_bounds targets s ->
  apply_button targets s btn = Ok (Some s') ->
  in_bounds targets s'.
Proof.
  revert s. induction btn as [|idx btn IH]; intros s Hb Hrun.
  - simpl in Hrun. by simplify_eq.
  - apply apply_button_inv in Hrun as [[Hge Hrun]|(Heff & v & t & Hv & Ht & Hrun)];
      [by eapply IH|].
    destruct (t <? v + 1) eqn:Hcmp; [done|]. eapply IH; [|done].
    apply Forall2_alter_l; [done|]. intros x y Hx Hy Hxy. simplify_eq. lia.
Qed.

(* without a negative index a press is defined *)
Lemma apply_button_defined s btn :
  Forall (fun idx => 0 <= idx) btn -> length s = length targets ->
  exists r, apply_button targets s btn = Ok r.
Proof.
  revert s. induction btn as [|idx btn IH]; intros s Hwf Hlen; simpl.
  - by eexists.
  - apply Forall_cons in Hwf as [Hidx Hwf].
    destruct (idx <? n) eqn:Hlt; [|by apply IH].
    replace (0 <=? idx) with true by lia. rewrite list_lookup_alter_eq.
    destruct (lookup_lt_is_Some_2 s (Z.to_nat idx)) as [v ->]; [lia|].
    destruct (lookup_lt_is_Some_2 targets (Z.to_nat idx)) as [t ->]; [lia|].
    simpl. destruct (t <? Z.succ v); [by eexists|].
    apply IH; [done|]. by rewrite length_alter.
Qed.

(* a press is pruned when a counter it names has reached its target *)
Lemma apply_button_pruned s btn idx v t :
  Forall (fun idx => 0 <= idx) btn -> length s = length targets ->
  idx ∈ btn -> effective targets idx ->
  s !! Z.to_nat idx = Some v -> targets !! Z.to_nat idx = Some t -> t <= v ->
  apply_button targets s btn = Ok None.
Proof.
  intros Hwf Hlen Hin Heff. revert s v Hlen.
  induction btn as [|idx0 btn IH]; intros s v Hlen Hv Ht Hle;
    [by apply elem_of_nil in Hin|].
  apply Forall_cons in Hwf as [Hidx0 Hwf].
  destruct (apply_button_defined s (idx0 :: btn)) as [r Hrun];
    [by constructor | done|].
  rewrite Hrun. f_equal.
  apply apply_button_inv in Hrun as [[Hge Hrun]|(Heff0 & v0 & t0 & Hv0 & Ht0 & Hrun)].
  - apply elem_of_cons in Hin as [->|Hin]; [unfold effective in Heff; lia|].
    rewrite (IH Hwf Hin s v) in Hrun by done. by simplify_eq.
  - destruct (t0 <? v0 + 1) eqn:Hcmp; [done|].
    apply elem_of_cons in Hin as [->|Hin]; [simplify_eq; lia|].
    destruct (decide (Z.to_nat idx0 = Z.to_nat idx)) as [Heq|Hne].
    + rewrite Heq in *. simplify_eq. lia.
    + rewrite (IH Hwf Hin _ v) in Hrun; [by simplify_eq | | | done..].
      * by rewrite length_alter.
      * by rewrite list_lookup_alter_ne.
Qed.

Lemma valid_press_edge btns s s' :
  button_edge btns targets s s' <-> s' ∈ omap (valid_press targets s) btns.
Proof.
  unfold button_edge, valid_press. rewrite list_elem_of_omap.
  split; intros (btn & Hin & Hp); exists btn; split; try done.
  - by rewrite Hp.
  - destruct (apply_button targets s btn) as [[s1|]| | |]; by simplify_eq.
Qed.

Lemma in_bounds_box s : in_bounds targets s -> s ∈ box targets.
Proof.
  unfold in_bounds. induction 1 as [|v t s ts Hv _ IH]; simpl; [by left|].
  apply list_elem_of_In, in_flat_map. exists v.
  split; apply list_elem_of_In.
  - apply elem_of_seqZ. lia.
  - apply list_elem_of_fmap. by exists s.
Qed.

Lemma in_bounds_sum s cap :
  in_bounds targets s -> 0 <= cap -> Forall (fun t => t <= cap) targets ->
  counter_sum s <= cap * n.
Proof.
  unfold in_bounds. intros Hb Hcap Ht. induction Hb as [|v t s ts Hv _ IH].
  - simpl. lia.
  - apply Forall_cons in Ht as [Ht Hts]. specialize (IH Hts).
    unfold counter_sum in *. simpl. rewrite Nat2Z.inj_succ. lia.
Qed.

End ApplyButton.

(** ** The priority queue *)

Lemma pq_ltb_cost a b : pq_ltb a b = true -> pq_cost a <= pq_cost b.
Proof. destruct a as [[c1 s1] p1], b as [[c2 s2] p2]. unfold pq_cost. simpl. lia. Qed.

Lemma pq_ltb_cost_false a b : pq_ltb a b = false -> pq_cost b <= pq_cost a.
Proof. destruct a as [[c1 s1] p1], b as [[c2 s2] p2]. unfold pq_cost. simpl. lia. Qed.

Lemma pq_least_elem x l : pq_least x l ∈ x :: l.
Proof.
  revert x. induction l as [|y l IH]; intros x; simpl; [by left|].
  specialize (IH (if pq_ltb y x then y else x)).
  apply elem_of_cons in IH as [->|Hin].
  - destruct (pq_ltb y x); [right; by left | by left].
  - by do 2 right.
Qed.

Lemma pq_least_le x l y : y ∈ x :: l -> pq_cost (pq_least x l) <= pq_cost y.
Proof.
  revert x y. induction l as [|z l IH]; intros x y; simpl.
  - by intros ->%list_elem_of_singleton.
  - intros Hin. destruct (pq_ltb z x) eqn:Hlt.
    + apply pq_ltb_cost in Hlt.
      apply elem_of_cons in Hin as [->|Hin]; [|by apply IH].
      etrans; [apply (IH z z); by left | done].
    + apply pq_ltb_cost_false in Hlt.
      apply elem_of_cons in Hin as [->|[->|Hin]%elem_of_cons];
        [apply IH; by left | | apply IH; by right].
      etrans; [apply (IH x x); by left | done].
Qed.

Lemma pq_remove_elem t l :
  t ∈ l ->
  (forall x, x ∈ l <-> x = t \/ x ∈ pq_remove t l) /\
  length l = S (length (pq_remove t l)).
Proof.
  induction l as [|y l IH]; [by intros ?%elem_of_nil|]. simpl.
  case_decide as Heq.
  - subst y. intros _. split; [|done]. intros x. by rewrite elem_of_cons.
  - intros [->|Hin]%elem_of_cons; [done|]. destruct (IH Hin) as [Hmem Hlen].
    split; [|simpl; lia]. intros x. rewrite !elem_of_cons, Hmem. tauto.
Qed.

Lemma pq_pop_spec pq t pq' :
  pq_pop pq = Some (t, pq') ->
  (forall x, x ∈ pq <-> x = t \/ x ∈ pq') /\
  length pq = S (length pq') /\
  (forall x, x ∈ pq -> pq_cost t <= pq_cost x).
Proof.
  destruct pq as [|x l]; [done|]. intros [= <- <-].
  destruct (pq_remove_elem (pq_least x l) (x :: l)) as [Hmem Hlen];
    [apply pq_least_elem|].
  split; [done|]. split; [done|]. apply pq_least_le.
Qed.

(** ** The states of the two searches stay within the bounds *)

Section Bounds.
Variables (btns : list (list Z)) (targets : list Z) (cap : Z).

Lemma bounded_buttons_bounds rest idx s p counts q visited q' visited' :
  in_bounds targets s ->
  bounded_config_ok targets (q, visited, 0) ->
  bounded_buttons targets cap rest idx s p counts q visited
    = Ok (q', visited') ->
  bounded_config_ok targets (q', visited', 0).
Proof.
  intros Hs. revert idx q visited.
  induction rest as [|btn rest IH]; intros idx q visited Hok; simpl.
  { by intros [= <- <-]. }
  destruct (counts !! idx) as [c|]; [|done].
  destruct (cap <=? c); [by apply IH|].
  destruct (apply_button targets s btn) as [[s'|]| | |] eqn:Hp; simpl;
    [|by apply IH|done..].
  case_decide; [by apply IH|]. apply IH.
  pose proof (apply_button_bounds _ _ _ _ Hs Hp) as Hs'.
  destruct Hok as [Hq Hv]. split; simpl in *.
  - intros s0. unfold bounded_states. simpl. rewrite fmap_app, elem_of_app.
    intros [Hin|Hin%list_elem_of_singleton]; [by apply Hq | by subst].
  - intros s0 [->%elem_of_singleton|Hin]%elem_of_union; [done | by apply Hv].
Qed.

Lemma bounded_step_bounds cfg cfg' :
  bounded_config_ok targets cfg ->
  bounded_step btns targets cap cfg = Ok (inl cfg') ->
  bounded_config_ok targets cfg'.
Proof.
  destruct cfg as [[q visited] best]. intros [Hq Hv]. simpl.
  destruct q as [|[[s p] counts] q]; [done|].
  assert (bounded_config_ok targets (q, visited, 0)) as Hok.
  { split; [|done]. intros s0 Hin. apply Hq. unfold bounded_states in *.
    simpl in *. by right. }
  case_decide.
  { intros [= <-]. by destruct Hok. }
  destruct (best <=? p).
  { intros [= <-]. by destruct Hok. }
  destruct (bounded_buttons _ _ _ _ _ _ _ _ _) as [[q' visited']| | |] eqn:Hb;
    simpl; [|done..].
  intros [= <-]. eapply bounded_buttons_bounds in Hb; [by destruct Hb | | done].
  apply Hq. unfold bounded_states. simpl. by left.
Qed.

Lemma bounded_init_ok : bounded_config_ok targets (bounded_init btns targets).
Proof.
  split; simpl.
  - intros s ->%list_elem_of_singleton. apply in_bounds_zeros.
  - intros s ->%elem_of_singleton. apply in_bounds_zeros.
Qed.

Lemma bounded_after_bounds turns cfg cfg' :
  bounded_config_ok targets cfg ->
  bounded_after turns btns targets cap cfg = Ok (Some cfg') ->
  bounded_config_ok targets cfg'.
Proof.
  revert cfg. induction turns as [|turns IH]; intros cfg Hok; simpl.
  { by intros [= <-]. }
  destruct (bounded_step btns targets cap cfg) as [[cfg1|v]| | |] eqn:Hstep;
    simpl; [|done..].
  apply IH. by eapply bounded_step_bounds.
Qed.

Lemma dijkstra_buttons_bounds rest idx s c counts pq min_cost pq' min_cost' :
  in_bounds targets s ->
  dijkstra_config_ok targets (pq, min_cost) ->
  dijkstra_buttons targets cap rest idx s c counts pq min_cost
    = Ok (pq', min_cost') ->
  dijkstra_config_ok targets (pq', min_cost').
Proof.
  intros Hs. revert idx pq min_cost.
  induction rest as [|btn rest IH]; intros idx pq min_cost Hok; simpl.
  { by intros [= <- <-]. }
  destruct (counts !! idx) as [c0|]; [|done].
  destruct (cap <=? c0); [by apply IH|].
  destruct (apply_button targets s btn) as [[s'|]| | |] eqn:Hp; simpl;
    [|by apply IH|done..].
  pose proof (apply_button_bounds _ _ _ _ Hs Hp) as Hs'.
  assert (dijkstra_config_ok targets
            ((c + 1, s', alter Z.succ idx counts) :: pq,
             <[s' := c + 1]> min_cost)) as Hok'.
  { destruct Hok as [Hq Hv]. split; simpl in *.
    - intros s0. unfold dijkstra_states. simpl.
      intros [->|Hin]%elem_of_cons; [done | by apply Hq].
    - intros s0. rewrite dom_insert_L.
      intros [->%elem_of_singleton|Hin]%elem_of_union; [done | by apply Hv]. }
  destruct (min_cost !! s') as [old|]; [|by apply IH].
  destruct (c + 1 <? old); by apply IH.
Qed.

Lemma dijkstra_step_bounds cfg cfg' :
  dijkstra_config_ok targets cfg ->
  dijkstra_step btns targets cap cfg = Ok (inl cfg') ->
  dijkstra_config_ok targets cfg'.
Proof.
  destruct cfg as [pq min_cost]. intros [Hq Hv]. simpl.
  destruct (pq_pop pq) as [[[[c s] counts] pq']|] eqn:Hpop; [|done].
  destruct (pq_pop_spec _ _ _ Hpop) as (Hmem & _ & _).
  assert (in_bounds targets s) as Hs.
  { apply Hq. unfold dijkstra_states. apply list_elem_of_fmap.
    exists (c, s, counts). split; [done|]. apply Hmem. by left. }
  assert (dijkstra_config_ok targets (pq', (map_index min_cost s).2)) as Hok.
  { split; simpl.
    - intros s0 Hin. apply Hq. unfold dijkstra_states in *.
      apply list_elem_of_fmap in Hin as (x & -> & Hin).
      apply list_elem_of_fmap. exists x. split; [done|]. apply Hmem. by right.
    - intros s0. unfold map_index. destruct (min_cost !! s); simpl; [apply Hv|].
      rewrite dom_insert_L.
      intros [->%elem_of_singleton|Hin]%elem_of_union; [done | by apply Hv]. }
  destruct (map_index min_cost s) as [known min_cost1]. simpl in Hok.
  destruct (known <? c); [by intros [= <-]|].
  case_decide; [done|].
  destruct (dijkstra_buttons _ _ _ _ _ _ _ _ _) as [[pq1 min_cost2]| | |] eqn:Hb;
    simpl; [|done..].
  intros [= <-]. by eapply dijkstra_buttons_bounds.
Qed.

Lemma dijkstra_init_ok :
  dijkstra_config_ok targets (dijkstra_init btns targets).
Proof.
  split; simpl.
  - intros s ->%list_elem_of_singleton. apply in_bounds_zeros.
  - intros s. rewrite dom_insert_L, dom_empty_L, union_empty_r_L.
    intros ->%elem_of_singleton. apply in_bounds_zeros.
Qed.

Lemma dijkstra_after_bounds turns cfg cfg' :
  dijkstra_config_ok targets cfg ->
  dijkstra_after turns btns targets cap cfg = Ok (Some cfg') ->
  dijkstra_config_ok targets cfg'.
Proof.
  revert cfg. induction turns as [|turns IH]; intros cfg Hok; simpl.
  { by intros [= <-]. }
  destruct (dijkstra_step btns targets cap cfg) as [[cfg1|v]| | |] eqn:Hstep;
    simpl; [|done..].
  apply IH. by eapply dijkstra_step_bounds.
Qed.

End Bounds.

Lemma in_bounds_nonneg targets s :
  Forall (fun t => 0 <= t) targets -> in_bounds targets s ->
  Forall2 (fun v t => 0 <= v <= t) s targets.
Proof.
  unfold in_bounds. intros Ht Hb. induction Hb as [|v t s ts Hv _ IH];
    [constructor|].
  apply Forall_cons in Ht as [Ht Hts]. constructor; [lia | by apply IH].
Qed.

(** C9, as far as it holds.  In both solvers, after any number of turns of
    the search loop, every counter vector in the queue and in the visited
    set (in the priority queue and among the keys of min_cost) has each
    counter between 0 and the larger of 0 and its target; when no target is
    negative that is 0 <= state[i] <= targets[i].  A button entry that
    names an index at or above the number of counters is passed over. *)
Theorem part2_states_within_bounds btns targets cap turns :
  (forall cfg,
     bounded_after turns btns targets cap (bounded_init btns targets)
       = Ok (Some cfg) ->
     bounded_config_ok targets cfg) /\
  (forall cfg,
     dijkstra_after turns btns targets cap (dijkstra_init btns targets)
       = Ok (Some cfg) ->
     dijkstra_config_ok targets cfg) /\
  (forall s, Forall (fun t => 0 <= t) targets -> in_bounds targets s ->
     Forall2 (fun v t => 0 <= v <= t) s targets) /\
  (forall s idx btn, Z.of_nat (length targets) <= idx ->
     apply_button targets s (idx :: btn) = apply_button targets s btn).
Proof.
  split_and!.
  - intros cfg. apply bounded_after_bounds, bounded_init_ok.
  - intros cfg. apply dijkstra_after_bounds, dijkstra_init_ok.
  - intros s. apply in_bounds_nonneg.
  - intros s idx btn. apply apply_button_skip.
Qed.

(* one button that raises the only counter, target 2, after two turns *)
Lemma part2_states_within_bounds_witness :
  exists cfg,
    bounded_after 2 [[0]] [2] 50 (bounded_init [[0]] [2]) = Ok (Some cfg) /\
    bounded_config_ok [2] cfg /\
    [2] ∈ cfg.1.2 /\
    Forall2 (fun v t => 0 <= v <= t) [2] [2].
Proof.
  pose proof (part2_states_within_bounds [[0]] [2] 50 2) as (Hb & _ & Hnn & _).
  exists ([([2], 2, [2])], {[ [2] ]} ∪ ({[ [1] ]} ∪ {[ [0] ]}), INT_MAX).
  split; [reflexivity|].
  split; [apply Hb; reflexivity|].
  split.
  - apply elem_of_union_l. by apply elem_of_singleton.
  - apply Hnn; [repeat constructor; lia|].
    unfold in_bounds. repeat constructor; lia.
Defined.

(** C9 as stated fails for a negative target: the all-zero start state is
    put into the queue and the visited set (and into the priority queue and
    min_cost) whatever the targets are. *)
Lemma part2_negative_target_start :
  ~ Forall2 (fun v t => 0 <= v <= t) [0] [-1] /\
  [0] ∈ bounded_states (bounded_init [[0]] [-1]) /\
  [0] ∈ (bounded_init [[0]] [-1]).1.2 /\
  [0] ∈ dijkstra_states (dijkstra_init [[0]] [-1]) /\
  dijkstra_init [[0]] [-1] = ([(0, [0], [0])], {[ [0] := 0 ]}).
Proof.
  split_and!.
  - intros Hf. apply Forall2_cons in Hf as [? _]. lia.
  - by left.
  - by apply elem_of_singleton.
  - by left.
  - done.
Qed.

(** ** The two solvers on machines whose targets stay below the cap *)

Section Solvers.
Variables (btns : list (list Z)) (targets : list Z) (cap : Z).
Hypothesis Hwf : wf_buttons btns.
Hypothesis Hcap : Forall (fun t => t <= cap) targets.
Hypothesis Hcap0 : 0 < cap.

Local Abbreviation start := (zeros (length targets)).
Local Abbreviation edge := (button_edge btns targets).
Local Abbreviation reach := (reach edge start).
Local Abbreviation shortest := (shortest edge start).

Lemma counts_ok_zeros : counts_ok btns targets start (zeros (length btns)).
Proof.
  split; [apply zeros_length|].
  intros b btn c _ Hc. left. unfold zeros in Hc.
  by apply lookup_replicate in Hc as [-> _].
Qed.

Lemma btns_lookup_wf b btn :
  btns !! b = Some btn -> Forall (fun idx => 0 <= idx) btn.
Proof.
  intros Hb. eapply Forall_forall in Hwf; [done|].
  by eapply list_elem_of_lookup_2.
Qed.

(* when the cap stops a button, the pruning would have stopped it too *)
Lemma cap_hit_pruned s counts b btn c :
  in_bounds targets s -> counts_ok btns targets s counts ->
  btns !! b = Some btn -> counts !! b = Some c -> cap <= c ->
  valid_press targets s btn = None.
Proof.
  intros Hs [_ Hok] Hb Hc Hle.
  destruct (Hok b btn c Hb Hc) as [->|(idx & v & Hin & Heff & Hv & Hcv)]; [lia|].
  destruct (lookup_lt_is_Some_2 targets (Z.to_nat idx)) as [t Ht];
    [unfold effective in Heff; lia|].
  assert (v <= Z.max 0 t) as Hvt.
  { eapply Forall2_lookup_lr in Hs; [|done..]. lia. }
  assert (t <= cap) as Htc
    by (eapply Forall_forall in Hcap; [done|]; by eapply list_elem_of_lookup_2).
  unfold valid_press.
  rewrite (apply_button_pruned targets s btn idx v t); try done.
  - by eapply btns_lookup_wf.
  - by apply in_bounds_length.
  - lia.
Qed.

(* the press counts after one more valid press that changes the state *)
Lemma counts_ok_step s counts b btn s' :
  in_bounds targets s -> counts_ok btns targets s counts ->
  btns !! b = Some btn ->
  apply_button targets s btn = Ok (Some s') -> s' ≠ s ->
  counts_ok btns targets s' (alter Z.succ b counts) /\
  counter_sum s + 1 <= counter_sum s'.
Proof.
  intros Hs [Hlen Hok] Hb Hp Hne.
  destruct (apply_button_valid _ _ _ _ Hp)
    as (Hlen' & Hmono & Hincr & _ & Htot & Hsame).
  assert (exists idx, idx ∈ btn /\ effective targets idx) as (idx & Hin & Heff).
  { destruct (decide (Exists (fun idx => 0 <= idx < Z.of_nat (length targets)) btn))
      as [Hex|Hnex].
    - apply Exists_exists in Hex as (idx & ? & ?). by exists idx.
    - destruct Hne. apply Hsame. intros idx Hin He. apply Hnex.
      apply Exists_exists. by exists idx. }
  split; [|apply Htot; by exists idx].
  split; [by rewrite length_alter|].
  intros b0 btn0 c0 Hb0. rewrite list_lookup_alter. case_decide as Heq.
  - subst b0. simplify_eq. destruct (counts !! b) as [c|] eqn:Hc; [|done].
    simpl. intros [= <-]. right.
    destruct (Hok b btn c Hb Hc) as [->|(idx1 & v & Hin1 & Heff1 & Hv & Hcv)].
    + destruct (lookup_lt_is_Some_2 s (Z.to_nat idx)) as [v Hv].
      { rewrite (in_bounds_length _ _ Hs). unfold effective in Heff. lia. }
      destruct (Hincr idx v Hin Heff Hv) as (v' & Hv' & Hle).
      assert (0 <= v) as Hv0.
      { destruct (lookup_lt_is_Some_2 targets (Z.to_nat idx)) as [t Ht];
          [unfold effective in Heff; lia|].
        eapply Forall2_lookup_lr in Hs; [|done..]. lia. }
      exists idx, v'. split_and!; [done..|lia].
    + destruct (Hincr idx1 v Hin1 Heff1 Hv) as (v' & Hv' & Hle).
      exists idx1, v'. split_and!; [done..|lia].
  - intros Hc0.
    destruct (Hok b0 btn0 c0 Hb0 Hc0) as [->|(idx1 & v & Hin1 & Heff1 & Hv & Hcv)];
      [by left|].
    right. destruct (Hmono _ v Hv) as (v' & Hv' & Hle).
    exists idx1, v'. split_and!; [done..|lia].
Qed.

Lemma valid_press_defined s btn b :
  btns !! b = Some btn -> in_bounds targets s ->
  exists r, apply_button targets s btn = Ok r.
Proof.
  intros Hb Hs. apply apply_button_defined;
    [by eapply btns_lookup_wf | by apply in_bounds_length].
Qed.

Lemma queue_work_snoc q s p counts :
  queue_work (q ++ [(s, p, counts)]) = queue_work q ++ [(s, p)].
Proof. unfold queue_work. by rewrite fmap_app. Qed.

Lemma queue_work_elem s p q :
  (s, p) ∈ queue_work q <-> exists counts, (s, p, counts) ∈ q.
Proof.
  unfold queue_work. rewrite list_elem_of_fmap. split.
  - intros ([[s0 p0] counts] & [= -> ->] & Hin). by exists counts.
  - intros (counts & Hin). by exists (s, p, counts).
Qed.

(** *** The bounded BFS *)

(* the loop over the buttons, from the button [idx] on *)
Lemma bounded_buttons_inv k rest idx s counts q visited :
  (forall j btn, rest !! j = Some btn -> btns !! (idx + j)%nat = Some btn) ->
  in_bounds targets s -> s ∈ visited ->
  counts_ok btns targets s counts -> k <= counter_sum s ->
  bounded_inv btns targets k q visited (omap (valid_press targets s) rest) ->
  exists q' visited',
    bounded_buttons targets cap rest idx s k counts q visited
      = Ok (q', visited') /\
    bounded_inv btns targets k q' visited' [] /\
    (length q' + size visited = length q + size visited')%nat.
Proof.
  intros Hrest Hs Hsv Hcounts Hk. revert idx q visited Hrest Hsv.
  induction rest as [|btn rest IH]; intros idx q visited Hrest Hsv Hinv; simpl.
  { by exists q, visited. }
  assert (btns !! idx = Some btn) as Hb.
  { rewrite <-(Nat.add_0_r idx). by apply Hrest. }
  assert (forall j btn0, rest !! j = Some btn0 ->
            btns !! (S idx + j)%nat = Some btn0) as Hrest'.
  { intros j btn0 Hj. replace (S idx + j)%nat with (idx + S j)%nat by lia.
    by apply Hrest. }
  destruct (lookup_lt_is_Some_2 counts idx) as [c Hc].
  { destruct Hcounts as [-> _]. by eapply lookup_lt_Some. }
  rewrite Hc. simpl in Hinv.
  destruct (cap <=? c) eqn:Hcmp.
  { apply IH; [done..|].
    by rewrite (cap_hit_pruned s counts idx btn c) in Hinv by (done || lia). }
  destruct (valid_press_defined s btn idx Hb Hs) as [r Hp].
  unfold valid_press in Hinv at 1. rewrite Hp in Hinv. rewrite Hp. simpl.
  destruct r as [s'|]; [|by apply IH].
  destruct Hinv as [Hsearch Hsorted Hitems Hbounds].
  case_decide as Hseen.
  { apply IH; [done..|]. split; [|done..]. by eapply search_inv_skip. }
  assert (s' ≠ s) as Hne by (intros ->; done).
  destruct (counts_ok_step s counts idx btn s' Hs Hcounts Hb Hp Hne)
    as [Hcounts' Hsum].
  destruct (IH (S idx) (q ++ [(s', k + 1, alter Z.succ idx counts)])
              ({[s']} ∪ visited)) as (q' & visited' & Hrun & Hinv' & Hsz);
    [done | by apply elem_of_union_r | |].
  { split.
    - rewrite queue_work_snoc. eapply search_inv_push; [done..|].
      intros x. rewrite elem_of_app, list_elem_of_singleton. tauto.
    - apply StronglySorted_app_2; [|done | repeat constructor].
      intros [[s1 p1] c1] x2 Hin1 ->%list_elem_of_singleton. simpl.
      destruct (inv_work _ _ _ _ _ _ _ Hsearch s1 p1) as (_ & _ & ?); [|lia].
      apply queue_work_elem. by exists c1.
    - intros s1 p1 c1 [Hin|[= -> -> ->]%list_elem_of_singleton]%elem_of_app;
        [by apply Hitems|].
      split; [done | lia].
    - intros s1 [->%elem_of_singleton|Hin]%elem_of_union; [|by apply Hbounds].
      by eapply apply_button_bounds. }
  exists q', visited'. split; [done|]. split; [done|].
  rewrite size_union, size_singleton, length_app in Hsz by set_solver.
  simpl in Hsz. lia.
Qed.

(* once the target was taken from the queue, the rest of the queue is
   drained and best_cost is returned *)
Lemma bounded_loop_drain fuel q visited best :
  best ≠ INT_MAX ->
  Forall (fun it : QueueItem => best <= it.1.2) q ->
  (length q < fuel)%nat ->
  bounded_loop fuel btns targets cap (q, visited, best) = Ok best.
Proof.
  intros Hbest. revert q. induction fuel as [|fuel IH]; intros q Hq Hf; [lia|].
  destruct q as [|[[s p] counts] q]; simpl.
  { by case_decide. }
  apply Forall_cons in Hq as [Hp Hq]. simpl in Hp, Hf.
  case_decide; simpl.
  - rewrite Z.min_l by done. apply IH; [done | lia].
  - replace (best <=? p) with true by lia. simpl. apply IH; [done | lia].
Qed.

Hypothesis Hint : cap * Z.of_nat (length targets) < INT_MAX.

(* the BFS loop before the target is taken from the queue *)
Lemma bounded_loop_answer fuel :
  forall n k q visited,
    bounded_inv btns targets k q visited [] ->
    (length q + length (box targets) = size visited + n)%nat ->
    (n + 1 < fuel)%nat ->
    (exists c, bounded_loop fuel btns targets cap (q, visited, INT_MAX) = Ok c
               /\ shortest c targets) \/
    (bounded_loop fuel btns targets cap (q, visited, INT_MAX) = Ok (-1)
     /\ forall j, ~ reach j targets).
Proof.
  induction fuel as [|fuel IH]; intros n k q visited Hinv Hn Hf; [lia|].
  destruct Hinv as [Hsearch Hsorted Hitems Hbounds].
  assert (size visited <= length (box targets))%nat as HsU.
  { apply size_le_length. intros s Hin. by apply in_bounds_box, Hbounds. }
  destruct q as [|[[s p] counts] q].
  { right. split; [simpl; try case_decide; done|].
    intros j. by eapply search_inv_empty. }
  destruct (inv_work _ _ _ _ _ _ _ Hsearch s p) as (Hin & Hshort & _); [by left|].
  destruct (Hitems s p counts) as [Hcounts Hsum]; [by left|].
  pose proof (Hbounds s Hin) as Hs.
  assert (p < INT_MAX) as Hp.
  { pose proof (in_bounds_sum targets s cap Hs ltac:(lia) Hcap). lia. }
  apply StronglySorted_inv in Hsorted as [Hsorted Hhd].
  simpl. case_decide as Hgoal; simpl.
  { left. exists p. subst s. split; [|done].
    rewrite Z.min_r by lia. apply bounded_loop_drain; [lia | | simpl in *; lia].
    eapply Forall_impl; [done|]. by intros [[s1 p1] c1]. }
  replace (INT_MAX <=? p) with false by lia. simpl.
  assert (search_inv edge start targets p
            (queue_work ((s, p, counts) :: q)) visited []) as Hs1.
  { eapply search_inv_least; [done | by left|].
    intros s1 c1 [cs1 [[= -> -> ->]|Hin1]%elem_of_cons]%queue_work_elem; [lia|].
    eapply Forall_forall in Hhd; [|done]. done. }
  destruct (bounded_buttons_inv p btns 0 s counts q visited)
    as (q' & visited' & -> & Hinv' & Hsz); [done..|lia| |].
  { split; [|done| |done].
    - eapply search_inv_pop; [done| | done |].
      + intros x. unfold queue_work. by rewrite fmap_cons, elem_of_cons.
      + apply valid_press_edge.
    - intros s1 p1 c1 Hin1. apply Hitems. by right. }
  simpl in *. eapply (IH (n - 1)%nat); [done | lia | lia].
Qed.

Lemma bounded_init_inv :
  bounded_inv btns targets 0 [(start, 0, zeros (length btns))] {[start]} [].
Proof.
  split.
  - apply search_inv_init.
  - repeat constructor.
  - intros s p counts [= -> -> ->]%list_elem_of_singleton.
    split; [apply counts_ok_zeros|].
    unfold counter_sum, zeros. induction (length targets); simpl; lia.
  - intros s ->%elem_of_singleton. apply in_bounds_zeros.
Qed.

(* the bounded solver answers the length of a shortest pruned path to
   the targets, or -1 when there is none *)
Lemma bounded_answer fuel :
  (S (S (length (box targets))) < fuel)%nat ->
  (exists c, solve_machine_part2_bounded_with cap fuel btns targets = Ok c
             /\ shortest c targets) \/
  (solve_machine_part2_bounded_with cap fuel btns targets = Ok (-1)
   /\ forall j, ~ reach j targets).
Proof.
  intros Hf. unfold solve_machine_part2_bounded_with, bounded_init.
  eapply (bounded_loop_answer fuel (length (box targets))).
  - apply bounded_init_inv.
  - rewrite size_singleton. simpl. lia.
  - lia.
Qed.

End Solvers.

(** *** The Dijkstra solver *)

Section Dijkstra.
Variables (btns : list (list Z)) (targets : list Z) (cap : Z).
Hypothesis Hwf : wf_buttons btns.
Hypothesis Hcap : Forall (fun t => t <= cap) targets.
Hypothesis Hcap0 : 0 < cap.

Local Abbreviation start := (zeros (length targets)).
Local Abbreviation edge := (button_edge btns targets).
Local Abbreviation reach := (reach edge start).
Local Abbreviation shortest := (shortest edge start).

Lemma pq_work_elem s c pq :
  (s, c) ∈ pq_work pq <-> exists counts, (c, s, counts) ∈ pq.
Proof.
  unfold pq_work. rewrite list_elem_of_fmap. split.
  - intros ([[c0 s0] counts] & [= -> ->] & Hin). by exists counts.
  - intros (counts & Hin). by exists (c, s, counts).
Qed.

(* the loop over the buttons, from the button [idx] on *)
Lemma dijkstra_buttons_inv k rest idx s counts pq min_cost :
  (forall j btn, rest !! j = Some btn -> btns !! (idx + j)%nat = Some btn) ->
  in_bounds targets s -> counts_ok btns targets s counts ->
  s ∈ dom min_cost ->
  dijkstra_inv btns targets k pq min_cost (omap (valid_press targets s) rest) ->
  exists pq' min_cost',
    dijkstra_buttons targets cap rest idx s k counts pq min_cost
      = Ok (pq', min_cost') /\
    dijkstra_inv btns targets k pq' min_cost' [] /\
    (length pq' + size (dom min_cost)
     = length pq + size (dom min_cost'))%nat.
Proof.
  intros Hrest Hs Hcounts. revert idx pq min_cost Hrest.
  induction rest as [|btn rest IH]; intros idx pq min_cost Hrest Hsd Hinv;
    simpl.
  { by exists pq, min_cost. }
  assert (btns !! idx = Some btn) as Hb.
  { rewrite <-(Nat.add_0_r idx). by apply Hrest. }
  assert (forall j btn0, rest !! j = Some btn0 ->
            btns !! (S idx + j)%nat = Some btn0) as Hrest'.
  { intros j btn0 Hj. replace (S idx + j)%nat with (idx + S j)%nat by lia.
    by apply Hrest. }
  destruct (lookup_lt_is_Some_2 counts idx) as [c Hc].
  { destruct Hcounts as [-> _]. by eapply lookup_lt_Some. }
  rewrite Hc. simpl in Hinv.
  destruct (cap <=? c) eqn:Hcmp.
  { apply IH; [done..|].
    by rewrite (cap_hit_pruned btns targets cap Hwf Hcap Hcap0 s counts idx btn c)
      in Hinv by (done || lia). }
  destruct (valid_press_defined btns targets Hwf s btn idx Hb Hs) as [r Hp].
  unfold valid_press in Hinv at 1. rewrite Hp in Hinv. rewrite Hp. simpl.
  destruct r as [s'|]; [|by apply IH].
  destruct Hinv as [Hsearch Hcost Hitems Hbounds].
  destruct (min_cost !! s') as [old|] eqn:Hold.
  { (* seen before: its cost is not above k + 1 *)
    assert ((k + 1 <? old) = false) as ->.
    { apply Z.ltb_ge. apply Hcost in Hold as [_ Hmin]. apply Hmin.
      apply (inv_pending _ _ _ _ _ _ _ Hsearch). by left. }
    apply IH; [done..|]. split; [|done..].
    eapply search_inv_skip; [done|]. apply elem_of_dom. by eexists. }
  assert (s' ∉ dom min_cost) as Hnew by by apply not_elem_of_dom.
  assert (s' ≠ s) as Hne by (intros ->; done).
  destruct (counts_ok_step btns targets s counts idx btn s' Hs Hcounts Hb Hp Hne)
    as [Hcounts' _].
  assert (search_inv edge start targets k
            (pq_work ((k + 1, s', alter Z.succ idx counts) :: pq))
            (dom (<[s' := k + 1]> min_cost))
            (omap (valid_press targets s) rest)) as Hsearch'.
  { rewrite dom_insert_L. eapply search_inv_push; [done..|].
    intros x. unfold pq_work. by rewrite fmap_cons, elem_of_cons. }
  destruct (IH (S idx) ((k + 1, s', alter Z.succ idx counts) :: pq)
              (<[s' := k + 1]> min_cost))
    as (pq' & min_cost' & Hrun & Hinv' & Hsz); [done | | |].
  { rewrite dom_insert_L. by apply elem_of_union_r. }
  { split; [done| | |].
    - intros s0 d. rewrite lookup_insert. case_decide as Heq; [|apply Hcost].
      intros [= <-]. subst s0.
      eapply (inv_work _ _ _ _ _ _ _ Hsearch'). unfold pq_work.
      rewrite fmap_cons. by left.
    - intros c1 s1 counts1 [[= -> -> ->]|Hin]%elem_of_cons.
      + split; [done|]. by rewrite lookup_insert_eq.
      + destruct (Hitems _ _ _ Hin) as [? Hlk]. split; [done|].
        rewrite lookup_insert_ne; [done|]. intros ->. congruence.
    - intros s1. rewrite dom_insert_L.
      intros [->%elem_of_singleton|Hin]%elem_of_union; [|by apply Hbounds].
      by eapply apply_button_bounds. }
  exists pq', min_cost'. split; [done|]. split; [done|].
  rewrite dom_insert_L, size_union, size_singleton in Hsz by set_solver.
  simpl in Hsz. lia.
Qed.

Lemma dijkstra_loop_answer fuel :
  forall n k pq min_cost,
    dijkstra_inv btns targets k pq min_cost [] ->
    (length pq + length (box targets) = size (dom min_cost) + n)%nat ->
    (n < fuel)%nat ->
    (exists c, dijkstra_loop fuel btns targets cap (pq, min_cost) = Ok c
               /\ shortest c targets) \/
    (dijkstra_loop fuel btns targets cap (pq, min_cost) = Ok (-1)
     /\ forall j, ~ reach j targets).
Proof.
  induction fuel as [|fuel IH]; intros n k pq min_cost Hinv Hn Hf; [lia|].
  destruct Hinv as [Hsearch Hcost Hitems Hbounds].
  assert (size (dom min_cost) <= length (box targets))%nat as HsU.
  { apply size_le_length. intros s Hin. by apply in_bounds_box, Hbounds. }
  simpl. destruct (pq_pop pq) as [[[[c s] counts] pq']|] eqn:Hpop; simpl.
  2:{ right. split; [done|]. destruct pq; [|done].
      intros j. by eapply search_inv_empty. }
  destruct (pq_pop_spec _ _ _ Hpop) as (Hmem & Hlen & Hleast).
  destruct (Hitems c s counts) as [Hcounts Hlk]; [apply Hmem; by left|].
  unfold map_index. rewrite Hlk.
  replace (c <? c) with false by lia.
  destruct (inv_work _ _ _ _ _ _ _ Hsearch s c) as (Hin & Hshort & _).
  { apply pq_work_elem. exists counts. apply Hmem. by left. }
  case_decide as Hgoal; simpl.
  { left. exists c. by subst s. }
  assert (search_inv edge start targets c (pq_work pq) (dom min_cost) [])
    as Hs1.
  { eapply search_inv_least; [done| |].
    - apply pq_work_elem. exists counts. apply Hmem. by left.
    - intros s1 c1 [counts1 Hin1]%pq_work_elem.
      apply (Hleast _ Hin1). }
  destruct (dijkstra_buttons_inv c btns 0 s counts pq' min_cost)
    as (pq1 & min_cost1 & -> & Hinv' & Hsz); [done | by apply Hbounds | done..| |].
  { split; [|done| |done].
    - eapply search_inv_pop; [done| | done |].
      + intros [s1 c1]. rewrite !pq_work_elem. split.
        * intros [counts1 [[= -> -> ->]|Hin1]%Hmem]; [by left|].
          right. by exists counts1.
        * intros [[= -> ->]|[counts1 Hin1]].
          -- exists counts. apply Hmem. by left.
          -- exists counts1. apply Hmem. by right.
      + apply valid_press_edge.
    - intros c1 s1 counts1 Hin1. apply Hitems, Hmem. by right. }
  simpl in *. eapply (IH (n - 1)%nat); [done | lia | lia].
Qed.

Lemma dijkstra_init_inv :
  dijkstra_inv btns targets 0 [(0, start, zeros (length btns))]
    (<[start := 0]> ∅) [].
Proof.
  split.
  - rewrite dom_insert_L, dom_empty_L, union_empty_r_L. apply search_inv_init.
  - intros s d. rewrite lookup_insert. case_decide; [|done].
    intros [= <-]. subst s. apply shortest_start.
  - intros c s counts [= -> -> ->]%list_elem_of_singleton.
    split; [by apply counts_ok_zeros|]. by rewrite lookup_insert_eq.
  - intros s. rewrite dom_insert_L, dom_empty_L, union_empty_r_L.
    intros ->%elem_of_singleton. apply in_bounds_zeros.
Qed.

(* the Dijkstra solver answers the length of a shortest pruned path to
   the targets, or -1 when there is none *)
Lemma dijkstra_answer fuel :
  (length (box targets) < fuel)%nat ->
  (exists c, solve_machine_part2_dijkstra_with cap fuel btns targets = Ok c
             /\ shortest c targets) \/
  (solve_machine_part2_dijkstra_with cap fuel btns targets = Ok (-1)
   /\ forall j, ~ reach j targets).
Proof.
  intros Hf. unfold solve_machine_part2_dijkstra_with, dijkstra_init.
  eapply (dijkstra_loop_answer fuel (length (box targets))).
  - apply dijkstra_init_inv.
  - rewrite dom_insert_L, dom_empty_L, union_empty_r_L, size_singleton.
    simpl. lia.
  - lia.
Qed.

End Dijkstra.

(** C3, as far as it holds.  On a machine no button of which lists a
    negative index and no target of which exceeds 50 (with fewer than
    INT_MAX / 50 counters), the bounded BFS solver with its default cap of
    50 and the Dijkstra solver with its default cap of 100 return the same
    value, given enough fuel for their loops: the least number of presses
    that reach the targets without any counter passing its target, or -1
    when no such sequence of presses exists. *)
Theorem part2_solvers_agree_below_cap btns targets :
  wf_buttons btns ->
  Forall (fun t => t <= 50) targets ->
  50 * Z.of_nat (length targets) < INT_MAX ->
  exists v fuel0,
    (shortest (button_edge btns targets) (zeros (length targets)) v targets \/
     (v = -1 /\
      forall j, ~ reach (button_edge btns targets) (zeros (length targets))
                  j targets)) /\
    forall fuel, (fuel0 <= fuel)%nat ->
      solve_machine_part2_bounded fuel btns targets = Ok v /\
      solve_machine_part2_dijkstra fuel btns targets = Ok v.
Proof.
  intros Hwf Hcap Hint.
  assert (Forall (fun t => t <= 100) targets) as Hcap'
    by (eapply Forall_impl; [done|]; simpl; lia).
  set (fuel0 := S (S (S (length (box targets))))).
  pose proof (bounded_answer btns targets 50 Hwf Hcap ltac:(lia) Hint) as Hb.
  pose proof (dijkstra_answer btns targets 100 Hwf Hcap' ltac:(lia)) as Hd.
  assert (forall v,
            (shortest (button_edge btns targets) (zeros (length targets)) v targets \/
             (v = -1 /\
              forall j, ~ reach (button_edge btns targets)
                          (zeros (length targets)) j targets)) ->
            forall fuel, (fuel0 <= fuel)%nat ->
              solve_machine_part2_bounded fuel btns targets = Ok v /\
              solve_machine_part2_dijkstra fuel btns targets = Ok v) as Hall.
  { intros v Hv fuel Hf.
    destruct (Hb fuel) as [(c & Hrun & Hc)|[Hrun Hno]]; [unfold fuel0 in Hf; lia| |];
      (destruct (Hd fuel) as [(c' & Hrun' & Hc')|[Hrun' Hno']];
         [unfold fuel0 in Hf; lia| |]);
      unfold solve_machine_part2_bounded, solve_machine_part2_dijkstra;
      rewrite Hrun, Hrun'.
    - destruct Hv as [Hv|[_ Hv]]; [|destruct Hc as [Hc _]; by destruct (Hv c)].
      by rewrite (shortest_unique _ _ _ _ _ Hc Hv), (shortest_unique _ _ _ _ _ Hc' Hv).
    - destruct Hc as [Hc _]. by destruct (Hno' c).
    - destruct Hc' as [Hc' _]. by destruct (Hno c').
    - destruct Hv as [[Hv _]|[-> _]]; [by destruct (Hno v) | done]. }
  destruct (Hb fuel0) as [(c & _ & Hc)|[_ Hno]]; [unfold fuel0; lia| |].
  - exists c, fuel0. split; [by left|]. apply Hall. by left.
  - exists (-1), fuel0. split; [by right|]. apply Hall. by right.
Qed.

(* the first machine of the example *)
Lemma part2_solvers_agree_below_cap_witness :
  exists v fuel0,
    (shortest (button_edge [[3]; [1; 3]; [2]; [2; 3]; [0; 2]; [0; 1]] [3; 5; 4; 7])
       (zeros 4) v [3; 5; 4; 7] \/
     (v = -1 /\
      forall j, ~ reach (button_edge [[3]; [1; 3]; [2]; [2; 3]; [0; 2]; [0; 1]]
                           [3; 5; 4; 7]) (zeros 4) j [3; 5; 4; 7])) /\
    forall fuel, (fuel0 <= fuel)%nat ->
      solve_machine_part2_bounded fuel
        [[3]; [1; 3]; [2]; [2; 3]; [0; 2]; [0; 1]] [3; 5; 4; 7] = Ok v /\
      solve_machine_part2_dijkstra fuel
        [[3]; [1; 3]; [2]; [2; 3]; [0; 2]; [0; 1]] [3; 5; 4; 7] = Ok v.
Proof.
  apply (part2_solvers_agree_below_cap
           [[3]; [1; 3]; [2]; [2; 3]; [0; 2]; [0; 1]] [3; 5; 4; 7]).
  - unfold wf_buttons. repeat constructor; lia.
  - repeat constructor; lia.
  - vm_compute. reflexivity.
Defined.

(** C3 as stated fails: one button that raises the only counter, whose
    target is 60.  The bounded solver stops at 50 presses of the button and
    answers -1; the Dijkstra solver answers 60. *)
Lemma part2_solvers_differ :
  solve_machine_part2_bounded 200 [[0]] [60] = Ok (-1) /\
  solve_machine_part2_dijkstra 200 [[0]] [60] = Ok 60.
Proof. split; by vm_compute. Qed.

(** ** Day 9 part 2: the fast check and the brute-force check *)

(** C4, as far as it holds.  On the documented 8-point example the program
    of solution2.cpp and the brute-force program of test_example.cpp
    compute the same largest area, 24. *)
Theorem polygon_example_area_24 :
  parseInput example_point_lines = example_reds /\
  fast_max_area example_reds = 24 /\
  brute_max_area example_reds = 24 /\
  main_solution2 (one_file "input.txt" example_point_lines)
  = {| out := [OStr "Part 2 Largest Area: "; OInt 24; ONl]; err := [];
       status := 0 |} /\
  (exists printed,
     out main_test_example = printed ++ [OStr "Max area: "; OInt 24; ONl]).
Proof.
  split_and!.
  - vm_compute. reflexivity.
  - vm_compute. reflexivity.
  - vm_compute. reflexivity.
  - vm_compute. reflexivity.
  - exists (take (length (out main_test_example) - 3) (out main_test_example)).
    vm_compute. reflexivity.
Qed.

(** C4 as stated fails.  On a polygon in the shape of a U whose arms are
    one tile apart, the corners (0,0) and (5,4) span a rectangle all of
    whose tiles are on or inside the polygon: the brute-force check accepts
    it, and the fast check rejects it in CHECK A, since the two vertical
    edges of the gap lie strictly between its sides.  The two programs then
    compute different largest areas. *)
Lemma polygon_checks_disagree :
  (mkp 0 0, mkp 5 4) ∈ pairs u_shape /\
  brute_check u_shape (mkp 0 0) (mkp 5 4) = true /\
  fast_check (sort_by vx (build_v_edges u_shape))
    (sort_by hy (build_h_edges u_shape)) (mkp 0 0) (mkp 5 4) = false /\
  fast_max_area u_shape = 15 /\
  brute_max_area u_shape = 30.
Proof.
  split_and!; [|vm_compute; reflexivity..].
  unfold u_shape. simpl. right. by left.
Qed.

(** ** Day 7 *)

(** C5.  The row-by-row simulation of the walkthrough, started from the
    column of the 'S' in the first row of the example grid, counts 21
    splits. *)
Theorem day7_example_21_splits :
  Day7.count_splits Day7.example_grid = Some 21.
Proof. by vm_compute. Qed.

(* the same grid gives the part-2 result of the walkthrough *)
Lemma day7_example_40_paths :
  Day7.count_paths 17 15 Day7.example_grid 7 = Day7.PyVal 40.
Proof. by vm_compute. Qed.

(** ** Exit status *)

(** C6, as far as it holds.  A script whose input file cannot be opened
    prints an error message to stderr and exits with status 1.  When the
    file is opened and the run completes, the status is 0.  The
    button-press program also exits with status 1, after a usage message,
    when it is given no file argument; test_example.cpp opens no file. *)
Theorem exit_status_of_scripts (fs : files) (argv : list string) (fuel : nat) :
  (fs "input.txt"%string = None ->
   main_part1 fs = {| out := []; err := [OStr "Error opening input.txt"; ONl];
                      status := 1 |}) /\
  (is_Some (fs "input.txt"%string) -> status (main_part1 fs) = 0) /\
  (fs "input.txt"%string = None ->
   main_solution2 fs
   = {| out := []; err := [OStr "Error: Could not open "; OStr "input.txt"; ONl];
        status := 1 |}) /\
  (is_Some (fs "input.txt"%string) -> status (main_solution2 fs) = 0) /\
  status main_test_example = 0 /\
  ((length argv < 2)%nat ->
   main_buttons fuel argv fs
   = Ok {| out := [];
           err := [OStr "Usage: "; OStr (List.hd EmptyString argv);
                   OStr " input.txt"; ONl];
           status := 1 |}) /\
  (forall prog path rest, argv = prog :: path :: rest -> fs path = None ->
     main_buttons fuel argv fs
     = Ok {| out := []; err := [OStr "Cannot open file: "; OStr path; ONl];
             status := 1 |}) /\
  (forall prog path rest r, argv = prog :: path :: rest ->
     is_Some (fs path) -> main_buttons fuel argv fs = Ok r -> status r = 0) /\
  (forall solve, fs (part2_filename argv) = None ->
     main_part2 solve argv fs
     = Ok {| out := [];
             err := [OStr "Error opening file: "; OStr (part2_filename argv);
                     ONl];
             status := 1 |}) /\
  (forall solve r, is_Some (fs (part2_filename argv)) ->
     main_part2 solve argv fs = Ok r -> status r = 0).
Proof.
  split_and!.
  - intros Hfs. unfold main_part1. by rewrite Hfs.
  - intros [lines Hfs]. unfold main_part1. by rewrite Hfs.
  - intros Hfs. unfold main_solution2. by rewrite Hfs.
  - intros [lines Hfs]. unfold main_solution2. rewrite Hfs. by case_match.
  - done.
  - intros Hlen. by destruct argv as [|? [|? ?]]; [..|simpl in Hlen; lia].
  - intros prog path rest -> Hfs. simpl. by rewrite Hfs.
  - intros prog path rest r -> [lines Hfs]. simpl. rewrite Hfs.
    destruct (parse_machines lines); simpl; [|done..].
    destruct (total_presses fuel a 0); simpl; [|done..]. by intros [= <-].
  - intros solve Hfs. unfold main_part2. by rewrite Hfs.
  - intros solve r [lines Hfs]. unfold main_part2. rewrite Hfs.
    destruct (part2_lines solve lines 0 0); simpl; [|done..]. by intros [= <-].
Qed.

(* the runs of the example: a missing file, and the file of the example *)
Lemma exit_status_of_scripts_witness :
  main_part1 (one_file "other.txt" []) =
    {| out := []; err := [OStr "Error opening input.txt"; ONl]; status := 1 |} /\
  status (main_solution2 (one_file "input.txt" example_point_lines)) = 0.
Proof.
  pose proof (exit_status_of_scripts (one_file "other.txt" []) [] 0)
    as (H1 & _).
  pose proof (exit_status_of_scripts (one_file "input.txt" example_point_lines)
                [] 0) as (_ & _ & _ & H4 & _).
  split; [apply H1; reflexivity | apply H4; by eexists].
Defined.

(** C6 as stated fails.  The button-press program exits with status 1
    although its input file exists, when it is given no argument; and a run
    that opens its file can end in an uncaught exception of std::stoi
    rather than with status 0. *)
Lemma exit_status_not_always_0 :
  main_buttons 0 ["solution"]%string (one_file "input.txt" [])
  = Ok {| out := [];
          err := [OStr "Usage: "; OStr "solution"; OStr " input.txt"; ONl];
          status := 1 |} /\
  main_buttons 0 ["solution"; "input.txt"]%string
    (one_file "input.txt" ["[#] (99999999999) {1}"]%string)
  = Throws out_of_range /\
  main_bounded 0 ["solution"]%string
    (one_file "input.txt" ["[#] (a) {1}"]%string)
  = Throws invalid_argument.
Proof. split_and!; by vm_compute. Qed.

(** ** Malformed lines *)

Lemma read_point_line_fst acc acc' line :
  acc.1 = acc'.1 -> (read_point_line acc line).1 = (read_point_line acc' line).1.
Proof.
  intros Hacc. unfold read_point_line. destruct (string_empty line); [done|].
  destruct (parse_point line); simpl; by rewrite ?Hacc.
Qed.

Lemma read_point_line_skip acc line :
  point_line line ≠ true -> (read_point_line acc line).1 = acc.1.
Proof.
  unfold point_line, read_point_line. destruct (string_empty line); [done|].
  destruct (parse_point line) as [p|]; simpl; [|done].
  intros Hno. by destruct Hno.
Qed.

Lemma read_point_lines_filter lines acc acc' :
  acc.1 = acc'.1 ->
  (foldl read_point_line acc lines).1
  = (foldl read_point_line acc' (filter (fun l => point_line l = true) lines)).1.
Proof.
  revert acc acc'. induction lines as [|line lines IH]; intros acc acc' Hacc;
    [done|].
  rewrite filter_cons. simpl.
  destruct (decide (point_line line = true)) as [Hpl|Hpl]; simpl.
  - by apply IH, read_point_line_fst.
  - apply IH. by rewrite read_point_line_skip.
Qed.

Lemma read_point_lines_warnings lines acc :
  (foldl read_point_line acc lines).2 = acc.2 ++ point_warnings lines.
Proof.
  revert acc. induction lines as [|line lines IH]; intros acc; simpl.
  { by rewrite app_nil_r. }
  rewrite IH. unfold read_point_line.
  destruct (string_empty line); simpl; [done|].
  destruct (parse_point line) as [p|] eqn:Hp; simpl; [done|].
  by rewrite <-app_assoc.
Qed.

Lemma parseInput_filter lines :
  parseInput lines = parseInput (filter (fun l => pair_line l = true) lines).
Proof.
  unfold parseInput. induction lines as [|line lines IH]; [done|].
  rewrite filter_cons. simpl.
  destruct (decide (pair_line line = true)) as [Hpl|Hpl]; simpl.
  - by rewrite IH.
  - unfold pair_line in Hpl. destruct (parse_line2 line); [done|].
    by destruct Hpl.
Qed.

(** C7, as far as it holds.  In Day 9 part 1 an empty line is passed over
    silently and any other line that does not read as a point is skipped
    with a warning on stderr; the printed answer is the one for the input
    with only the lines that read as points.  In solution2.cpp the lines of
    which no point is kept are silently ignored and do not alter the
    output. *)
Theorem malformed_lines_skipped (fs : files) (lines : list string) :
  fs "input.txt"%string = Some lines ->
  out (main_part1 fs)
  = out (main_part1
           (one_file "input.txt" (filter (fun l => point_line l = true) lines))) /\
  err (main_part1 fs) = point_warnings lines /\
  main_solution2 fs
  = main_solution2
      (one_file "input.txt" (filter (fun l => pair_line l = true) lines)).
Proof.
  intros Hfs. unfold main_part1, main_solution2, one_file. rewrite Hfs. simpl.
  split_and!.
  - do 2 f_equal. f_equal. by apply read_point_lines_filter.
  - by rewrite read_point_lines_warnings.
  - by rewrite <-parseInput_filter.
Qed.

Lemma malformed_lines_skipped_witness :
  out (main_part1 (one_file "input.txt" ["7,1"; "oops"; ""; "11,7"]%string))
  = out (main_part1 (one_file "input.txt" ["7,1"; "11,7"]%string)) /\
  err (main_part1 (one_file "input.txt" ["7,1"; "oops"; ""; "11,7"]%string))
  = [OStr "Invalid line: "; OStr "oops"; ONl].
Proof.
  pose proof (malformed_lines_skipped
                (one_file "input.txt" ["7,1"; "oops"; ""; "11,7"]%string)
                ["7,1"; "oops"; ""; "11,7"]%string eq_refl) as (H1 & H2 & _).
  split; [exact H1 | exact H2].
Defined.

(** C7 as stated fails.  In solution2.cpp the line "0,2,oops" is neither
    skipped nor ignored: the point (0,2) read before the failure is kept
    and changes the answer.  In the Day 10 programs a line without buttons
    and targets is counted as a machine solved with 0 presses. *)
Lemma malformed_line_alters_output :
  main_solution2
    (one_file "input.txt" ["0,0"; "2,0"; "2,2"; "0,2,oops"]%string)
  = {| out := [OStr "Part 2 Largest Area: "; OInt 9; ONl]; err := [];
       status := 0 |} /\
  main_solution2 (one_file "input.txt" ["0,0"; "2,0"; "2,2"]%string)
  = {| out := [OStr "Not enough points to form a polygon."; ONl]; err := [];
       status := 0 |} /\
  main_dijkstra 5 ["solution"]%string (one_file "input.txt" ["garbage"]%string)
  = Ok {| out := [OStr "Machine "; OInt 0; OStr " counters, "; OInt 0;
                  OStr " buttons: "; OInt 0; OStr " presses"; ONl;
                  OStr "Total minimum presses: "; OInt 0; ONl;
                  OStr "Processed "; OInt 1; OStr " machines"; ONl];
          err := []; status := 0 |} /\
  main_dijkstra 5 ["solution"]%string (one_file "input.txt" [])
  = Ok {| out := [OStr "Total minimum presses: "; OInt 0; ONl;
                  OStr "Processed "; OInt 0; OStr " machines"; ONl];
          err := []; status := 0 |}.
Proof. split_and!; by vm_compute. Qed.

(** ** Standard output *)

Lemma text_not_only_integers o : existsb is_text o = true -> ~ only_integers o.
Proof.
  intros Hex [Hall _]. apply existsb_exists in Hex as (x & Hin & Hx).
  rewrite forallb_forall in Hall. specialize (Hall x Hin). by rewrite Hx in Hall.
Qed.

Lemma total_presses_spec fuel ms total r :
  total_presses fuel ms total = Ok r ->
  exists vs, rmap_list (minPresses fuel) ms = Ok vs /\
    r.1 = unreachable_lines vs /\ r.2 = total + solved_total vs.
Proof.
  revert total r. induction ms as [|m ms IH]; intros total r; simpl.
  { intros [= <-]. exists []. split; [done|]. split; [done|].
    unfold solved_total. simpl. lia. }
  destruct (minPresses fuel m) as [v| | |]; simpl; [|done..].
  destruct (v =? -1) eqn:Hv.
  - destruct (total_presses fuel ms total) as [r'| | |] eqn:Hr'; simpl; [|done..].
    intros [= <-]. destruct (IH _ _ Hr') as (vs & -> & Hout & Htot). simpl.
    exists (v :: vs). split; [done|]. simpl. rewrite Hv, Hout.
    split; [done|]. rewrite Htot. unfold solved_total, solved.
    rewrite filter_cons, decide_False by lia. done.
  - intros Hr. destruct (IH _ _ Hr) as (vs & -> & Hout & Htot). simpl.
    exists (v :: vs). split; [done|]. simpl. rewrite Hv.
    split; [done|]. rewrite Htot. unfold solved_total, solved.
    rewrite filter_cons, decide_True by lia. simpl. lia.
Qed.

Lemma part2_lines_spec solve lines total count r :
  part2_lines solve lines total count = Ok r ->
  exists bts vs,
    rmap_list parse_machine_part2 (nonempty_lines lines) = Ok bts /\
    rmap_list (fun bt => solve bt.1 bt.2) bts = Ok vs /\
    r.1.1 = concat (zip_with machine_report bts vs) /\
    r.1.2 = total + solved_total vs /\
    r.2 = count + Z.of_nat (length (solved vs)).
Proof.
  revert total count r. unfold nonempty_lines.
  induction lines as [|line lines IH]; intros total count r; simpl.
  { intros [= <-]. exists [], []. simpl. unfold solved_total. simpl.
    split_and!; [done..|lia|lia]. }
  rewrite filter_cons. destruct (string_empty line) eqn:He.
  { rewrite decide_False by done. apply IH. }
  rewrite decide_True by done.
  destruct (parse_machine_part2 line) as [bt| | |] eqn:Hp; simpl; [|done..].
  destruct (solve bt.1 bt.2) as [v| | |] eqn:Hsolve; simpl; [|done..].
  destruct (v =? -1) eqn:Hv.
  - destruct (part2_lines solve lines total count) as [r'| | |] eqn:Hr';
      simpl; [|done..].
    intros [= <-]. destruct (IH _ _ _ Hr') as (bts & vs & -> & Hvs & Ho & Ht & Hc).
    exists (bt :: bts), (v :: vs). simpl. rewrite Hp, Hsolve, Hvs. simpl.
    unfold machine_report at 1. rewrite Hv, Ho, Ht, Hc.
    unfold solved_total, solved. rewrite filter_cons, decide_False by lia.
    done.
  - destruct (part2_lines solve lines (total + v) (count + 1))
      as [r'| | |] eqn:Hr'; simpl; [|done..].
    intros [= <-]. destruct (IH _ _ _ Hr') as (bts & vs & -> & Hvs & Ho & Ht & Hc).
    exists (bt :: bts), (v :: vs). simpl. rewrite Hp, Hsolve, Hvs. simpl.
    unfold machine_report at 1. rewrite Hv, Ho, Ht, Hc.
    unfold solved_total, solved. rewrite filter_cons, decide_True by lia.
    simpl. split_and!; [done..|lia|lia].
Qed.

(** C8, as far as it holds.  Of the scripts, Day 9 part 1 alone prints a
    bare integer: its standard output is the result of its loop over the
    pairs of points (the largest area) and a line end.  The other programs
    print their integers with text.  solution2.cpp prints a sentence
    without any integer when it has read fewer than four points, and
    "Part 2 Largest Area: " with the result of its loop otherwise;
    test_example.cpp prints a header, a line for each of its four
    improvements and "Max area: 24"; the button-press program prints a
    line for every machine for which minPresses returns -1 and "Fewest
    button presses: " with the sum of the other results; the Day 10
    programs print a line for the machine of every non-empty input line,
    "Total minimum presses: " with the sum of the results other than -1
    and "Processed " with the number of these results: a machine without
    a solution is reported and not counted. *)
Theorem stdout_of_scripts (fs : files) (argv : list string) (fuel : nat) :
  (forall lines, fs "input.txt"%string = Some lines ->
     out (main_part1 fs)
     = [OInt (largest_area (foldl read_point_line ([], []) lines).1); ONl] /\
     only_integers (out (main_part1 fs))) /\
  (forall lines, fs "input.txt"%string = Some lines ->
     out (main_solution2 fs)
     = (if (length (parseInput lines) <? 4)%nat
        then [OStr "Not enough points to form a polygon."; ONl]
        else [OStr "Part 2 Largest Area: ";
              OInt (fast_max_area (parseInput lines)); ONl]) /\
     ~ only_integers (out (main_solution2 fs))) /\
  (out main_test_example = test_example_output /\
   ~ only_integers (out main_test_example)) /\
  (forall r, main_buttons fuel argv fs = Ok r -> status r = 0 ->
     exists path lines ms vs,
       argv !! 1%nat = Some path /\ fs path = Some lines /\
       parse_machines lines = Ok ms /\
       rmap_list (minPresses fuel) ms = Ok vs /\
       out r = unreachable_lines vs
               ++ [OStr "Fewest button presses: "; OInt (solved_total vs); ONl] /\
       ~ only_integers (out r)) /\
  (forall solve r, main_part2 solve argv fs = Ok r -> status r = 0 ->
     exists lines bts vs,
       fs (part2_filename argv) = Some lines /\
       rmap_list parse_machine_part2 (nonempty_lines lines) = Ok bts /\
       rmap_list (fun bt => solve bt.1 bt.2) bts = Ok vs /\
       out r = concat (zip_with machine_report bts vs)
               ++ [OStr "Total minimum presses: "; OInt (solved_total vs); ONl;
                   OStr "Processed "; OInt (Z.of_nat (length (solved vs)));
                   OStr " machines"; ONl] /\
       ~ only_integers (out r)).
Proof.
  split_and!.
  - intros lines Hfs. unfold main_part1. rewrite Hfs. simpl.
    split; [done|]. split; [done|]. simpl. lia.
  - intros lines Hfs. unfold main_solution2. rewrite Hfs.
    destruct (length (parseInput lines) <? 4)%nat; simpl.
    + split; [done|]. by apply text_not_only_integers.
    + split; [done|]. by apply text_not_only_integers.
  - vm_compute. reflexivity.
  - by apply text_not_only_integers.
  - intros r. unfold main_buttons.
    destruct argv as [|prog [|path rest]]; [by intros [= <-]..|].
    destruct (fs path) as [lines|] eqn:Hfs; [|by intros [= <-]].
    destruct (parse_machines lines) as [ms| | |] eqn:Hms; simpl; [|done..].
    destruct (total_presses fuel ms 0) as [t| | |] eqn:Ht; simpl; [|done..].
    intros [= <-] _. simpl.
    destruct (total_presses_spec _ _ _ _ Ht) as (vs & Hvs & Hout & Htot).
    exists path, lines, ms, vs. rewrite Hout, Htot, Z.add_0_l.
    split_and!; [done..|].
    apply text_not_only_integers. rewrite existsb_app. simpl.
    by rewrite orb_true_r.
  - intros solve r. unfold main_part2.
    destruct (fs (part2_filename argv)) as [lines|]; [|by intros [= <-]].
    destruct (part2_lines solve lines 0 0) as [t| | |] eqn:Ht; simpl; [|done..].
    intros [= <-] _. simpl.
    destruct (part2_lines_spec _ _ _ _ _ Ht) as (bts & vs & Hb & Hvs & Ho & Htot & Hc).
    exists lines, bts, vs. rewrite Ho, Htot, Hc, !Z.add_0_l.
    split_and!; [done..|].
    apply text_not_only_integers. rewrite existsb_app. simpl.
    by rewrite orb_true_r.
Qed.

Lemma stdout_of_scripts_witness :
  out (main_part1 (one_file "input.txt" example_point_lines)) = [OInt 50; ONl] /\
  only_integers (out (main_part1 (one_file "input.txt" example_point_lines))) /\
  ~ only_integers (out (main_solution2 (one_file "input.txt" example_point_lines))).
Proof.
  pose proof (stdout_of_scripts (one_file "input.txt" example_point_lines) [] 0)
    as (H1 & H2 & _).
  destruct (H1 example_point_lines eq_refl) as [Hout Hint].
  destruct (H2 example_point_lines eq_refl) as [_ Hno].
  split; [rewrite Hout; by vm_compute|]. split; [exact Hint | exact Hno].
Defined.

(** C8 as stated fails: with fewer than four points solution2.cpp prints a
    sentence and no integer; the Day 10 programs print text and more than
    two integers. *)
Lemma stdout_not_only_integers :
  out (main_solution2 (one_file "input.txt" ["0,0"; "2,0"]%string))
  = [OStr "Not enough points to form a polygon."; ONl] /\
  ~ only_integers
      (out (main_solution2 (one_file "input.txt" ["0,0"; "2,0"]%string))) /\
  main_bounded 5 ["solution"]%string (one_file "input.txt" ["(0) {1}"]%string)
  = Ok {| out := [OStr "Machine "; OInt 1; OStr " counters, "; OInt 1;
                  OStr " buttons: "; OInt 1; OStr " presses"; ONl;
                  OStr "Total minimum presses: "; OInt 1; ONl;
                  OStr "Processed "; OInt 1; OStr " machines"; ONl];
          err := []; status := 0 |}.
Proof.
  split_and!; [by vm_compute | | by vm_compute].
  by apply text_not_only_integers.
Qed.

(** ** Further properties of the button-press program *)

Lemma listed_cons i idx btn :
  listed i (idx :: btn) =
  (if decide (idx = Z.of_nat i) then 1 else 0) + listed i btn.
Proof. unfold listed. rewrite filter_cons. case_decide; simpl; lia. Qed.

Lemma listed_nonneg i btn : 0 <= listed i btn.
Proof. unfold listed. lia. Qed.

Lemma listed_pos i btn : Z.of_nat i ∈ btn -> 0 < listed i btn.
Proof.
  induction btn as [|idx btn IH]; [by intros ?%elem_of_nil|].
  rewrite listed_cons. pose proof (listed_nonneg i btn).
  intros [<-|Hin]%elem_of_cons.
  - rewrite decide_True by done. lia.
  - apply IH in Hin. case_decide; lia.
Qed.

Lemma pressed_length s btn : length (pressed s btn) = length s.
Proof. apply length_imap. Qed.

Lemma press_pressed s btn :
  press s btn =
  if decide (Forall (fun idx => 0 <= idx < Z.of_nat (length s)) btn)
  then Ok (pressed s btn) else Undefined.
Proof.
  revert s. induction btn as [|idx btn IH]; intros s.
  - rewrite decide_True by constructor. simpl. f_equal. apply list_eq. intros i.
    unfold pressed. rewrite list_lookup_imap.
    destruct (s !! i) as [v|]; simpl; [|done]. f_equal. unfold listed. simpl. lia.
  - cbn [press].
    destruct ((0 <=? idx) && (idx <? Z.of_nat (length s))) eqn:Hr.
    + rewrite IH, length_alter.
      case_decide as Hb.
      * rewrite decide_True by (constructor; [lia | done]). f_equal.
        apply list_eq. intros i. unfold pressed. rewrite !list_lookup_imap.
        rewrite listed_cons.
        destruct (decide (idx = Z.of_nat i)) as [->|Hne].
        -- rewrite Nat2Z.id, list_lookup_alter_eq.
           destruct (s !! i) as [v|]; simpl; [|done]. f_equal. lia.
        -- rewrite list_lookup_alter_ne by lia.
           destruct (s !! i) as [v|]; simpl; [|done]. f_equal.
      * rewrite decide_False; [done|]. by intros [_ ?]%Forall_cons.
    + rewrite decide_False; [done|]. intros [? _]%Forall_cons. lia.
Qed.

(** X1.  A press adds to every counter the number of times the button
    lists its index, and is undefined exactly when the button lists an
    index that is not the index of a counter. *)
Theorem press_adds_listed s btn :
  (Forall (fun idx => 0 <= idx < Z.of_nat (length s)) btn ->
   exists s', press s btn = Ok s' /\ length s' = length s /\
     forall i v, s !! i = Some v -> s' !! i = Some (v + listed i btn)) /\
  (~ Forall (fun idx => 0 <= idx < Z.of_nat (length s)) btn ->
   press s btn = Undefined).
Proof.
  rewrite press_pressed. split; intros Hr.
  - rewrite decide_True by done. exists (pressed s btn).
    split; [done|]. split; [apply pressed_length|].
    intros i v Hv. unfold pressed. by rewrite list_lookup_imap, Hv.
  - by rewrite decide_False.
Qed.

Lemma pressed_comm s b1 b2 :
  pressed (pressed s b1) b2 = pressed (pressed s b2) b1.
Proof.
  apply list_eq. intros i. unfold pressed. rewrite !list_lookup_imap.
  destruct (s !! i) as [v|]; simpl; [|done]. f_equal. lia.
Qed.

Lemma press_seq_swap m s x y l :
  press_seq m s (x :: y :: l) = press_seq m s (y :: x :: l).
Proof.
  simpl. destruct (buttons m !! x) as [bx|], (buttons m !! y) as [by_|];
    rewrite ?press_pressed; repeat case_decide; try done;
    rewrite ?press_pressed, ?pressed_length; repeat case_decide; try done.
  by rewrite pressed_comm.
Qed.

(** X2.  The order of the presses does not matter: two sequences of presses
    that press every button equally often lead to the same counters (or are
    both undefined). *)
Theorem press_seq_permutation m s bs bs' :
  bs ≡ₚ bs' -> press_seq m s bs = press_seq m s bs'.
Proof.
  intros Hp. revert s. induction Hp as [|x l l' _ IH|x y l|l l' l'' _ IH1 _ IH2];
    intros s.
  - done.
  - simpl. destruct (buttons m !! x) as [bx|]; [|done].
    destruct (press s bx); [apply IH | done..].
  - apply press_seq_swap.
  - by rewrite IH1.
Qed.

Lemma press_seq_permutation_witness :
  [0; 1; 0]%nat ≡ₚ [1; 0; 0]%nat /\
  press_seq (Build_Machine [[0; 1]; [1]] [2; 3]) [0; 0] [0; 1; 0]%nat =
  press_seq (Build_Machine [[0; 1]; [1]] [2; 3]) [0; 0] [1; 0; 0]%nat.
Proof.
  assert ([0; 1; 0]%nat ≡ₚ [1; 0; 0]%nat) as Hp by apply perm_swap.
  split; [exact Hp|]. apply (press_seq_permutation _ _ _ _ Hp).
Defined.

Section MinPressesSound.
Variable m : Machine.
Hypothesis Hwf : wf_machine m.

Local Abbreviation start := (zeros (length (target m))).
Local Abbreviation reach := (reach (press_edge m) start).
Local Abbreviation shortest := (shortest (press_edge m) start).

(* whatever the BFS loop returns is right: a value is the shortest
   distance of the target, or it is -1 and the states seen are all the
   states that presses reach, the target not among them *)
Lemma minPresses_loop_sound fuel : forall k q dist,
  minPresses_inv m k q dist [] ->
  match minPresses_loop fuel m q dist with
  | Ok v =>
      shortest v (target m) \/
      (v = -1 /\ (forall j, ~ reach j (target m)) /\
       exists X : gset (list Z), forall j s, reach j s -> s ∈ X)
  | OutOfFuel => True
  | _ => False
  end.
Proof.
  induction fuel as [|fuel IH]; intros k q dist Hinv; [done|]. simpl.
  destruct Hinv as [Hs Hd Hq]. destruct q as [|[s c] q].
  { right. split; [done|]. split.
    - intros j. by eapply search_inv_empty.
    - exists (dom dist). intros j s. by eapply search_inv_closed. }
  destruct (inv_work _ _ _ _ _ _ _ Hs s c) as (Hin & [Hr Hmin] & _); [by left|].
  case_decide as Hgoal; [subst s; by left|].
  apply StronglySorted_inv in Hq as [Hq Hhd].
  assert (search_inv (press_edge m) start (target m) c
            ((s, c) :: q) (dom dist) []) as Hs1.
  { eapply search_inv_least; [done | by left|].
    intros s1 c1 [[= -> ->]|Hin1]%elem_of_cons; [lia|].
    eapply Forall_forall in Hhd; [|done]. done. }
  destruct (minPresses_buttons_inv m Hwf c (buttons m) s q dist)
    as (q' & dist' & -> & Hinv' & Hsz); [done | by eapply reach_length|..].
  { split; [|done..]. eapply search_inv_pop; [done| | done |].
    - intros x. by rewrite elem_of_cons.
    - apply successors_edge. }
  simpl. by eapply IH.
Qed.

Lemma minPresses_sound_graph fuel :
  match minPresses fuel m with
  | Ok v =>
      shortest v (target m) \/
      (v = -1 /\ (forall j, ~ reach j (target m)) /\
       exists X : gset (list Z), forall j s, reach j s -> s ∈ X)
  | OutOfFuel => True
  | _ => False
  end.
Proof.
  unfold minPresses. apply (minPresses_loop_sound fuel 0). split.
  - rewrite dom_insert_L, dom_empty_L, union_empty_r_L.
    apply search_inv_init.
  - intros s d. rewrite lookup_insert. case_decide; [|done].
    intros [= <-]. subst s. apply shortest_start.
  - repeat constructor.
Qed.
End MinPressesSound.

(** X3.  Whatever minPresses returns is right.  For a machine whose buttons
    list only indices of counters the BFS either is still running when the
    fuel ends, or returns the length of a shortest sequence of presses to
    the target, or returns -1 and no sequence of presses reaches the
    target; it never runs into undefined behaviour. *)
Theorem minPresses_sound m fuel :
  wf_machine m ->
  minPresses fuel m = OutOfFuel \/
  (exists d, minPresses fuel m = Ok (Z.of_nat d) /\ min_presses m d) \/
  (minPresses fuel m = Ok (-1) /\ forall bs, ~ reaches_target m bs).
Proof.
  intros Hwf. pose proof (minPresses_sound_graph m Hwf fuel) as Hs.
  destruct (minPresses fuel m) as [v| | |]; [|done..|by left]. right.
  destruct Hs as [Hv|(-> & Hno & _)].
  - left. exists (Z.to_nat v). split; [|by apply shortest_min_presses].
    f_equal. destruct Hv as [Hv _]. apply reach_nonneg in Hv. lia.
  - right. split; [done|]. intros bs Hbs. apply (Hno (Z.of_nat (length bs))).
    apply reach_press_seq. by exists bs.
Qed.

Lemma minPresses_sound_witness :
  wf_machine (Build_Machine [[0; 1]; [1]] [2; 3]) /\
  (minPresses 20 (Build_Machine [[0; 1]; [1]] [2; 3]) = OutOfFuel \/
   (exists d, minPresses 20 (Build_Machine [[0; 1]; [1]] [2; 3])
                = Ok (Z.of_nat d) /\
              min_presses (Build_Machine [[0; 1]; [1]] [2; 3]) d) \/
   (minPresses 20 (Build_Machine [[0; 1]; [1]] [2; 3]) = Ok (-1) /\
    forall bs, ~ reaches_target (Build_Machine [[0; 1]; [1]] [2; 3]) bs)).
Proof.
  assert (wf_machine (Build_Machine [[0; 1]; [1]] [2; 3])) as Hwf.
  { unfold wf_machine. simpl. repeat constructor; simpl; lia. }
  split; [exact Hwf|]. apply (minPresses_sound _ 20 Hwf).
Defined.

Lemma minPresses_buttons_empty btns s k q dist d :
  Forall (fun btn : list Z => btn = []) btns ->
  dist !! s = Some d -> d <= k + 1 ->
  minPresses_buttons btns s k q dist = Ok (q, dist).
Proof.
  intros Hall Hd Hle. induction Hall as [|btn btns -> _ IH]; [done|].
  simpl. rewrite Hd. by replace (k + 1 <? d) with false by lia.
Qed.

(** X4.  A machine all of whose buttons are empty (and a machine without
    buttons): minPresses returns 0 when the target is all zeros and -1
    otherwise, within two turns of its loop.  No press changes a counter,
    so the queue is empty after the start state. *)
Theorem minPresses_empty_buttons m fuel :
  Forall (fun btn : list Z => btn = []) (buttons m) -> (2 <= fuel)%nat ->
  minPresses fuel m
  = Ok (if decide (target m = zeros (length (target m))) then 0 else -1).
Proof.
  intros Hall Hf. destruct fuel as [|[|fuel]]; [lia..|].
  unfold minPresses. cbn [minPresses_loop].
  destruct (decide (zeros (length (target m)) = target m)) as [Heq|Hne].
  - by rewrite decide_True.
  - rewrite decide_False by done.
    erewrite minPresses_buttons_empty; [done..| |]; [apply lookup_insert_eq | lia].
Qed.

Lemma minPresses_empty_buttons_witness :
  Forall (fun btn : list Z => btn = []) (buttons (Build_Machine [[]; []] [1; 0])) /\
  (2 <= 2)%nat /\
  minPresses 2 (Build_Machine [[]; []] [1; 0]) = Ok (-1).
Proof.
  assert (Forall (fun btn : list Z => btn = [])
            (buttons (Build_Machine [[]; []] [1; 0]))) as Hall
    by (repeat constructor).
  assert (2 <= 2)%nat as Hf by lia.
  split; [exact Hall|]. split; [exact Hf|].
  exact (minPresses_empty_buttons (Build_Machine [[]; []] [1; 0]) 2 Hall Hf).
Defined.

(** ** Day 9: the rectangle programs *)

Lemma insert_by_perm {A} (key : A -> Z) a l : insert_by key a l ≡ₚ a :: l.
Proof.
  induction l as [|b l IH]; simpl; [done|].
  case_match; [done|]. rewrite IH. apply perm_swap.
Qed.

Lemma sort_by_perm {A} (key : A -> Z) l : sort_by key l ≡ₚ l.
Proof.
  induction l as [|a l IH]; simpl; [done|].
  by rewrite insert_by_perm, IH.
Qed.

Lemma insert_by_sorted {A} (key : A -> Z) a l :
  sorted_by key l -> sorted_by key (insert_by key a l).
Proof.
  unfold sorted_by. induction 1 as [|b l Hl IH Hb]; simpl.
  - repeat constructor.
  - destruct (key a <? key b) eqn:Hab.
    + constructor; [by constructor|]. constructor; [lia|].
      eapply Forall_impl; [done|]. simpl. lia.
    + constructor; [done|]. rewrite insert_by_perm. constructor; [lia | done].
Qed.

Lemma sort_by_sorted {A} (key : A -> Z) l : sorted_by key (sort_by key l).
Proof.
  induction l as [|a l IH]; simpl; [constructor|]. by apply insert_by_sorted.
Qed.

Lemma existsb_perm {A} (f : A -> bool) l l' :
  l ≡ₚ l' -> existsb f l = existsb f l'.
Proof.
  induction 1 as [|x l l' _ IH|x y l|l l' l'' _ IH1 _ IH2]; simpl.
  - done.
  - by rewrite IH.
  - by destruct (f x), (f y).
  - congruence.
Qed.

Lemma existsb_false {A} (f : A -> bool) l :
  Forall (fun x => f x = false) l -> existsb f l = false.
Proof. induction 1 as [|x l Hx _ IH]; simpl; [done|]. by rewrite Hx. Qed.

Section Checks.
Variables left right bottom top : Z.

Lemma check_a_from l :
  sorted_by vx l -> Forall (fun e => left < vx e) l ->
  check_a right bottom top l = existsb (cuts_v left right bottom top) l.
Proof.
  unfold sorted_by. induction 1 as [|e l Hl IH He]; intros Hlo; [done|].
  apply Forall_cons in Hlo as [Hlo1 Hlo]. simpl. unfold cuts_v at 1.
  destruct (right <=? vx e) eqn:Hr.
  - replace (vx e <? right) with false by lia.
    rewrite andb_false_r. simpl. symmetry. apply existsb_false.
    eapply Forall_impl; [exact He|]. intros e' He'. simpl in He'. unfold cuts_v.
    replace (vx e' <? right) with false by lia. by rewrite andb_false_r.
  - replace (left <? vx e) with true by lia.
    replace (vx e <? right) with true by lia. simpl.
    destruct ((y_min e <? top) && (bottom <? y_max e)); [done|]. by apply IH.
Qed.

Lemma check_a_sorted l :
  sorted_by vx l ->
  check_a right bottom top (upper_bound vx left l) =
  existsb (cuts_v left right bottom top) l.
Proof.
  intros Hs. induction Hs as [|e l Hl IH He]; [done|]. simpl.
  destruct (left <? vx e) eqn:Hlo.
  - apply (check_a_from (e :: l)); [by constructor|].
    constructor; [lia|]. eapply Forall_impl; [exact He|]. simpl. lia.
  - unfold cuts_v at 1. rewrite Hlo. simpl. apply IH.
Qed.

Lemma check_b_from l :
  sorted_by hy l -> Forall (fun e => bottom < hy e) l ->
  check_b left right top l = existsb (cuts_h left right bottom top) l.
Proof.
  unfold sorted_by. induction 1 as [|e l Hl IH He]; intros Hlo; [done|].
  apply Forall_cons in Hlo as [Hlo1 Hlo]. simpl. unfold cuts_h at 1.
  destruct (top <=? hy e) eqn:Hr.
  - replace (hy e <? top) with false by lia.
    rewrite andb_false_r. simpl. symmetry. apply existsb_false.
    eapply Forall_impl; [exact He|]. intros e' He'. simpl in He'. unfold cuts_h.
    replace (hy e' <? top) with false by lia. by rewrite andb_false_r.
  - replace (bottom <? hy e) with true by lia.
    replace (hy e <? top) with true by lia. simpl.
    destruct ((x_min e <? right) && (left <? x_max e)); [done|]. by apply IH.
Qed.

Lemma check_b_sorted l :
  sorted_by hy l ->
  check_b left right top (upper_bound hy bottom l) =
  existsb (cuts_h left right bottom top) l.
Proof.
  intros Hs. induction Hs as [|e l Hl IH He]; [done|]. simpl.
  destruct (bottom <? hy e) eqn:Hlo.
  - apply (check_b_from (e :: l)); [by constructor|].
    constructor; [lia|]. eapply Forall_impl; [exact He|]. simpl. lia.
  - unfold cuts_h at 1. rewrite Hlo. simpl. apply IH.
Qed.

Lemma count_ray_from l :
  Forall (fun e => right <= vx e) l ->
  count_ray bottom l =
  Z.of_nat (length (filter (fun e => ray_hit right bottom e = true) l)).
Proof.
  induction 1 as [|e l He _ IH]; [done|]. simpl. rewrite filter_cons, IH.
  assert (ray_hit right bottom e
          = (y_min e <=? bottom) && (bottom <? y_max e)) as ->.
  { unfold ray_hit. by replace (right <=? vx e) with true by lia. }
  destruct ((y_min e <=? bottom) && (bottom <? y_max e));
    case_decide; try done; simpl; lia.
Qed.

Lemma count_ray_sorted l :
  sorted_by vx l ->
  count_ray bottom (lower_bound vx right l) =
  Z.of_nat (length (filter (fun e => ray_hit right bottom e = true) l)).
Proof.
  intros Hs. induction Hs as [|e l Hl IH He]; [done|]. simpl.
  destruct (vx e <? right) eqn:Hlo.
  - rewrite filter_cons.
    assert (ray_hit right bottom e = false) as ->.
    { unfold ray_hit. by replace (right <=? vx e) with false by lia. }
    rewrite decide_False by done. apply IH.
  - apply (count_ray_from (e :: l)).
    constructor; [lia|]. eapply Forall_impl; [exact He|]. simpl. lia.
Qed.
End Checks.

Lemma fast_check_scan v_edges h_edges vs hs p q :
  vs ≡ₚ v_edges -> sorted_by vx vs ->
  hs ≡ₚ h_edges -> sorted_by hy hs ->
  fast_check vs hs p q = fast_check_all v_edges h_edges p q.
Proof.
  intros Hpv Hsv Hph Hsh. unfold fast_check, fast_check_all.
  rewrite check_a_sorted, check_b_sorted, count_ray_sorted by done.
  rewrite (existsb_perm _ _ _ Hpv), (existsb_perm _ _ _ Hph), Hpv.
  destruct (existsb _ v_edges); [done|].
  destruct (existsb _ h_edges); [done|]. simpl.
  rewrite Zmod_odd. by destruct (Z.odd _).
Qed.

(** X5.  The three checks of solution2.cpp, which scan the sorted edge
    vectors from a binary-search position and stop early, decide what their
    comments say over all edges: no vertical edge strictly between the left
    and right side overlaps the y-range, no horizontal edge strictly
    between bottom and top overlaps the x-range, and the number of vertical
    edges at the right side or beyond that cover [bottom, bottom + 1] is
    odd.  This holds for the edges as the program sorts them and for every
    other arrangement that sorting by the key can produce, so the order
    std::sort gives to edges with equal keys does not matter. *)
Theorem fast_check_sorted points p q :
  fast_check (sort_by vx (build_v_edges points))
             (sort_by hy (build_h_edges points)) p q
  = fast_check_all (build_v_edges points) (build_h_edges points) p q /\
  forall vs hs,
    vs ≡ₚ build_v_edges points -> sorted_by vx vs ->
    hs ≡ₚ build_h_edges points -> sorted_by hy hs ->
    fast_check vs hs p q
    = fast_check (sort_by vx (build_v_edges points))
                 (sort_by hy (build_h_edges points)) p q.
Proof.
  assert (fast_check (sort_by vx (build_v_edges points))
                     (sort_by hy (build_h_edges points)) p q
          = fast_check_all (build_v_edges points) (build_h_edges points) p q)
    as Hsort.
  { apply fast_check_scan;
      first [apply sort_by_perm | apply sort_by_sorted]. }
  split; [exact Hsort|].
  intros vs hs Hpv Hsv Hph Hsh. rewrite Hsort.
  by apply fast_check_scan.
Qed.

(** *** The largest area over the accepted pairs *)

Lemma foldl_pointwise {A B} (f g : B -> A -> B) l b :
  (forall b x, f b x = g b x) -> foldl f b l = foldl g b l.
Proof.
  intros Hfg. revert b. induction l as [|x l IH]; intros b; simpl; [done|].
  by rewrite Hfg, IH.
Qed.

Lemma foldl_keep_max {A} (ok : A -> bool) (area : A -> Z) l m0 :
  m0 <= foldl (keep_max ok area) m0 l /\
  (forall x, x ∈ l -> ok x = true -> area x <= foldl (keep_max ok area) m0 l) /\
  (foldl (keep_max ok area) m0 l = m0 \/
   exists x, x ∈ l /\ ok x = true /\ area x = foldl (keep_max ok area) m0 l).
Proof.
  revert m0. induction l as [|a l IH]; intros m0; simpl.
  { split; [lia|]. split; [|by left]. by intros x ?%elem_of_nil. }
  destruct (IH (keep_max ok area m0 a)) as (Hle & Hall & Hex).
  assert (m0 <= keep_max ok area m0 a) as Hm
    by (unfold keep_max; destruct (ok a); lia).
  split; [lia|]. split.
  - intros x [->|Hin]%elem_of_cons Hok; [|by apply Hall].
    unfold keep_max in Hle at 1. rewrite Hok in Hle. lia.
  - destruct Hex as [Heq|(x & Hin & Hok & Hx)].
    + rewrite Heq. unfold keep_max. destruct (ok a) eqn:Hok; [|by left].
      destruct (decide (area a <= m0)); [left; lia|].
      right. exists a. split; [by left|]. split; [done | lia].
    + right. exists x. split; [by right | done].
Qed.

Lemma elem_of_pairs {A} (l : list A) a b :
  (a, b) ∈ pairs l <->
  exists i j, (i < j)%nat /\ l !! i = Some a /\ l !! j = Some b.
Proof.
  revert a b. induction l as [|x l IH]; intros a b; simpl.
  - split; [by intros ?%elem_of_nil | by intros (? & ? & _ & ? & _)].
  - rewrite elem_of_app, IH. split.
    + intros [Hin|(i & j & Hij & Hi & Hj)].
      * apply list_elem_of_In, in_map_iff in Hin as (y & [= -> ->] & Hy).
        apply list_elem_of_In, list_elem_of_lookup in Hy as [j Hj].
        exists 0%nat, (S j). split; [lia | done].
      * exists (S i), (S j). split; [lia | done].
    + intros (i & j & Hij & Hi & Hj). destruct j as [|j]; [lia|].
      destruct i as [|i]; simpl in *.
      * left. injection Hi as ->. apply list_elem_of_In, in_map, list_elem_of_In.
        by eapply list_elem_of_lookup_2.
      * right. exists i, j. split; [lia | done].
Qed.

Lemma int32_small z : -2147483648 <= z < 2147483648 -> int32 z = z.
Proof.
  intros Hz. unfold int32, wrap. change (2 ^ (32 - 1)) with 2147483648.
  change (2 ^ 32) with 4294967296. rewrite Z.mod_small; lia.
Qed.

Lemma int64_small z :
  -9223372036854775808 <= z < 9223372036854775808 -> int64 z = z.
Proof.
  intros Hz. unfold int64, wrap. change (2 ^ (64 - 1)) with 9223372036854775808.
  change (2 ^ 64) with 18446744073709551616. rewrite Z.mod_small; lia.
Qed.

Lemma small_diff a b :
  small a -> small b -> 0 <= Z.abs (a - b) < 2147483647.
Proof. unfold small. lia. Qed.

Lemma small_product a b :
  0 <= a < 2147483647 -> 0 <= b < 2147483647 ->
  0 < (a + 1) * (b + 1) <= 4611686018427387904.
Proof. intros Ha Hb. nia. Qed.

(* with small coordinates the long long arithmetic of solution2.cpp gives
   the number of tiles *)
Lemma area_ll_small p q :
  small (px p) -> small (py p) -> small (px q) -> small (py q) ->
  area_ll p q = tile_area p q.
Proof.
  intros Hpx Hpy Hqx Hqy. unfold area_ll, tile_area.
  pose proof (small_diff _ _ Hpx Hqx) as Hx.
  pose proof (small_diff _ _ Hpy Hqy) as Hy.
  pose proof (small_product _ _ Hx Hy) as Hxy.
  rewrite (int64_small (px p - px q)) by lia.
  rewrite (int64_small (py p - py q)) by lia.
  rewrite (int64_small (Z.abs (px p - px q))) by lia.
  rewrite (int64_small (Z.abs (py p - py q))) by lia.
  rewrite (int64_small (Z.abs (px p - px q) + 1)) by lia.
  rewrite (int64_small (Z.abs (py p - py q) + 1)) by lia.
  apply int64_small. lia.
Qed.

Lemma foldl_pointwise_in {A B} (f g : B -> A -> B) l b :
  (forall b x, x ∈ l -> f b x = g b x) -> foldl f b l = foldl g b l.
Proof.
  revert b. induction l as [|x l IH]; intros b Hfg; simpl; [done|].
  rewrite Hfg by by left. apply IH. intros b0 x0 Hin. apply Hfg. by right.
Qed.

Lemma pairs_elem_of {A} (l : list A) a b :
  (a, b) ∈ pairs l -> a ∈ l /\ b ∈ l.
Proof.
  intros (i & j & _ & Hi & Hj)%elem_of_pairs.
  split; by eapply list_elem_of_lookup_2.
Qed.

Lemma fast_step_keep_max V H m pq :
  small (px pq.1) -> small (py pq.1) -> small (px pq.2) -> small (py pq.2) ->
  fast_step V H m pq =
  keep_max (fun pq => fast_check V H pq.1 pq.2)
           (fun pq => tile_area pq.1 pq.2) m pq.
Proof.
  intros H1 H2 H3 H4. unfold fast_step, keep_max.
  rewrite area_ll_small by done.
  destruct (tile_area pq.1 pq.2 <=? m) eqn:Hle.
  - destruct (fast_check _ _ _ _); lia.
  - destruct (fast_check _ _ _ _); lia.
Qed.

Lemma tile_area_pos p q : 0 < tile_area p q.
Proof. unfold tile_area. nia. Qed.

Lemma fast_max_area_bounds points :
  small_tiles points ->
  (forall pq, pq ∈ pairs points ->
     fast_check_all (build_v_edges points) (build_h_edges points) pq.1 pq.2
       = true ->
     tile_area pq.1 pq.2 <= fast_max_area points) /\
  (fast_max_area points = 0 \/
   exists pq, pq ∈ pairs points /\
     fast_check_all (build_v_edges points) (build_h_edges points) pq.1 pq.2
       = true /\
     tile_area pq.1 pq.2 = fast_max_area points).
Proof.
  intros Hsmall. unfold fast_max_area.
  set (V := sort_by vx (build_v_edges points)).
  set (H := sort_by hy (build_h_edges points)).
  assert (forall p q, fast_check V H p q
            = fast_check_all (build_v_edges points) (build_h_edges points) p q)
    as Hchk.
  { intros p q. apply fast_check_scan;
      first [apply sort_by_perm | apply sort_by_sorted]. }
  rewrite (foldl_pointwise_in (fast_step V H)
             (keep_max (fun pq => fast_check V H pq.1 pq.2)
                       (fun pq => tile_area pq.1 pq.2))).
  2: { intros b [p q] [Hp Hq]%pairs_elem_of.
       unfold small_tiles in Hsmall. rewrite Forall_forall in Hsmall.
       destruct (Hsmall p Hp), (Hsmall q Hq).
       by apply fast_step_keep_max. }
  destruct (foldl_keep_max (fun pq => fast_check V H pq.1 pq.2)
              (fun pq => tile_area pq.1 pq.2) (pairs points) 0)
    as (_ & Hall & Hex).
  split.
  - intros pq Hin Hok. apply (Hall pq Hin). by rewrite Hchk.
  - destruct Hex as [?|(pq & Hin & Hok & Ha)]; [by left|]. right.
    exists pq. by rewrite <- Hchk.
Qed.

(** X6.  On points whose coordinates are below 2^30 in absolute value (so
    that no area leaves the range of long long), solution2.cpp computes
    the largest number of tiles among the rectangles of the pairs of points
    i < j that pass the three checks, and 0 when no pair passes: skipping
    the pairs whose area does not exceed the best so far loses nothing. *)
Theorem fast_max_area_largest_accepted points :
  small_tiles points ->
  (forall i j p q, (i < j)%nat ->
     points !! i = Some p -> points !! j = Some q ->
     fast_check_all (build_v_edges points) (build_h_edges points) p q = true ->
     tile_area p q <= fast_max_area points) /\
  (fast_max_area points = 0 \/
   exists i j p q, (i < j)%nat /\
     points !! i = Some p /\ points !! j = Some q /\
     fast_check_all (build_v_edges points) (build_h_edges points) p q = true /\
     tile_area p q = fast_max_area points).
Proof.
  intros Hsmall. destruct (fast_max_area_bounds points Hsmall) as [Hall Hex].
  split.
  - intros i j p q Hij Hi Hj Hok. apply (Hall (p, q)); [|done].
    apply elem_of_pairs. by exists i, j.
  - destruct Hex as [?|([p q] & Hin & Hok & Ha)]; [by left|]. right.
    apply elem_of_pairs in Hin as (i & j & Hij & Hi & Hj).
    by exists i, j, p, q.
Qed.

Lemma example_reds_small : small_tiles example_reds.
Proof.
  unfold small_tiles, example_reds, small.
  repeat (apply Forall_cons; split; [simpl; lia|]). constructor.
Qed.

Lemma fast_max_area_largest_accepted_witness :
  small_tiles example_reds /\
  (forall i j p q, (i < j)%nat ->
     example_reds !! i = Some p -> example_reds !! j = Some q ->
     fast_check_all (build_v_edges example_reds) (build_h_edges example_reds)
       p q = true ->
     tile_area p q <= fast_max_area example_reds) /\
  (fast_max_area example_reds = 0 \/
   exists i j p q, (i < j)%nat /\
     example_reds !! i = Some p /\ example_reds !! j = Some q /\
     fast_check_all (build_v_edges example_reds) (build_h_edges example_reds)
       p q = true /\
     tile_area p q = fast_max_area example_reds).
Proof.
  split; [exact example_reds_small|].
  exact (fast_max_area_largest_accepted example_reds example_reds_small).
Defined.

Lemma brute_area p q :
  (Z.max (px p) (px q) - Z.min (px p) (px q) + 1)
  * (Z.max (py p) (py q) - Z.min (py p) (py q) + 1) = tile_area p q.
Proof.
  unfold tile_area.
  replace (Z.max (px p) (px q) - Z.min (px p) (px q))
    with (Z.abs (px p - px q)) by lia.
  by replace (Z.max (py p) (py q) - Z.min (py p) (py q))
    with (Z.abs (py p - py q)) by lia.
Qed.

Lemma brute_step_keep_max reds acc pq :
  (brute_step reds acc pq).1 =
  keep_max (fun pq => brute_check reds pq.1 pq.2)
           (fun pq => tile_area pq.1 pq.2) acc.1 pq.
Proof.
  destruct acc as [m printed]. unfold brute_step, keep_max, brute_check.
  rewrite brute_area. simpl.
  destruct (isRectangleValid _ _ _ _ _); [|done].
  destruct (m <? tile_area pq.1 pq.2) eqn:Hlt; simpl; lia.
Qed.

Lemma foldl_brute_step reds l acc :
  (foldl (brute_step reds) acc l).1 =
  foldl (keep_max (fun pq => brute_check reds pq.1 pq.2)
                  (fun pq => tile_area pq.1 pq.2)) acc.1 l.
Proof.
  revert acc. induction l as [|pq l IH]; intros acc; simpl; [done|].
  by rewrite IH, brute_step_keep_max.
Qed.

Lemma brute_max_area_bounds reds :
  (forall pq, pq ∈ pairs reds -> brute_check reds pq.1 pq.2 = true ->
     tile_area pq.1 pq.2 <= brute_max_area reds) /\
  (brute_max_area reds = 0 \/
   exists pq, pq ∈ pairs reds /\ brute_check reds pq.1 pq.2 = true /\
     tile_area pq.1 pq.2 = brute_max_area reds).
Proof.
  unfold brute_max_area. rewrite foldl_brute_step. simpl.
  destruct (foldl_keep_max (fun pq => brute_check reds pq.1 pq.2)
              (fun pq => tile_area pq.1 pq.2) (pairs reds) 0)
    as (_ & Hall & Hex).
  split; [exact Hall|].
  destruct Hex as [?|(pq & Hin & Hok & Ha)]; [by left|]. right. by exists pq.
Qed.


Lemma area_step_keep_max m pq :
  small pq.1.1 -> small pq.1.2 -> small pq.2.1 -> small pq.2.2 ->
  area_step m pq = keep_max (fun _ => true) pair_area m pq.
Proof.
  intros H1 H2 H3 H4. unfold area_step, keep_max, pair_area.
  pose proof (small_diff _ _ H1 H3) as Hx.
  pose proof (small_diff _ _ H2 H4) as Hy.
  pose proof (small_product _ _ Hx Hy) as Hxy.
  rewrite (int32_small (pq.1.1 - pq.2.1)) by lia.
  rewrite (int32_small (pq.1.2 - pq.2.2)) by lia.
  rewrite (int32_small (Z.abs (pq.1.1 - pq.2.1))) by lia.
  rewrite (int32_small (Z.abs (pq.1.2 - pq.2.2))) by lia.
  rewrite (int64_small (Z.abs (pq.1.1 - pq.2.1) + 1)) by lia.
  rewrite (int32_small (Z.abs (pq.1.2 - pq.2.2) + 1)) by lia.
  rewrite int64_small by lia.
  destruct (m <? _) eqn:Hlt; lia.
Qed.

Lemma largest_area_bounds points :
  small_points points ->
  (forall pq, pq ∈ pairs points -> pair_area pq <= largest_area points) /\
  (largest_area points = 0 \/
   exists pq, pq ∈ pairs points /\ pair_area pq = largest_area points).
Proof.
  intros Hsmall. unfold largest_area.
  rewrite (foldl_pointwise_in area_step (keep_max (fun _ => true) pair_area)).
  2: { intros b [p q] [Hp Hq]%pairs_elem_of.
       unfold small_points in Hsmall. rewrite Forall_forall in Hsmall.
       destruct (Hsmall p Hp), (Hsmall q Hq).
       by apply area_step_keep_max. }
  destruct (foldl_keep_max (fun _ => true) pair_area (pairs points) 0)
    as (_ & Hall & Hex).
  split; [intros pq Hin; by apply Hall|].
  destruct Hex as [?|(pq & Hin & _ & Ha)]; [by left|]. right. by exists pq.
Qed.

Lemma pair_area_pos pq : 0 < pair_area pq.
Proof. unfold pair_area. nia. Qed.

(** X8.  On points whose coordinates are below 2^30 in absolute value (so
    that dx, dy + 1 and the product stay within int and long long), Day 9
    part 1 computes the largest number of tiles, |dx| + 1 times |dy| + 1,
    over all pairs of points i < j: no pair has a larger area, some pair
    has that area when there are two points or more, and the result is 0
    exactly when there are fewer than two points. *)
Theorem largest_area_is_max points :
  small_points points ->
  (forall i j p q, (i < j)%nat ->
     points !! i = Some p -> points !! j = Some q ->
     pair_area (p, q) <= largest_area points) /\
  ((2 <= length points)%nat ->
   exists i j p q, (i < j)%nat /\
     points !! i = Some p /\ points !! j = Some q /\
     pair_area (p, q) = largest_area points) /\
  (largest_area points = 0 <-> (length points < 2)%nat).
Proof.
  intros Hsmall. destruct (largest_area_bounds points Hsmall) as [Hall Hex].
  assert ((2 <= length points)%nat -> 0 < largest_area points) as Hpos.
  { intros Hlen. destruct points as [|p [|q points]]; simpl in Hlen; [lia..|].
    pose proof (pair_area_pos (p, q)).
    assert (pair_area (p, q) <= largest_area (p :: q :: points)); [|lia].
    apply Hall, elem_of_pairs. exists 0%nat, 1%nat. split; [lia | done]. }
  split; [|split].
  - intros i j p q Hij Hi Hj. apply Hall, elem_of_pairs. by exists i, j.
  - intros Hlen. apply Hpos in Hlen.
    destruct Hex as [?|([p q] & Hin & Ha)]; [lia|].
    apply elem_of_pairs in Hin as (i & j & Hij & Hi & Hj).
    by exists i, j, p, q.
  - split.
    + intros H0. destruct (decide (length points < 2)%nat); [done|].
      assert (0 < largest_area points) by (apply Hpos; lia). lia.
    + intros Hlen. by destruct points as [|p [|q points]]; simpl in Hlen; [..|lia].
Qed.

Lemma largest_area_is_max_witness :
  small_points [(7, 1); (11, 1); (11, 7)] /\
  (forall i j p q, (i < j)%nat ->
     [(7, 1); (11, 1); (11, 7)] !! i = Some p ->
     [(7, 1); (11, 1); (11, 7)] !! j = Some q ->
     pair_area (p, q) <= largest_area [(7, 1); (11, 1); (11, 7)]) /\
  ((2 <= length [(7, 1); (11, 1); (11, 7)])%nat ->
   exists i j p q, (i < j)%nat /\
     [(7, 1); (11, 1); (11, 7)] !! i = Some p /\
     [(7, 1); (11, 1); (11, 7)] !! j = Some q /\
     pair_area (p, q) = largest_area [(7, 1); (11, 1); (11, 7)]) /\
  (largest_area [(7, 1); (11, 1); (11, 7)] = 0
   <-> (length [(7, 1); (11, 1); (11, 7)] < 2)%nat).
Proof.
  assert (small_points [(7, 1); (11, 1); (11, 7)]) as Hs.
  { unfold small_points, small.
    repeat (apply Forall_cons; split; [simpl; lia|]). constructor. }
  split; [exact Hs|].
  exact (largest_area_is_max [(7, 1); (11, 1); (11, 7)] Hs).
Defined.

Lemma lookup_pairs_fmap {A B} (f : A -> B) l a b :
  (a, b) ∈ pairs l -> (f a, f b) ∈ pairs (f <$> l).
Proof.
  rewrite !elem_of_pairs. intros (i & j & Hij & Hi & Hj).
  exists i, j. rewrite !list_lookup_fmap, Hi, Hj. by split.
Qed.

Lemma small_tiles_points points :
  small_tiles points -> small_points (point_xy <$> points).
Proof.
  unfold small_tiles, small_points. intros Hs. apply Forall_fmap.
  eapply Forall_impl; [exact Hs|]. by intros p.
Qed.

(* part 1 considers the rectangle of every pair of tiles *)
Lemma tile_area_le_largest points :
  small_tiles points ->
  0 <= largest_area (point_xy <$> points) /\
  forall pq, pq ∈ pairs points ->
    tile_area pq.1 pq.2 <= largest_area (point_xy <$> points).
Proof.
  intros Hsmall.
  destruct (largest_area_bounds (point_xy <$> points)
              (small_tiles_points _ Hsmall)) as [Hall Hex].
  split.
  - destruct Hex as [->|(pq & _ & <-)]; [done|].
    pose proof (pair_area_pos pq). lia.
  - intros [p q] Hin.
    by apply (Hall (point_xy p, point_xy q)), lookup_pairs_fmap.
Qed.

(** X9.  On the same points, with coordinates below 2^30 in absolute
    value, the programs of part 2 never compute a larger area than the
    program of part 1: the rectangle they pick is that of a pair of points,
    which part 1 also considers. *)
Theorem part2_at_most_part1 points :
  small_tiles points ->
  fast_max_area points <= largest_area (point_xy <$> points) /\
  brute_max_area points <= largest_area (point_xy <$> points).
Proof.
  intros Hsmall. destruct (tile_area_le_largest points Hsmall) as [H0 Hle].
  split.
  - destruct (fast_max_area_bounds points Hsmall)
      as [_ [->|(pq & Hin & _ & <-)]]; [done | by apply Hle].
  - destruct (brute_max_area_bounds points)
      as [_ [->|(pq & Hin & _ & <-)]]; [done | by apply Hle].
Qed.

Lemma part2_at_most_part1_witness :
  small_tiles example_reds /\
  fast_max_area example_reds <= largest_area (point_xy <$> example_reds) /\
  brute_max_area example_reds <= largest_area (point_xy <$> example_reds).
Proof.
  split; [exact example_reds_small|].
  exact (part2_at_most_part1 example_reds example_reds_small).
Defined.

Lemma forallb_range (f : Z -> bool) lo hi :
  forallb f (range lo hi) = true <-> forall x, lo <= x <= hi -> f x = true.
Proof.
  rewrite forallb_forall. unfold range. split.
  - intros Hall x Hx. apply Hall, list_elem_of_In, elem_of_seqZ. lia.
  - intros Hall x Hx%list_elem_of_In%elem_of_seqZ. apply Hall. lia.
Qed.

(** X10.  isRectangleValid accepts a rectangle (x1 <= x2, y1 <= y2) exactly
    when every tile of its border is a valid tile; the tiles inside the
    border are not looked at. *)
Theorem isRectangleValid_border x1 y1 x2 y2 reds :
  x1 <= x2 -> y1 <= y2 ->
  (isRectangleValid x1 y1 x2 y2 reds = true <->
   forall x y, on_border x1 y1 x2 y2 x y -> isValidTile x y reds = true).
Proof.
  intros Hx Hy. unfold isRectangleValid, on_border.
  rewrite !andb_true_iff, !forallb_range. split.
  - intros [[[Htop Hbot] Hleft] Hright] x y (Hxr & Hyr & Hside).
    destruct (decide (y = y1)) as [->|?]; [by apply Htop|].
    destruct (decide (y = y2)) as [->|?]; [by apply Hbot|].
    destruct Hside as [->|[->|[?|?]]]; [apply Hleft|apply Hright|done..]; lia.
  - intros Hall. repeat split; intros z Hz; apply Hall; lia.
Qed.

Lemma isRectangleValid_border_witness :
  7 <= 11 /\ 1 <= 7 /\
  (isRectangleValid 7 1 11 7 example_reds = true <->
   forall x y, on_border 7 1 11 7 x y -> isValidTile x y example_reds = true).
Proof.
  assert (7 <= 11) as Hx by lia. assert (1 <= 7) as Hy by lia.
  split; [exact Hx|]. split; [exact Hy|].
  apply (isRectangleValid_border 7 1 11 7 example_reds Hx Hy).
Defined.

(** *** Doubles *)

Lemma round_double_zero q : Qnum q = 0 -> round_double q = 0%Q.
Proof.
  intros Hq. unfold round_double. rewrite Hq. simpl Z.abs.
  by rewrite Z.mul_0_l, Zdiv_0_l.
Qed.

(* an integer below 2^53 in absolute value is a double: rounding leaves it
   as it is *)
Lemma round_double_int q z :
  (q == inject_Z z)%Q -> exact_double z ->
  (round_double q == inject_Z z)%Q.
Proof.
  destruct q as [n d]. unfold Qeq, exact_double. simpl. rewrite Z.mul_1_r.
  intros -> Hz.
  destruct (decide (z = 0)) as [->|Hz0]; [by rewrite round_double_zero|].
  unfold round_double. cbn [Qnum Qden].
  assert (0 < Z.pos d) as Hd by lia.
  assert (Z.abs (z * Z.pos d) = Z.abs z * Z.pos d) as -> by lia.
  assert (0 < Z.abs z) as Hpos by lia.
  assert (Z.abs z * Z.pos d * 2 ^ 1100 / Z.pos d = Z.abs z * 2 ^ 1100) as ->.
  { replace (Z.abs z * Z.pos d * 2 ^ 1100)
      with (Z.abs z * 2 ^ 1100 * Z.pos d) by ring.
    apply Z.div_mul. lia. }
  assert (0 < 2 ^ 1100) as Hp by (apply Z.pow_pos_nonneg; lia).
  replace (Z.abs z * 2 ^ 1100 =? 0) with false by (symmetry; apply Z.eqb_neq; nia).
  rewrite Z.log2_mul_pow2 by lia.
  pose proof (Z.log2_nonneg (Z.abs z)) as Hl0.
  assert (Z.log2 (Z.abs z) < 53) as Hl.
  { apply Z.log2_lt_pow2; [done|]. change (2 ^ 53) with 9007199254740992. lia. }
  set (k := 52 - Z.log2 (Z.abs z)).
  replace (Z.max (1100 + Z.log2 (Z.abs z) - 1100 - 52) (-1074)) with (- k)
    by (unfold k; lia).
  assert (0 <= k) as Hk by (unfold k; lia).
  assert (Z.sgn (z * Z.pos d) = Z.sgn z) as -> by (destruct z; done).
  assert (0 < 2 ^ k) as Hpk by (by apply Z.pow_pos_nonneg).
  destruct (0 <=? - k) eqn:He.
  - assert (k = 0) as -> by lia. simpl (- 0). rewrite Z.pow_0_r, !Z.mul_1_r.
    rewrite Z.div_mul, Z_mod_mult by lia.
    replace ((Z.pos d <? 2 * 0) || (Z.pos d =? 2 * 0) && Z.odd (Z.abs z))
      with false by lia.
    unfold Qeq. simpl. f_equal. lia.
  - rewrite Z.opp_involutive.
    replace (Z.abs z * Z.pos d * 2 ^ k) with (Z.abs z * 2 ^ k * Z.pos d) by ring.
    rewrite Z.div_mul, Z_mod_mult by lia.
    replace ((Z.pos d <? 2 * 0) || (Z.pos d =? 2 * 0)
                                   && Z.odd (Z.abs z * 2 ^ k))
      with false by lia.
    unfold Qeq. simpl. rewrite Z2Pos.id by done. lia.
Qed.

Lemma x_intersect_vertical x1 y1 y2 testy testx :
  exact_double x1 -> exact_double testx ->
  Qle_bool (x_intersect x1 y1 x1 y2 testy) (double_of_ll testx)
  = (x1 <=? testx).
Proof.
  intros Hx Ht.
  assert (x_intersect x1 y1 x1 y2 testy == inject_Z x1)%Q as Heq.
  { unfold x_intersect. rewrite Z.sub_diag.
    assert (double_of_ll (int64 0) = 0%Q) as -> by by apply round_double_zero.
    rewrite (round_double_zero (0 * double_of_ll (int64 (testy - y1)))%Q)
      by done.
    rewrite (round_double_zero (0 / double_of_ll (int64 (y2 - y1)))%Q)
      by done.
    apply round_double_int; [|done].
    rewrite Qplus_0_r. by apply round_double_int. }
  assert (double_of_ll testx == inject_Z testx)%Q as Heqt
    by by apply round_double_int.
  destruct (x1 <=? testx) eqn:Hle.
  - apply Qle_bool_iff. rewrite Heq, Heqt, <- Zle_Qle. lia.
  - apply not_true_is_false. intros Hq%Qle_bool_iff.
    rewrite Heq, Heqt, <- Zle_Qle in Hq. lia.
Qed.

Lemma winding_count testx testy l w :
  exact_double testx ->
  Forall (fun e : Point * Point =>
            (px e.1 = px e.2 \/ py e.1 = py e.2) /\ exact_double (px e.1)) l ->
  foldl (fun (winding : Z) '(p1, p2) =>
           let x1 := px p1 in let y1 := py p1 in
           let x2 := px p2 in let y2 := py p2 in
           if ((y1 <=? testy) && (testy <? y2)) || ((testy <? y1) && (y2 <=? testy))
           then
             if negb (Qle_bool (x_intersect x1 y1 x2 y2 testy)
                               (double_of_ll testx))
             then winding + 1 else winding
           else winding) w l =
  w + Z.of_nat (length (filter (fun e => right_of testx testy e = true) l)).
Proof.
  intros Ht Hl. revert w.
  induction Hl as [|[p1 p2] l [He Hex] _ IH]; intros w; simpl.
  { lia. }
  rewrite IH, filter_cons. simpl in He, Hex.
  assert (right_of testx testy (p1, p2) =
          (((py p1 <=? testy) && (testy <? py p2))
           || ((testy <? py p1) && (py p2 <=? testy)))
          && negb (Qle_bool (x_intersect (px p1) (py p1) (px p2) (py p2) testy)
                            (double_of_ll testx))) as ->.
  { unfold right_of. simpl. destruct He as [Hv|Hh].
    - rewrite <- Hv, x_intersect_vertical, Z.eqb_refl by done. simpl. lia.
    - rewrite Hh.
      replace (((py p2 <=? testy) && (testy <? py p2))
               || ((testy <? py p2) && (py p2 <=? testy))) with false by lia.
      simpl. lia. }
  destruct (_ || _); simpl; [|try case_decide; try done; lia].
  destruct (negb _); simpl; try case_decide; try done; simpl; lia.
Qed.

Lemma edges_of_endpoints (P : Point -> Prop) reds :
  Forall P reds -> Forall (fun e : Point * Point => P e.1) (edges_of reds).
Proof.
  intros Hall. apply Forall_forall. intros [p1 p2] Hin. simpl.
  rewrite Forall_forall in Hall. apply Hall.
  unfold edges_of in Hin. by apply elem_of_zip_l in Hin.
Qed.

(** X11.  For a polygon whose edges are all vertical or horizontal and
    whose x coordinates, like testx, are below 2^53 in absolute value (so
    that the doubles hold them exactly), isInsidePolygon(testx, testy) is
    the parity of the number of vertical edges strictly to the right of
    testx whose y-range, closed below and open above, holds testy: the
    intersection computed in double is the x of the edge, and horizontal
    edges never count. *)
Theorem isInsidePolygon_rectilinear testx testy reds :
  rectilinear reds ->
  Forall (fun p => exact_double (px p)) reds -> exact_double testx ->
  isInsidePolygon testx testy reds =
  Z.odd (Z.of_nat (length (filter (fun e => right_of testx testy e = true)
                                  (edges_of reds)))).
Proof.
  intros Hr Hx Ht.
  assert (Forall (fun e : Point * Point =>
                    (px e.1 = px e.2 \/ py e.1 = py e.2)
                    /\ exact_double (px e.1)) (edges_of reds)) as Hedges.
  { apply Forall_and. split; [exact Hr|].
    by apply (edges_of_endpoints (fun p => exact_double (px p))). }
  unfold isInsidePolygon. rewrite (winding_count _ _ _ _ Ht Hedges).
  rewrite Z.add_0_l, Z.rem_mod_nonneg, Zmod_odd by lia.
  by destruct (Z.odd _).
Qed.

Lemma isInsidePolygon_rectilinear_witness :
  rectilinear example_reds /\
  Forall (fun p => exact_double (px p)) example_reds /\ exact_double 8 /\
  isInsidePolygon 8 4 example_reds =
  Z.odd (Z.of_nat (length (filter (fun e => right_of 8 4 e = true)
                                  (edges_of example_reds)))).
Proof.
  assert (rectilinear example_reds) as Hr.
  { unfold rectilinear. simpl.
    repeat (apply Forall_cons; split;
            [simpl; first [by left | by right]|]).
    constructor. }
  assert (Forall (fun p => exact_double (px p)) example_reds) as Hx.
  { unfold example_reds, exact_double.
    repeat (apply Forall_cons; split; [simpl; lia|]). constructor. }
  assert (exact_double 8) as Ht by (unfold exact_double; lia).
  split; [exact Hr|]. split; [exact Hx|]. split; [exact Ht|].
  apply (isInsidePolygon_rectilinear 8 4 _ Hr Hx Ht).
Defined.

(** ** The Day 10 solvers on every machine and with every cap *)

Lemma times_pressed_snoc b bs b' :
  times_pressed b (bs ++ [b']) =
  times_pressed b bs + (if decide (b' = b) then 1 else 0).
Proof.
  unfold times_pressed. rewrite filter_app, length_app, filter_cons, filter_nil.
  case_decide; simpl; lia.
Qed.

Lemma times_pressed_notin b bs : b ∉ bs -> times_pressed b bs = 0.
Proof.
  unfold times_pressed. induction bs as [|b' bs IH]; [done|].
  intros Hnin. apply not_elem_of_cons in Hnin as [Hne Hnin].
  rewrite filter_cons, decide_False by done. by apply IH.
Qed.

Lemma press_path_snoc btns targets s bs b :
  press_path btns targets s (bs ++ [b]) =
  s' ← press_path btns targets s bs;
  btn ← btns !! b; valid_press targets s' btn.
Proof.
  revert s. induction bs as [|b0 bs IH]; intros s; simpl.
  - destruct (btns !! b) as [btn|]; [|done]. simpl.
    by destruct (valid_press targets s btn).
  - destruct (btns !! b0) as [btn|]; [|done].
    destruct (valid_press targets s btn); [apply IH | done].
Qed.

Lemma press_path_lt btns targets s bs s' b :
  press_path btns targets s bs = Some s' -> b ∈ bs -> (b < length btns)%nat.
Proof.
  revert s. induction bs as [|b0 bs IH]; intros s; simpl;
    [by intros _ ?%elem_of_nil|].
  destruct (btns !! b0) as [btn|] eqn:Hb0; [|done].
  destruct (valid_press targets s btn) as [s1|]; [|done].
  intros Hp [->|Hin]%elem_of_cons; [by eapply lookup_lt_Some | by eapply IH].
Qed.

Lemma apply_button_result targets s btn :
  (exists r, apply_button targets s btn = Ok r) \/
  apply_button targets s btn = Undefined.
Proof.
  revert s. induction btn as [|idx btn IH]; intros s; simpl; [left; by eexists|].
  repeat case_match; eauto.
Qed.

Section AnyCap.
Variables (btns : list (list Z)) (targets : list Z) (cap : Z).
Hypothesis Hwf : wf_buttons btns.

Local Abbreviation start := (zeros (length targets)).
Local Abbreviation item_ok := (item_ok btns targets cap).
Local Abbreviation found := (presses_found btns targets cap).

Lemma item_ok_start : item_ok start 0 (zeros (length btns)).
Proof.
  split; [apply in_bounds_zeros|]. split; [apply zeros_length|].
  exists []. split; [done|]. split; [done|].
  intros b c Hc. apply lookup_replicate in Hc as [-> _].
  unfold times_pressed. simpl. lia.
Qed.

Lemma item_ok_nonneg s p counts : item_ok s p counts -> 0 <= p.
Proof. intros (_ & _ & bs & _ & <- & _). lia. Qed.

Lemma item_ok_found p counts : item_ok targets p counts -> found p.
Proof.
  intros (_ & Hlen & bs & Hp & Hl & Hc). exists bs. split; [done|].
  split; [done|]. intros b.
  destruct (counts !! b) as [c|] eqn:Hb.
  - destruct (Hc b c Hb) as [<- ?]. done.
  - rewrite times_pressed_notin; [lia|]. intros Hin.
    eapply press_path_lt in Hin; [|done].
    apply lookup_ge_None in Hb. lia.
Qed.

Lemma item_ok_push s p counts b btn c s' :
  item_ok s p counts -> btns !! b = Some btn -> counts !! b = Some c ->
  (cap <=? c) = false -> apply_button targets s btn = Ok (Some s') ->
  item_ok s' (p + 1) (alter Z.succ b counts).
Proof.
  intros (Hs & Hlen & bs & Hp & Hl & Hc) Hb Hcb Hcap Hrun.
  split; [by eapply apply_button_bounds|].
  split; [by rewrite length_alter|].
  exists (bs ++ [b]). rewrite press_path_snoc, Hp, length_app. simpl.
  rewrite Hb. simpl. unfold valid_press. rewrite Hrun.
  split; [done|]. split; [lia|].
  intros b0 c0. rewrite times_pressed_snoc.
  destruct (decide (b = b0)) as [<-|Hne].
  - rewrite list_lookup_alter_eq, Hcb. simpl. intros [= <-].
    destruct (Hc b c Hcb) as [<- ?]. lia.
  - rewrite list_lookup_alter_ne by done. intros Hc0.
    destruct (Hc b0 c0 Hc0) as [<- ?]. lia.
Qed.

Lemma item_ok_defined s p counts btn :
  item_ok s p counts -> btn ∈ btns ->
  exists r, apply_button targets s btn = Ok r.
Proof.
  intros (Hs & _) Hin. apply apply_button_defined.
  - by eapply Forall_forall in Hwf.
  - by apply in_bounds_length.
Qed.

(** *** The bounded BFS *)

Lemma bounded_buttons_total rest idx s p counts q visited :
  (forall j btn, rest !! j = Some btn -> btns !! (idx + j)%nat = Some btn) ->
  item_ok s p counts ->
  (forall s1 p1 c1, (s1, p1, c1) ∈ q -> item_ok s1 p1 c1) ->
  (forall s1, s1 ∈ visited -> in_bounds targets s1) ->
  exists q' visited',
    bounded_buttons targets cap rest idx s p counts q visited
      = Ok (q', visited') /\
    (forall s1 p1 c1, (s1, p1, c1) ∈ q' -> item_ok s1 p1 c1) /\
    (forall s1, s1 ∈ visited' -> in_bounds targets s1) /\
    (length q' + size visited = length q + size visited')%nat.
Proof.
  intros Hrest Hit. revert idx q visited Hrest.
  induction rest as [|btn rest IH]; intros idx q visited Hrest Hq Hv; simpl.
  { by exists q, visited. }
  assert (btns !! idx = Some btn) as Hb.
  { rewrite <-(Nat.add_0_r idx). by apply Hrest. }
  assert (forall j btn0, rest !! j = Some btn0 ->
            btns !! (S idx + j)%nat = Some btn0) as Hrest'.
  { intros j btn0 Hj. replace (S idx + j)%nat with (idx + S j)%nat by lia.
    by apply Hrest. }
  destruct (lookup_lt_is_Some_2 counts idx) as [c Hc].
  { destruct Hit as (_ & -> & _). by eapply lookup_lt_Some. }
  rewrite Hc. destruct (cap <=? c) eqn:Hcmp; [by apply IH|].
  destruct (item_ok_defined s p counts btn Hit) as [r Hrun];
    [by eapply list_elem_of_lookup_2|].
  rewrite Hrun. simpl. destruct r as [s'|]; [|by apply IH].
  case_decide as Hin; [by apply IH|].
  pose proof (item_ok_push _ _ _ _ _ _ _ Hit Hb Hc Hcmp Hrun) as Hit'.
  destruct (IH (S idx) (q ++ [(s', p + 1, alter Z.succ idx counts)])
              ({[s']} ∪ visited) Hrest')
    as (q' & visited' & Hrun' & Hq' & Hv' & Hsz).
  - intros s1 p1 c1 [?|[= -> -> ->]%list_elem_of_singleton]%elem_of_app;
      [by apply Hq | done].
  - intros s1 [->%elem_of_singleton|?]%elem_of_union; [|by apply Hv].
    by destruct Hit' as [? _].
  - exists q', visited'. split; [done|]. split; [done|]. split; [done|].
    rewrite size_union, size_singleton, length_app in Hsz by set_solver.
    simpl in Hsz. lia.
Qed.

Lemma bounded_loop_total fuel : forall n q visited best,
  (forall s1 p1 c1, (s1, p1, c1) ∈ q -> item_ok s1 p1 c1) ->
  (forall s1, s1 ∈ visited -> in_bounds targets s1) ->
  best = INT_MAX \/ found best ->
  (length q + length (box targets) <= size visited + n)%nat ->
  (n < fuel)%nat ->
  exists v, bounded_loop fuel btns targets cap (q, visited, best) = Ok v /\
    (v = -1 \/ found v).
Proof.
  induction fuel as [|fuel IH]; intros n q visited best Hq Hv Hbest Hn Hf;
    [lia|].
  assert (size visited <= length (box targets))%nat as Hbox.
  { apply size_le_length. intros s Hs. by apply in_bounds_box, Hv. }
  cbn [bounded_loop bounded_step].
  destruct q as [|[[s p] counts] q].
  { simpl. eexists. split; [done|]. case_decide; [|by left].
    destruct Hbest; [done | by right]. }
  assert (item_ok s p counts) as Hit by (apply Hq; by left).
  assert (forall s1 p1 c1, (s1, p1, c1) ∈ q -> item_ok s1 p1 c1) as Hq'
    by (intros ? ? ? ?; apply Hq; by right).
  simpl in Hn. case_decide as Hgoal.
  - simpl. apply (IH (n - 1)%nat); [done | done | | lia | lia].
    subst s. destruct (Z.min_spec best p) as [[_ ->]|[_ ->]]; [done|].
    right. by eapply item_ok_found.
  - destruct (best <=? p).
    + simpl. apply (IH (n - 1)%nat); [done | done | done | lia | lia].
    + destruct (bounded_buttons_total btns 0 s p counts q visited)
        as (q1 & visited1 & -> & Hq1 & Hv1 & Hsz); [done..|].
      simpl. apply (IH (n - 1)%nat); [done | done | done | lia | lia].
Qed.


(** *** The Dijkstra search *)

Lemma dijkstra_buttons_total rest idx s cost counts pq min_cost :
  (forall j btn, rest !! j = Some btn -> btns !! (idx + j)%nat = Some btn) ->
  item_ok s cost counts ->
  (forall c1 s1 n1, (c1, s1, n1) ∈ pq ->
     item_ok s1 c1 n1 /\ cost <= c1 <= cost + 1) ->
  (forall s1, s1 ∈ dom min_cost -> in_bounds targets s1) ->
  (forall s1 d, min_cost !! s1 = Some d -> d <= cost + 1) ->
  exists pq' min_cost',
    dijkstra_buttons targets cap rest idx s cost counts pq min_cost
      = Ok (pq', min_cost') /\
    (forall c1 s1 n1, (c1, s1, n1) ∈ pq' ->
       item_ok s1 c1 n1 /\ cost <= c1 <= cost + 1) /\
    (forall s1, s1 ∈ dom min_cost' -> in_bounds targets s1) /\
    (forall s1 d, min_cost' !! s1 = Some d -> d <= cost + 1) /\
    (length pq' + size (dom min_cost) = length pq + size (dom min_cost'))%nat.
Proof.
  intros Hrest Hit. revert idx pq min_cost Hrest.
  induction rest as [|btn rest IH]; intros idx pq min_cost Hrest Hq Hv Hd;
    simpl.
  { by exists pq, min_cost. }
  assert (btns !! idx = Some btn) as Hb.
  { rewrite <-(Nat.add_0_r idx). by apply Hrest. }
  assert (forall j btn0, rest !! j = Some btn0 ->
            btns !! (S idx + j)%nat = Some btn0) as Hrest'.
  { intros j btn0 Hj. replace (S idx + j)%nat with (idx + S j)%nat by lia.
    by apply Hrest. }
  destruct (lookup_lt_is_Some_2 counts idx) as [c Hc].
  { destruct Hit as (_ & -> & _). by eapply lookup_lt_Some. }
  rewrite Hc. destruct (cap <=? c) eqn:Hcmp; [by apply IH|].
  destruct (item_ok_defined s cost counts btn Hit) as [r Hrun];
    [by eapply list_elem_of_lookup_2|].
  rewrite Hrun. simpl. destruct r as [s'|]; [|by apply IH].
  pose proof (item_ok_push _ _ _ _ _ _ _ Hit Hb Hc Hcmp Hrun) as Hit'.
  destruct (min_cost !! s') as [old|] eqn:Hlk.
  - replace (cost + 1 <? old) with false by (apply Hd in Hlk; lia).
    by apply IH.
  - destruct (IH (S idx) ((cost + 1, s', alter Z.succ idx counts) :: pq)
                (<[s' := cost + 1]> min_cost) Hrest')
      as (pq' & mc' & Hrun' & Hq' & Hv' & Hd' & Hsz).
    + intros c1 s1 n1 [[= -> -> ->]|?]%elem_of_cons; [|by apply Hq].
      split; [done | lia].
    + intros s1. rewrite dom_insert_L.
      intros [->%elem_of_singleton|?]%elem_of_union; [|by apply Hv].
      by destruct Hit' as [? _].
    + intros s1 d. rewrite lookup_insert. case_decide; [|by apply Hd].
      intros [= <-]. lia.
    + exists pq', mc'. split; [done|]. split; [done|]. split; [done|].
      split; [done|].
      assert (s' ∉ dom min_cost) as Hnin by by apply not_elem_of_dom.
      rewrite dom_insert_L, size_union, size_singleton in Hsz
        by by apply disjoint_singleton_l.
      simpl in Hsz. lia.
Qed.

Lemma dijkstra_loop_total fuel : forall n k pq min_cost,
  0 <= k ->
  (forall c1 s1 n1, (c1, s1, n1) ∈ pq ->
     item_ok s1 c1 n1 /\ k <= c1 <= k + 1) ->
  (forall s1, s1 ∈ dom min_cost -> in_bounds targets s1) ->
  (forall s1 d, min_cost !! s1 = Some d -> d <= k + 1) ->
  (length pq + length (box targets) <= size (dom min_cost) + n)%nat ->
  (n < fuel)%nat ->
  exists v, dijkstra_loop fuel btns targets cap (pq, min_cost) = Ok v /\
    (v = -1 \/ found v).
Proof.
  induction fuel as [|fuel IH]; intros n k pq min_cost Hk Hq Hv Hd Hn Hf;
    [lia|].
  cbn [dijkstra_loop dijkstra_step].
  destruct (pq_pop pq) as [[[[c s] counts] pq']|] eqn:Hpop;
    [|simpl; eexists; split; [done | by left]].
  destruct (pq_pop_spec _ _ _ Hpop) as (Hmem & Hlen & Hleast).
  destruct (Hq c s counts) as [Hit Hck]; [apply Hmem; by left|].
  assert (forall c1 s1 n1, (c1, s1, n1) ∈ pq' ->
            item_ok s1 c1 n1 /\ c <= c1 <= c + 1) as Hq'.
  { intros c1 s1 n1 Hin.
    destruct (Hq c1 s1 n1) as [? ?]; [apply Hmem; by right|].
    split; [done|].
    assert (pq_cost (c, s, counts) <= pq_cost (c1, s1, n1)) as Hle
      by (apply Hleast, Hmem; by right).
    unfold pq_cost in Hle. simpl in Hle. lia. }
  set (km := map_index min_cost s).
  assert (km.1 <= k + 1 /\
          (forall s1, s1 ∈ dom km.2 -> in_bounds targets s1) /\
          (forall s1 d, km.2 !! s1 = Some d -> d <= k + 1) /\
          (size (dom min_cost) <= size (dom km.2))%nat) as (Hkn & Hv1 & Hd1 & Hsz1).
  { subst km. unfold map_index. destruct (min_cost !! s) as [d|] eqn:Hlk; simpl.
    - split; [by eapply Hd|]. done.
    - split; [lia|]. split; [|split].
      + intros s1. rewrite dom_insert_L.
        intros [->%elem_of_singleton|?]%elem_of_union; [|by apply Hv].
        by destruct Hit as [? _].
      + intros s1 d. rewrite lookup_insert. case_decide; [|by apply Hd].
        intros [= <-]. lia.
      + rewrite dom_insert_L. apply subseteq_size, union_subseteq_r. }
  assert (size (dom km.2) <= length (box targets))%nat as Hbox.
  { apply size_le_length. intros s1 Hs1. by apply in_bounds_box, Hv1. }
  destruct km as [known mc1] eqn:Hkm. simpl in *.
  destruct (known <? c) eqn:Hkc.
  - simpl. apply (IH (n - 1)%nat k); [done| |done|done|lia|lia].
    intros c1 s1 n1 Hin. apply Hq, Hmem. by right.
  - case_decide as Hgoal.
    + simpl. eexists. split; [done|]. right. subst s. by eapply item_ok_found.
    + destruct (dijkstra_buttons_total btns 0 s c counts pq' mc1)
        as (pq1 & mc2 & -> & Hq1 & Hv2 & Hd2 & Hsz); [done..| |].
      { intros s1 d Hs1. apply Hd1 in Hs1. lia. }
      assert (size (dom mc2) <= length (box targets))%nat as Hbox2.
      { apply size_le_length. intros s1 Hs1. by apply in_bounds_box, Hv2. }
      simpl. apply (IH (n - 1)%nat c); [lia|done|done|done|lia|lia].
Qed.

End AnyCap.

(** X12.  The bounded BFS of solution_part2.cpp returns on every machine
    whose buttons list no negative index, whatever the cap: pruning keeps
    the states within the targets, so the loop ends after at most as many
    turns as there are counter vectors within the targets.  What it returns
    is -1 or the length of a real sequence of presses from the all-zero
    counters to the targets in which no press takes a counter past its
    target and no button is pressed more often than the cap allows. *)
Theorem bounded_returns_real_presses btns targets cap fuel :
  wf_buttons btns -> (length (box targets) < fuel)%nat ->
  exists v, solve_machine_part2_bounded_with cap fuel btns targets = Ok v /\
    (v = -1 \/ presses_found btns targets cap v).
Proof.
  intros Hwf Hf. unfold solve_machine_part2_bounded_with, bounded_init.
  apply (bounded_loop_total btns targets cap Hwf fuel (length (box targets)));
    [| |by left| |done].
  - intros s1 p1 c1 [= -> -> ->]%list_elem_of_singleton. apply item_ok_start.
  - intros s1 ->%elem_of_singleton. apply in_bounds_zeros.
  - rewrite size_singleton. simpl. lia.
Qed.

Lemma bounded_returns_real_presses_witness :
  wf_buttons [[0; 1]; [1]] /\ (length (box [2; 3]%Z) < 13)%nat /\
  exists v, solve_machine_part2_bounded_with 50 13 [[0; 1]; [1]] [2; 3] = Ok v /\
    (v = -1 \/ presses_found [[0; 1]; [1]] [2; 3] 50 v).
Proof.
  assert (wf_buttons [[0; 1]; [1]]) as Hwf.
  { unfold wf_buttons. repeat constructor; lia. }
  assert (length (box [2; 3]%Z) < 13)%nat as Hf by (simpl; lia).
  split; [exact Hwf|]. split; [exact Hf|].
  apply (bounded_returns_real_presses _ _ 50 _ Hwf Hf).
Defined.

(** X13.  The Dijkstra search of solution_part2_dijkstra.cpp returns on
    every machine whose buttons list no negative index, whatever the cap,
    within as many turns as there are counter vectors within the targets:
    every item of the priority queue costs at most one more than the item
    popped, so no state is put in the queue twice.  What it returns is -1
    or the length of a real sequence of presses to the targets in which no
    press takes a counter past its target and no button is pressed more
    often than the cap allows. *)
Theorem dijkstra_returns_real_presses btns targets cap fuel :
  wf_buttons btns -> (length (box targets) < fuel)%nat ->
  exists v, solve_machine_part2_dijkstra_with cap fuel btns targets = Ok v /\
    (v = -1 \/ presses_found btns targets cap v).
Proof.
  intros Hwf Hf. unfold solve_machine_part2_dijkstra_with, dijkstra_init.
  apply (dijkstra_loop_total btns targets cap Hwf fuel (length (box targets)) 0);
    [done| | | | |done].
  - intros c1 s1 n1 [= -> -> ->]%list_elem_of_singleton.
    split; [apply item_ok_start | lia].
  - intros s1. rewrite dom_insert_L, dom_empty_L, union_empty_r_L.
    intros ->%elem_of_singleton. apply in_bounds_zeros.
  - intros s1 d. rewrite lookup_insert. case_decide; [|done].
    intros [= <-]. lia.
  - rewrite dom_insert_L, dom_empty_L, union_empty_r_L, size_singleton.
    simpl. lia.
Qed.

Lemma dijkstra_returns_real_presses_witness :
  wf_buttons [[0; 1]; [1]] /\ (length (box [2; 3]%Z) < 13)%nat /\
  exists v, solve_machine_part2_dijkstra_with 100 13 [[0; 1]; [1]] [2; 3] = Ok v /\
    (v = -1 \/ presses_found [[0; 1]; [1]] [2; 3] 100 v).
Proof.
  assert (wf_buttons [[0; 1]; [1]]) as Hwf.
  { unfold wf_buttons. repeat constructor; lia. }
  assert (length (box [2; 3]%Z) < 13)%nat as Hf by (simpl; lia).
  split; [exact Hwf|]. split; [exact Hf|].
  apply (dijkstra_returns_real_presses _ _ 100 _ Hwf Hf).
Defined.

(** *** What one press of the solvers does *)

Lemma pressed_alter s idx btn :
  0 <= idx ->
  pressed (alter Z.succ (Z.to_nat idx) s) btn = pressed s (idx :: btn).
Proof.
  intros Hidx. apply list_eq. intros i. unfold pressed.
  rewrite !list_lookup_imap, listed_cons.
  destruct (decide (idx = Z.of_nat i)) as [->|Hne].
  - rewrite Nat2Z.id, list_lookup_alter_eq.
    destruct (s !! i) as [v|]; simpl; [|done]. f_equal. lia.
  - rewrite list_lookup_alter_ne by lia.
    destruct (s !! i) as [v|]; simpl; [|done]. f_equal.
Qed.

Lemma pressed_skip s idx btn :
  Z.of_nat (length s) <= idx -> pressed s (idx :: btn) = pressed s btn.
Proof.
  intros Hidx. apply list_eq. intros i. unfold pressed.
  rewrite !list_lookup_imap, listed_cons.
  destruct (s !! i) as [v|] eqn:Hi; simpl; [|done].
  apply lookup_lt_Some in Hi. rewrite decide_False by lia. f_equal.
Qed.

Lemma apply_button_fits targets btn : forall s,
  length s = length targets -> Forall (fun idx => 0 <= idx) btn ->
  (fits targets s btn /\
   apply_button targets s btn = Ok (Some (pressed s btn))) \/
  (~ fits targets s btn /\ apply_button targets s btn = Ok None).
Proof.
  induction btn as [|idx btn IH]; intros s Hlen Hwf.
  { left. split.
    - intros i v t _ _. unfold listed. simpl. lia.
    - simpl. do 2 f_equal. apply list_eq. intros i. unfold pressed.
      rewrite list_lookup_imap. destruct (s !! i); simpl; [|done].
      f_equal. unfold listed. simpl. lia. }
  apply Forall_cons in Hwf as [Hidx Hwf]. cbn [apply_button].
  destruct (idx <? Z.of_nat (length targets)) eqn:Hlt.
  - replace (0 <=? idx) with true by lia.
    destruct (lookup_lt_is_Some_2 s (Z.to_nat idx)) as [v0 Hv0]; [lia|].
    destruct (lookup_lt_is_Some_2 targets (Z.to_nat idx)) as [t0 Ht0]; [lia|].
    rewrite list_lookup_alter_eq, Hv0, Ht0. simpl.
    assert (forall i, listed i (idx :: btn) =
              (if decide (i = Z.to_nat idx) then 1 else 0) + listed i btn)
      as Hl.
    { intros i. rewrite listed_cons. repeat case_decide; lia. }
    destruct (t0 <? Z.succ v0) eqn:Hcmp.
    + right. split; [|done]. intros Hfit.
      specialize (Hfit _ _ _ Hv0 Ht0). rewrite Hl, decide_True in Hfit by done.
      pose proof (listed_nonneg (Z.to_nat idx) btn) as Hnn.
      apply Z.ltb_lt in Hcmp.
      assert (v0 + (1 + listed (Z.to_nat idx) btn) <= t0) by (apply Hfit; lia).
      lia.
    + assert (fits targets (alter Z.succ (Z.to_nat idx) s) btn <->
              fits targets s (idx :: btn)) as Hiff.
      { apply Z.ltb_ge in Hcmp.
        unfold fits. split; intros Hfit i v t Hv Ht Hpos.
        - destruct (decide (i = Z.to_nat idx)) as [->|Hne].
          + assert (v = v0) as -> by congruence.
            assert (t = t0) as -> by congruence.
            pose proof (listed_nonneg (Z.to_nat idx) btn) as Hnn.
            rewrite Hl, decide_True by done.
            destruct (decide (0 < listed (Z.to_nat idx) btn)) as [Hp|Hp]; [|lia].
            assert (Z.succ v0 + listed (Z.to_nat idx) btn <= t0); [|lia].
            apply (Hfit (Z.to_nat idx));
              [by rewrite list_lookup_alter_eq, Hv0 | done | done].
          + rewrite Hl, decide_False in Hpos by done.
            rewrite Hl, decide_False by done.
            assert (v + listed i btn <= t); [|lia].
            apply (Hfit i); [by rewrite list_lookup_alter_ne | done | lia].
        - destruct (decide (i = Z.to_nat idx)) as [->|Hne].
          + rewrite list_lookup_alter_eq, Hv0 in Hv. simpl in Hv.
            injection Hv as <-.
            assert (v0 + listed (Z.to_nat idx) (idx :: btn) <= t) as Hle.
            { apply Hfit; [done..|]. rewrite Hl, decide_True by done. lia. }
            rewrite Hl, decide_True in Hle by done. lia.
          + rewrite list_lookup_alter_ne in Hv by done.
            assert (v + listed i (idx :: btn) <= t) as Hle.
            { apply Hfit; [done..|]. rewrite Hl, decide_False by done. lia. }
            rewrite Hl, decide_False in Hle by done. lia. }
      destruct (IH (alter Z.succ (Z.to_nat idx) s)) as [[Hf Hr]|[Hf Hr]];
        [by rewrite length_alter | done | |].
      * left. split; [by apply Hiff|]. by rewrite Hr, pressed_alter.
      * right. split; [|done]. by rewrite <- Hiff.
  - assert (fits targets s btn <-> fits targets s (idx :: btn)) as Hiff.
    { unfold fits. split; intros Hfit i v t Hv Ht Hpos;
        pose proof (lookup_lt_Some _ _ _ Ht) as Hi.
      - rewrite listed_cons, decide_False in Hpos by lia.
        rewrite listed_cons, decide_False by lia.
        assert (v + listed i btn <= t); [|lia]. apply (Hfit i); [done..|lia].
      - assert (v + listed i (idx :: btn) <= t) as Hle.
        { apply Hfit; [done..|]. rewrite listed_cons, decide_False by lia. lia. }
        rewrite listed_cons, decide_False in Hle by lia. lia. }
    destruct (IH s) as [[Hf Hr]|[Hf Hr]]; [done..| |].
    + left. split; [by apply Hiff|]. rewrite Hr, pressed_skip; [done|]. lia.
    + right. split; [|done]. by rewrite <- Hiff.
Qed.

(** X14.  One press in the Day 10 solvers, for a button without negative
    entries: the press is pruned exactly when a counter that the button
    lists would end above its target; otherwise every counter is raised by
    the number of times the button lists it, the entries that name no
    counter being passed over. *)
Theorem apply_button_prunes_overshoot targets s btn :
  length s = length targets -> Forall (fun idx => 0 <= idx) btn ->
  (fits targets s btn ->
   apply_button targets s btn = Ok (Some (pressed s btn))) /\
  (~ fits targets s btn -> apply_button targets s btn = Ok None).
Proof.
  intros Hlen Hwf.
  destruct (apply_button_fits targets btn s Hlen Hwf) as [[Hf Hr]|[Hf Hr]];
    by split.
Qed.

Lemma apply_button_prunes_overshoot_witness :
  length [1; 3] = length [2; 3] /\ Forall (fun idx => 0 <= idx) [0; 5; 0] /\
  (fits [2; 3] [1; 3] [0; 5; 0] ->
   apply_button [2; 3] [1; 3] [0; 5; 0] = Ok (Some (pressed [1; 3] [0; 5; 0]))) /\
  (~ fits [2; 3] [1; 3] [0; 5; 0] ->
   apply_button [2; 3] [1; 3] [0; 5; 0] = Ok None).
Proof.
  assert (length [1; 3] = length [2; 3]) as Hlen by reflexivity.
  assert (Forall (fun idx => 0 <= idx) [0; 5; 0]) as Hwf
    by (repeat constructor; lia).
  split; [exact Hlen|]. split; [exact Hwf|].
  apply (apply_button_prunes_overshoot _ _ _ Hlen Hwf).
Defined.

(** ** Reading the input *)

Lemma string_cons_app a s r : (String a s ++ r)%string = String a (s ++ r).
Proof. reflexivity. Qed.

Lemma string_nil_app r : (EmptyString ++ r)%string = r.
Proof. reflexivity. Qed.

Lemma string_app_assoc s1 s2 s3 :
  ((s1 ++ s2) ++ s3)%string = (s1 ++ (s2 ++ s3))%string.
Proof.
  induction s1 as [|a s1 IH]; [done|].
  rewrite !string_cons_app. by f_equal.
Qed.

Lemma string_length_app s r :
  String.length (s ++ r) = (String.length s + String.length r)%nat.
Proof.
  induction s as [|a s IH]; [done|].
  rewrite string_cons_app. simpl. by rewrite IH.
Qed.

Lemma string_forallb_app P s r :
  string_forallb P (s ++ r) = string_forallb P s && string_forallb P r.
Proof.
  induction s as [|a s IH]; [done|].
  rewrite string_cons_app. simpl. by rewrite IH, andb_assoc.
Qed.

Lemma string_snoc_nonempty s c : string_snoc s c <> EmptyString.
Proof. by destruct s. Qed.

Lemma string_empty_spec s : string_empty s = true <-> s = EmptyString.
Proof. by destruct s. Qed.

Lemma concat_empty_cons x xs :
  String.concat "" (x :: xs) = (x ++ String.concat "" xs)%string.
Proof.
  destruct xs as [|y xs]; simpl; [by rewrite string_app_empty_r | done].
Qed.

(** *** Tokens: [while (ss >> token)] *)

Lemma words_from_spec s : forall tmp,
  string_forallb not_space tmp = true ->
  Forall (fun t => t <> EmptyString /\ string_forallb not_space t = true)
         (words_from s tmp) /\
  String.concat "" (words_from s tmp)
  = (tmp ++ string_filter not_space s)%string.
Proof.
  induction s as [|c s IH]; intros tmp Htmp; simpl.
  - destruct tmp as [|a tmp]; simpl; [by split|].
    split; [by repeat constructor | by rewrite string_app_empty_r].
  - assert (not_space c = negb (isspace c)) as -> by done.
    destruct (isspace c) eqn:Hc; cbn [negb].
    + destruct tmp as [|a tmp]; cbn [string_empty].
      * by apply (IH EmptyString).
      * destruct (IH EmptyString) as [Hall Hcat]; [done|]. split.
        -- by constructor.
        -- by rewrite concat_empty_cons, Hcat.
    + destruct (IH (string_snoc tmp c)) as [Hall Hcat].
      { unfold string_snoc. rewrite string_forallb_app, Htmp. simpl.
        unfold not_space. by rewrite Hc. }
      split; [done|]. by rewrite Hcat, string_snoc_app.
Qed.

(** X15.  The tokens that main reads from a line with [ss >> token] are not
    empty and hold no white space, and put together they are the line
    without its white space: no other character is lost or added. *)
Theorem words_tokens s :
  Forall (fun t => t <> EmptyString /\ string_forallb not_space t = true)
         (words s) /\
  String.concat "" (words s) = string_filter not_space s.
Proof. by apply (words_from_spec s EmptyString). Qed.

(** *** Pieces between commas: [while (getline(ss, token, ','))] *)

Lemma split_commas_from_spec s : forall tmp,
  string_forallb not_comma tmp = true ->
  Forall (fun p => string_forallb not_comma p = true)
         (split_commas_from s tmp) /\
  ((tmp ++ s)%string = String.concat "," (split_commas_from s tmp) \/
   (tmp ++ s)%string = (String.concat "," (split_commas_from s tmp) ++ ",")%string) /\
  (split_commas_from s tmp = [] -> tmp = EmptyString /\ s = EmptyString).
Proof.
  induction s as [|c s IH]; intros tmp Htmp; simpl.
  - destruct tmp as [|a tmp]; simpl; [by auto|].
    split; [by repeat constructor|]. split; [|done].
    left. by rewrite string_app_empty_r.
  - destruct (Ascii.eqb c ",") eqn:Hc.
    + apply Ascii.eqb_eq in Hc as ->.
      destruct (IH EmptyString) as (Hall & Hcat & Hnil); [done|].
      split; [by constructor|]. split; [|done].
      rewrite string_nil_app in Hcat.
      destruct (split_commas_from s "") as [|p ps] eqn:Hps.
      * destruct Hnil as [_ ->]; [done|]. by right.
      * change (String.concat "," (tmp :: p :: ps))
          with (tmp ++ "," ++ String.concat "," (p :: ps))%string.
        change (tmp ++ String "," s)%string with (tmp ++ ("," ++ s))%string.
        destruct Hcat as [->| ->]; [by left|]. right.
        by rewrite !string_app_assoc.
    + destruct (IH (string_snoc tmp c)) as (Hall & Hcat & Hnil).
      { unfold string_snoc. rewrite string_forallb_app, Htmp. simpl.
        unfold not_comma. by rewrite Hc. }
      rewrite string_snoc_app in Hcat. split; [done|]. split; [done|].
      intros Hps. destruct (Hnil Hps) as [Hs _].
      by apply string_snoc_nonempty in Hs.
Qed.

Lemma split_commas_nonempty s : s <> EmptyString -> split_commas s <> [].
Proof.
  intros Hs Hnil.
  destruct (split_commas_from_spec s EmptyString) as (_ & _ & Hn); [done|].
  by destruct (Hn Hnil).
Qed.

(** X16.  The pieces that the getline loop of the Day 10 parsers cuts a
    text into hold no comma, and joined with commas they give the text
    back, up to one comma at the very end of the text, which yields no
    piece. *)
Theorem split_commas_round_trip s :
  Forall (fun p => string_forallb not_comma p = true) (split_commas s) /\
  (s = String.concat "," (split_commas s) \/
   s = (String.concat "," (split_commas s) ++ ",")%string).
Proof.
  destruct (split_commas_from_spec s EmptyString) as (Hall & Hcat & _); [done|].
  by split.
Qed.

(** *** The buttons and targets of a Day 10 line *)

Lemma until_length c s b r :
  until c s = Some (b, r) ->
  String.length s = S (String.length b + String.length r).
Proof.
  revert b. induction s as [|a s IH]; intros b; simpl; [done|].
  destruct (Ascii.eqb a c); [by intros [= <- <-]|].
  destruct (until c s) as [[b0 r0]|]; [|done].
  intros [= <- <-]. simpl. by rewrite (IH b0).
Qed.

Lemma regex_search_shorter op cl s inner suffix :
  regex_search op cl s = Some (inner, suffix) ->
  inner <> EmptyString /\
  (String.length suffix + 3 <= String.length s)%nat.
Proof.
  induction s as [|c s IH]; simpl; [done|].
  assert (regex_search op cl s = Some (inner, suffix) ->
          inner <> EmptyString /\
          (String.length suffix + 3 <= S (String.length s))%nat) as Hrec.
  { intros Hr. destruct (IH Hr). split; [done | lia]. }
  destruct (Ascii.eqb c op); [|done].
  destruct (until cl s) as [[[|a i] r]|] eqn:Hu; [done| |done].
  intros [= <- <-]. split; [done|].
  apply until_length in Hu. simpl in Hu. lia.
Qed.

Lemma rmap_list_length {A B} (f : A -> result B) l l' :
  rmap_list f l = Ok l' -> length l' = length l.
Proof.
  revert l'. induction l as [|a l IH]; intros l'; simpl; [by intros [= <-]|].
  destruct (f a); simpl; [|done..].
  destruct (rmap_list f l) as [bs| | |]; simpl; [|done..].
  intros [= <-]. simpl. by rewrite (IH bs).
Qed.

Lemma rmap_list_nonempty {A B} (f : A -> result B) l l' :
  rmap_list f l = Ok l' -> l <> [] -> l' <> [].
Proof.
  intros Hl%rmap_list_length Hne ->. by destruct l.
Qed.

Lemma find_buttons_nonempty turns : forall s btns,
  find_buttons turns s = Ok btns -> Forall (fun b => b <> []) btns.
Proof.
  induction turns as [|turns IH]; intros s btns; simpl.
  { intros [= <-]. constructor. }
  destruct (regex_search "(" ")" s) as [[inner suffix]|] eqn:Hr;
    [|intros [= <-]; constructor].
  destruct (rmap_list stoi (split_commas inner)) as [b| | |] eqn:Hb;
    simpl; [|done..].
  destruct (find_buttons turns suffix) as [rest| | |] eqn:Hrest;
    simpl; [|done..].
  intros [= <-]. constructor; [|by eapply IH].
  eapply rmap_list_nonempty; [done|]. apply split_commas_nonempty.
  by apply regex_search_shorter in Hr as [? _].
Qed.

Lemma find_buttons_turns t1 : forall t2 s,
  (String.length s < t1)%nat -> (String.length s < t2)%nat ->
  find_buttons t1 s = find_buttons t2 s.
Proof.
  induction t1 as [|t1 IH]; intros t2 s H1 H2; [lia|].
  destruct t2 as [|t2]; [lia|]. simpl.
  destruct (regex_search "(" ")" s) as [[inner suffix]|] eqn:Hr; [|done].
  apply regex_search_shorter in Hr as [_ Hlen].
  by rewrite (IH t2 suffix) by lia.
Qed.

(** X17.  What parse_machine_part2 returns: every button has at least one
    entry (the test [!button_str.empty()] never fails, the pattern asks for
    one character or more between the parentheses), the targets are empty
    only when the line has no group in braces, and the loop over the
    matches ends by itself: more turns than the line has characters never
    change the buttons found. *)
Theorem parse_machine_part2_buttons line btns targets :
  parse_machine_part2 line = Ok (btns, targets) ->
  Forall (fun b => b <> []) btns /\
  (targets = [] -> regex_search "{" "}" line = None) /\
  (forall turns, (String.length line < turns)%nat ->
     find_buttons turns line = Ok btns).
Proof.
  unfold parse_machine_part2.
  destruct (find_buttons (S (String.length line)) line) as [bs| | |] eqn:Hb;
    simpl; [|done..].
  destruct (regex_search "{" "}" line) as [[inner suffix]|] eqn:Hr; simpl.
  - destruct (rmap_list stoi (split_commas inner)) as [ts| | |] eqn:Ht;
      simpl; [|done..].
    intros [= <- <-]. split; [by eapply find_buttons_nonempty|]. split.
    + intros ->. eapply rmap_list_nonempty in Ht; [done|].
      apply split_commas_nonempty.
      by apply regex_search_shorter in Hr as [? _].
    + intros turns Hlt. rewrite <- Hb. apply find_buttons_turns; lia.
  - intros [= <- <-]. split; [by eapply find_buttons_nonempty|].
    split; [done|].
    intros turns Hlt. rewrite <- Hb. apply find_buttons_turns; lia.
Qed.

Lemma parse_machine_part2_buttons_witness :
  parse_machine_part2 "[.#] (0,1) (1) {2,3}"
    = Ok ([[0; 1]; [1]], [2; 3]) /\
  Forall (fun b : list Z => b <> []) [[0; 1]; [1]] /\
  ([2; 3] = [] -> regex_search "{" "}" "[.#] (0,1) (1) {2,3}" = None) /\
  (forall turns, (String.length "[.#] (0,1) (1) {2,3}" < turns)%nat ->
     find_buttons turns "[.#] (0,1) (1) {2,3}" = Ok [[0; 1]; [1]]).
Proof.
  assert (parse_machine_part2 "[.#] (0,1) (1) {2,3}"
            = Ok ([[0; 1]; [1]], [2; 3])) as Hp by (vm_compute; reflexivity).
  split; [exact Hp|]. apply (parse_machine_part2_buttons _ _ _ Hp).
Defined.

(** *** Day 9: both programs read the same points from well-formed lines *)

Lemma span_digits_app a rest :
  all_digits a = true ->
  match rest with String c _ => isdigit c = false | EmptyString => True end ->
  span_digits (a ++ rest) = (a, rest).
Proof.
  intros Ha Hrest. induction a as [|c a IH].
  - rewrite string_nil_app. destruct rest as [|c rest]; simpl; [done|].
    by rewrite Hrest.
  - simpl in Ha. apply andb_prop in Ha as [Hc Ha].
    rewrite string_cons_app. simpl. by rewrite Hc, IH.
Qed.

Lemma digit_no_sign c (s : string) :
  isdigit c = true ->
  match String c s with
  | String "-" r => (true, r)
  | String "+" r => (false, r)
  | _ => (false, String c s)
  end = (false, String c s).
Proof. destruct c as [[] [] [] [] [] [] [] []]; done. Qed.

Lemma read_num_digits lo hi a rest :
  a <> EmptyString -> all_digits a = true ->
  match rest with String c _ => isdigit c = false | EmptyString => True end ->
  lo <= 0 -> decimal a <= hi ->
  read_num lo hi (a ++ rest) = Some (decimal a, rest).
Proof.
  intros Hne Ha Hrest Hlo Hhi. destruct a as [|c a]; [done|].
  pose proof Ha as [Hc _]%andb_prop. unfold read_num.
  rewrite string_cons_app. cbn [skip_space].
  rewrite (isdigit_not_space _ Hc), (digit_no_sign _ _ Hc).
  rewrite <- string_cons_app, (span_digits_app _ _ Ha Hrest).
  pose proof (decimal_from_nonneg 0 _ Ha ltac:(done)) as Hnn.
  fold (decimal (String c a)) in Hnn.
  by replace ((lo <=? decimal (String c a)) && (decimal (String c a) <=? hi))
    with true by lia.
Qed.

Lemma commas_to_spaces_digits a rest :
  all_digits a = true ->
  commas_to_spaces (a ++ rest) = (a ++ commas_to_spaces rest)%string.
Proof.
  intros Ha. induction a as [|c a IH]; [done|].
  simpl in Ha. apply andb_prop in Ha as [Hc Ha].
  rewrite !string_cons_app. simpl. rewrite (IH Ha).
  replace (Ascii.eqb c ",") with false; [done|].
  symmetry. apply Ascii.eqb_neq. intros ->. done.
Qed.

Lemma parse_point_xy x y :
  int_text x -> int_text y ->
  parse_point (xy_line x y) = Some (decimal x, decimal y).
Proof.
  intros (Hx0 & Hx & Hxm) (Hy0 & Hy & Hym). unfold parse_point, xy_line.
  rewrite (read_num_digits _ _ x) by (done || by unfold INT_MIN).
  unfold read_char. cbn [skip_space].
  change (isspace ",") with false. cbv iota.
  rewrite <- (string_app_empty_r y) at 1.
  by rewrite (read_num_digits _ _ y) by (done || by unfold INT_MIN).
Qed.

Lemma parse_line2_xy x y :
  int_text x -> int_text y ->
  parse_line2 (xy_line x y) = [mkp (decimal x) (decimal y)].
Proof.
  intros (Hx0 & Hx & Hxm) (Hy0 & Hy & Hym). unfold parse_line2, xy_line.
  rewrite (commas_to_spaces_digits _ _ Hx). cbn [commas_to_spaces].
  change (Ascii.eqb "," ",") with true. cbv iota.
  rewrite <- (string_app_empty_r y) at 2.
  rewrite (commas_to_spaces_digits _ _ Hy). cbn [commas_to_spaces].
  cbn [read_pairs].
  rewrite (read_num_digits _ _ x)
    by (done || (by unfold LLONG_MIN) || (unfold INT_MAX, LLONG_MAX in *; lia)).
  destruct y as [|c y]; [done|]. pose proof Hy as [Hc _]%andb_prop.
  assert (read_num LLONG_MIN LLONG_MAX (String " " (String c y ++ ""))
          = read_num LLONG_MIN LLONG_MAX (String c y ++ "")) as ->.
  { unfold read_num. cbn [skip_space]. change (isspace " ") with true.
    cbv iota. rewrite string_cons_app. cbn [skip_space].
    by rewrite (isdigit_not_space _ Hc). }
  rewrite (read_num_digits _ _ (String c y))
    by (done || (by unfold LLONG_MIN) || (unfold INT_MAX, LLONG_MAX in *; lia)).
  f_equal. by destruct (String.length _).
Qed.

Lemma well_formed_lines_points lines acc :
  Forall well_formed_line lines ->
  foldl read_point_line acc lines
  = (acc.1 ++ (point_xy <$> parseInput lines), acc.2).
Proof.
  intros Hall. revert acc.
  induction Hall as [|line lines (x & y & Hx & Hy & Hsx & Hsy & ->) _ IH]; intros acc.
  { simpl. rewrite app_nil_r. by destruct acc. }
  cbn [foldl]. rewrite IH. unfold read_point_line, parseInput.
  cbn [flat_map]. rewrite (parse_point_xy x y Hx Hy), (parse_line2_xy x y Hx Hy).
  assert (string_empty (xy_line x y) = false) as ->.
  { destruct Hx as [Hx0 _]. destruct x; [done|]. done. }
  simpl. by rewrite <- app_assoc.
Qed.

Lemma well_formed_lines_length lines :
  Forall well_formed_line lines -> length (parseInput lines) = length lines.
Proof.
  unfold parseInput.
  induction 1 as [|line lines (x & y & Hx & Hy & Hsx & Hsy & ->) _ IH]; [done|].
  cbn [flat_map]. rewrite (parse_line2_xy x y Hx Hy). simpl. by rewrite IH.
Qed.

Lemma well_formed_lines_small lines :
  Forall well_formed_line lines -> small_tiles (parseInput lines).
Proof.
  unfold parseInput, small_tiles.
  induction 1 as [|line lines (x & y & Hx & Hy & Hsx & Hsy & ->) _ IH];
    [constructor|].
  cbn [flat_map]. rewrite (parse_line2_xy x y Hx Hy). simpl.
  apply Forall_cons. by split.
Qed.

(** X18.  On an input file all of whose lines read [x,y], with x and y
    non-empty runs of digits that denote numbers below 2^30, the two Day 9
    programs read the same points: part 1 prints no warning and the largest
    area of these points, solution2.cpp (given four lines or more) the
    largest accepted area of the same points, and the area that
    solution2.cpp prints is never above the area that part 1 prints. *)
Theorem day9_outputs_on_well_formed_input (fs : files) lines :
  fs "input.txt"%string = Some lines ->
  Forall well_formed_line lines -> (4 <= length lines)%nat ->
  exists points part1 part2,
    parseInput lines = points /\ length points = length lines /\
    main_part1 fs = {| out := [OInt part1; ONl]; err := []; status := 0 |} /\
    part1 = largest_area (point_xy <$> points) /\
    main_solution2 fs
    = {| out := [OStr "Part 2 Largest Area: "; OInt part2; ONl];
         err := []; status := 0 |} /\
    part2 = fast_max_area points /\
    part2 <= part1.
Proof.
  intros Hfs Hall Hlen.
  exists (parseInput lines), (largest_area (point_xy <$> parseInput lines)),
    (fast_max_area (parseInput lines)).
  pose proof (well_formed_lines_length lines Hall) as Hl.
  split; [done|]. split; [done|]. split; [|split; [done|split; [|split; [done|]]]].
  - unfold main_part1. rewrite Hfs.
    by rewrite (well_formed_lines_points lines ([], []) Hall).
  - unfold main_solution2. rewrite Hfs, Hl.
    by replace (length lines <? 4)%nat with false
      by (symmetry; apply Nat.ltb_ge; lia).
  - pose proof (well_formed_lines_small lines Hall) as Hsmall.
    destruct (tile_area_le_largest (parseInput lines) Hsmall) as [H0 Hle].
    destruct (fast_max_area_bounds (parseInput lines) Hsmall)
      as [_ [->|(pq & Hin & _ & <-)]]; [done | by apply Hle].
Qed.

Lemma day9_outputs_on_well_formed_input_witness :
  exists points part1 part2,
    parseInput ["7,1"; "11,1"; "11,7"; "9,7"]%string = points /\
    length points = length ["7,1"; "11,1"; "11,7"; "9,7"]%string /\
    main_part1 (one_file "input.txt" ["7,1"; "11,1"; "11,7"; "9,7"]%string)
    = {| out := [OInt part1; ONl]; err := []; status := 0 |} /\
    part1 = largest_area (point_xy <$> points) /\
    main_solution2 (one_file "input.txt" ["7,1"; "11,1"; "11,7"; "9,7"]%string)
    = {| out := [OStr "Part 2 Largest Area: "; OInt part2; ONl];
         err := []; status := 0 |} /\
    part2 = fast_max_area points /\
    part2 <= part1.
Proof.
  apply (day9_outputs_on_well_formed_input
           (one_file "input.txt" ["7,1"; "11,1"; "11,7"; "9,7"]%string)
           ["7,1"; "11,1"; "11,7"; "9,7"]%string).
  - reflexivity.
  - repeat constructor.
    + exists "7"%string, "1"%string. repeat split; done || (unfold small; simpl; lia).
    + exists "11"%string, "1"%string. repeat split; done || (unfold small; simpl; lia).
    + exists "11"%string, "7"%string. repeat split; done || (unfold small; simpl; lia).
    + exists "9"%string, "7"%string. repeat split; done || (unfold small; simpl; lia).
  - simpl. lia.
Defined.

(** ** Day 7: the beam simulation and the count of paths *)

Lemma string_get_lt n s :
  (n < String.length s)%nat -> exists ch, String.get n s = Some ch.
Proof.
  revert n. induction s as [|a s IH]; intros n; simpl; [lia|].
  destruct n as [|n]; [by eexists|]. intros Hn. apply IH. lia.
Qed.

Lemma string_get_some n s ch :
  String.get n s = Some ch -> (n < String.length s)%nat.
Proof.
  revert n. induction s as [|a s IH]; intros n; simpl; [done|].
  destruct n as [|n]; [lia|]. intros Hn%IH. lia.
Qed.

Lemma cell_in_row cols row c :
  Z.of_nat (String.length row) = cols -> 0 <= c < cols ->
  exists ch, Day7.cell row c = Some ch.
Proof. intros Hlen Hc. apply string_get_lt. lia. Qed.

Lemma beam_comm cols row c1 c2 acc :
  Day7.beam cols row c1 (Day7.beam cols row c2 acc)
  = Day7.beam cols row c2 (Day7.beam cols row c1 acc).
Proof.
  destruct acc as [[nb splits]|]; [|done]. unfold Day7.beam.
  destruct (Day7.cell row c1) as [ch1|], (Day7.cell row c2) as [ch2|];
    repeat match goal with
           | |- context [Ascii.eqb ?a ?b] => destruct (Ascii.eqb a b)
           end;
    try done;
    apply f_equal, pair_equal_spec; (split; [|lia]);
    repeat match goal with |- context [if ?b then _ else _] => destruct b end;
    apply set_eq; intros x; rewrite ?elem_of_union, ?elem_of_singleton; tauto.
Qed.

Lemma beam_none cols row c : Day7.beam cols row c None = None.
Proof. done. Qed.

Lemma foldr_beam_perm cols row acc l l' :
  l ≡ₚ l' ->
  foldr (Day7.beam cols row) acc l = foldr (Day7.beam cols row) acc l'.
Proof.
  induction 1 as [|x l l' _ IH|x y l|l l' l'' _ IH1 _ IH2]; simpl.
  - done.
  - by rewrite IH.
  - apply beam_comm.
  - congruence.
Qed.

(** X19.  The loop over [current_beams] gives the same next beams and the
    same count whatever the order in which the set is gone through (Python
    does not fix the order of a set). *)
Theorem day7_row_any_order cols row beams splits l :
  l ≡ₚ elements beams ->
  foldr (Day7.beam cols row) (Some (∅, splits)) l
  = Day7.row_step cols row beams splits.
Proof. intros Hp. unfold Day7.row_step. by apply foldr_beam_perm. Qed.

Lemma day7_row_any_order_witness :
  [8; 6] ≡ₚ elements ({[6; 8]} : gset Z) /\
  foldr (Day7.beam 15 "......^.^......") (Some (∅, 1)) [8; 6]
  = Day7.row_step 15 "......^.^......" {[6; 8]} 1.
Proof.
  assert ([8; 6] ≡ₚ elements ({[6; 8]} : gset Z)) as Hp.
  { apply NoDup_Permutation.
    - apply NoDup_cons. split; [|apply NoDup_singleton].
      rewrite list_elem_of_singleton. lia.
    - apply NoDup_elements.
    - intros x. rewrite elem_of_elements, elem_of_union, !elem_of_singleton,
        !elem_of_cons, elem_of_nil. tauto. }
  split; [exact Hp|]. apply (day7_row_any_order _ _ _ _ _ Hp).
Defined.

Lemma paths_pos cols rows :
  rectangular cols rows -> forall c, 1 <= paths cols rows c.
Proof.
  induction 1 as [|row rows Hrow _ IH]; intros c; simpl; [done|].
  destruct ((c <? 0) || (cols <=? c)) eqn:Hout; [done|].
  destruct (cell_in_row cols row c Hrow) as [ch ->]; [lia|].
  destruct (Ascii.eqb ch "^"); [|apply IH].
  pose proof (IH (c - 1)). pose proof (IH (c + 1)). lia.
Qed.

(* with one frame more than there are rows left, count_paths returns *)
Lemma count_paths_frames cols rows :
  rectangular cols rows ->
  forall frames c, (length rows < frames)%nat ->
    Day7.count_paths frames cols rows c = Day7.PyVal (paths cols rows c).
Proof.
  induction 1 as [|row rows Hrow _ IH]; intros [|frames] c Hlen;
    simpl in Hlen; try lia; simpl; [done|].
  destruct ((c <? 0) || (cols <=? c)) eqn:Hout; [done|].
  destruct (cell_in_row cols row c Hrow) as [ch ->]; [lia|].
  destruct (Ascii.eqb ch "^"); [|apply IH; lia].
  by rewrite !IH by lia.
Qed.

Lemma paths_cons cols row rest c ch :
  0 <= c < cols -> Day7.cell row c = Some ch ->
  paths cols (row :: rest) c =
  if Ascii.eqb ch "^" then paths cols rest (c - 1) + paths cols rest (c + 1)
  else paths cols rest c.
Proof.
  intros Hc Hch. simpl.
  replace ((c <? 0) || (cols <=? c)) with false by lia. by rewrite Hch.
Qed.

Lemma zsum_perm f l l' : l ≡ₚ l' -> zsum f l = zsum f l'.
Proof.
  unfold zsum.
  induction 1 as [|x l l' _ IH|x y l|l l' l'' _ IH1 _ IH2]; simpl; lia.
Qed.

Lemma zsum_ones f l : (forall c, f c = 1) -> zsum f l = Z.of_nat (length l).
Proof.
  intros Hf. unfold zsum. induction l as [|c l IH]; simpl; [done|].
  rewrite Hf. lia.
Qed.

Lemma surplus_insert p (X : gset Z) x :
  1 <= p x -> surplus p ({[x]} ∪ X) <= surplus p X + p x - 1.
Proof.
  intros Hp. destruct (decide (x ∈ X)) as [Hin|Hnin].
  - replace ({[x]} ∪ X) with X
      by (symmetry; by apply subseteq_union_1_L, singleton_subseteq_l).
    lia.
  - unfold surplus.
    rewrite (zsum_perm _ _ _ (elements_union_singleton X x Hnin)).
    rewrite size_union, size_singleton by by apply disjoint_singleton_l.
    unfold zsum. simpl. lia.
Qed.

Lemma hits_cons row c l :
  hits row (c :: l) =
  (if decide (Day7.cell row c = Some "^"%char) then 1 else 0) + hits row l.
Proof. unfold hits. rewrite filter_cons. case_decide; simpl; lia. Qed.

Lemma hits_nonneg row l : 0 <= hits row l.
Proof. unfold hits. lia. Qed.

Lemma hits_le_splitters row l :
  NoDup l -> (forall c, c ∈ l -> 0 <= c) -> hits row l <= splitters row.
Proof.
  intros Hnd Hpos. unfold splitters, hits. apply inj_le.
  apply submseteq_length, NoDup_submseteq; [by apply NoDup_filter|].
  intros c [Hc Hin]%list_elem_of_filter. apply list_elem_of_filter.
  split; [done|]. apply elem_of_seqZ.
  unfold Day7.cell in Hc. apply string_get_some in Hc.
  specialize (Hpos c Hin). lia.
Qed.

(* one row: the fold over the beams [l] *)
Lemma row_fold cols row rest splits l :
  Z.of_nat (String.length row) = cols -> rectangular cols rest ->
  (forall c, c ∈ l -> 0 <= c < cols) ->
  exists nb,
    foldr (Day7.beam cols row) (Some (∅, splits)) l
      = Some (nb, splits + hits row l) /\
    in_grid cols nb /\
    surplus (paths cols rest) nb + hits row l + Z.of_nat (length l)
    <= zsum (paths cols (row :: rest)) l.
Proof.
  intros Hrow Hrest. induction l as [|c l IH]; intros Hl.
  { exists ∅. split; [by rewrite Z.add_0_r|]. split; [by intros c ?%elem_of_empty|].
    unfold surplus. rewrite elements_empty, size_empty. done. }
  destruct IH as (nb & Hfold & Hgrid & Hsum).
  { intros c0 Hc0. apply Hl. by right. }
  assert (0 <= c < cols) as Hc by (apply Hl; by left).
  destruct (cell_in_row cols row c Hrow Hc) as [ch Hch].
  pose proof (paths_cons cols row rest c ch Hc Hch) as Hp.
  pose proof (paths_pos cols rest Hrest) as Hge.
  cbn [foldr]. rewrite Hfold. unfold Day7.beam. rewrite Hch, hits_cons, Hch.
  change (zsum (paths cols (row :: rest)) (c :: l))
    with (paths cols (row :: rest) c + zsum (paths cols (row :: rest)) l).
  rewrite Hp. cbn [length]. rewrite Nat2Z.inj_succ.
  destruct (Ascii.eqb ch "^") eqn:Hcaret.
  - apply Ascii.eqb_eq in Hcaret as ->. rewrite decide_True by done.
    set (nb1 := if 0 <=? c - 1 then {[c - 1]} ∪ nb else nb).
    set (nb2 := if c + 1 <? cols then {[c + 1]} ∪ nb1 else nb1).
    exists nb2. split; [f_equal; f_equal; lia|].
    assert (in_grid cols nb1 /\
            surplus (paths cols rest) nb1
            <= surplus (paths cols rest) nb + paths cols rest (c - 1) - 1)
      as [Hg1 Hs1].
    { subst nb1. destruct (0 <=? c - 1) eqn:Hb.
      - split; [|by apply surplus_insert].
        intros x [->%elem_of_singleton|?]%elem_of_union; [lia | by apply Hgrid].
      - split; [done|]. specialize (Hge (c - 1)). lia. }
    assert (in_grid cols nb2 /\
            surplus (paths cols rest) nb2
            <= surplus (paths cols rest) nb1 + paths cols rest (c + 1) - 1)
      as [Hg2 Hs2].
    { subst nb2. destruct (c + 1 <? cols) eqn:Hb.
      - split; [|by apply surplus_insert].
        intros x [->%elem_of_singleton|?]%elem_of_union; [lia | by apply Hg1].
      - split; [done|]. specialize (Hge (c + 1)). lia. }
    split; [done | lia].
  - assert (ch <> "^"%char) as Hne by by apply Ascii.eqb_neq.
    rewrite decide_False by congruence.
    destruct (Ascii.eqb ch ".").
    + exists ({[c]} ∪ nb). split; [f_equal; f_equal; lia|]. split.
      * intros x [->%elem_of_singleton|?]%elem_of_union; [lia | by apply Hgrid].
      * pose proof (surplus_insert (paths cols rest) nb c (Hge c)). lia.
    + exists nb. split; [f_equal; f_equal; lia|]. split; [done|].
      specialize (Hge c). lia.
Qed.

Lemma simulate_spec cols rows :
  rectangular cols rows ->
  forall beams splits, in_grid cols beams ->
  exists n,
    Day7.simulate cols rows beams splits = Some n /\
    splits <= n <= splits + all_splitters rows /\
    (n - splits) + Z.of_nat (size beams)
    <= zsum (paths cols rows) (elements beams).
Proof.
  induction 1 as [|row rows Hrow Hrows IH]; intros beams splits Hgrid.
  { exists splits. split; [done|]. split; [simpl; lia|].
    rewrite zsum_ones by done. unfold size, set_size. simpl. lia. }
  destruct (row_fold cols row rows splits (elements beams) Hrow Hrows)
    as (nb & Hfold & Hnb & Hsum).
  { intros c Hc%elem_of_elements. by apply Hgrid. }
  pose proof (hits_nonneg row (elements beams)) as H0.
  assert (hits row (elements beams) <= splitters row) as Hhit.
  { apply hits_le_splitters; [apply NoDup_elements|].
    intros c Hc%elem_of_elements. apply Hgrid in Hc. lia. }
  destruct (IH nb (splits + hits row (elements beams)) Hnb)
    as (n & Hrun & Hn & Hpaths).
  exists n. cbn [Day7.simulate]. unfold Day7.row_step. rewrite Hfold.
  split; [done|]. split; [simpl; lia|].
  unfold surplus in Hsum.
  assert (Z.of_nat (length (elements beams)) = Z.of_nat (size beams)) as Hsz
    by done.
  lia.
Qed.

(** X20.  On a grid whose rows all have [cols] characters the simulation
    never indexes outside a row (no IndexError) as long as the beams it
    starts from are columns of the grid, and the number of splits it adds
    is at most the number of splitters in the rows it goes through. *)
Theorem day7_splits_bounded cols rows beams splits :
  rectangular cols rows -> in_grid cols beams ->
  exists n, Day7.simulate cols rows beams splits = Some n /\
    splits <= n <= splits + all_splitters rows.
Proof.
  intros Hr Hb. destruct (simulate_spec cols rows Hr beams splits Hb)
    as (n & Hn & Hle & _).
  by exists n.
Qed.

Lemma day7_splits_bounded_witness :
  rectangular 5 ["..^.."; ".^.^."]%string /\ in_grid 5 {[2]} /\
  exists n, Day7.simulate 5 ["..^.."; ".^.^."]%string {[2]} 0 = Some n /\
    0 <= n <= 0 + all_splitters ["..^.."; ".^.^."]%string.
Proof.
  assert (rectangular 5 ["..^.."; ".^.^."]%string) as Hr
    by (repeat constructor).
  assert (in_grid 5 {[2]}) as Hb
    by (intros c ->%elem_of_singleton; lia).
  split; [exact Hr|]. split; [exact Hb|].
  apply (day7_splits_bounded _ _ _ 0 Hr Hb).
Defined.

Lemma index_of_cell ch s : forall i c,
  Day7.index_of ch s i = Some c ->
  i <= c < i + Z.of_nat (String.length s) /\
  String.get (Z.to_nat (c - i)) s = Some ch.
Proof.
  induction s as [|a s IH]; intros i c; simpl; [done|].
  destruct (Ascii.eqb a ch) eqn:Ha.
  - intros [= <-]. apply Ascii.eqb_eq in Ha as ->.
    rewrite Z.sub_diag. simpl. split; [lia | done].
  - intros Hc. destruct (IH _ _ Hc) as [Hr Hget]. split; [lia|].
    replace (Z.to_nat (c - i)) with (S (Z.to_nat (c - (i + 1)))) by lia.
    done.
Qed.

(** X21.  Part 2 against part 1 on one grid: when the first row holds the
    'S', all the other rows are as long as the first and the interpreter
    still allows two frames more than there are rows below the first, both
    code blocks return a result, and the number of paths that count_paths
    gives for the start is at least the number of splits plus one: every
    split adds a path. *)
Theorem day7_paths_exceed_splits first rows start frames :
  rectangular (Z.of_nat (String.length first)) rows ->
  Day7.index_of "S" first 0 = Some start ->
  (length rows + 2 <= frames)%nat ->
  exists splits paths_,
    Day7.count_splits (first :: rows) = Some splits /\
    Day7.count_paths frames (Z.of_nat (String.length first)) (first :: rows)
      start = Day7.PyVal paths_ /\
    splits + 1 <= paths_.
Proof.
  intros Hr Hs Hframes. set (cols := Z.of_nat (String.length first)) in *.
  destruct (index_of_cell _ _ _ _ Hs) as [Hrange Hget].
  rewrite Z.sub_0_r in Hget.
  destruct (simulate_spec cols rows Hr {[start]} 0) as (n & Hn & _ & Hp).
  { intros c ->%elem_of_singleton. lia. }
  rewrite elements_singleton, size_singleton in Hp. unfold zsum in Hp.
  simpl in Hp.
  exists n, (paths cols rows start). split; [|split; [|lia]].
  - unfold Day7.count_splits. by rewrite Hs.
  - destruct frames as [|frames]; [lia|]. simpl.
    replace ((start <? 0) || (cols <=? start)) with false by lia.
    unfold Day7.cell. rewrite Hget. simpl.
    apply count_paths_frames; [done | lia].
Qed.

Lemma day7_paths_exceed_splits_witness :
  exists splits paths_,
    Day7.count_splits Day7.example_grid = Some splits /\
    Day7.count_paths 17 15 Day7.example_grid 7 = Day7.PyVal paths_ /\
    splits + 1 <= paths_.
Proof.
  apply (day7_paths_exceed_splits ".......S......."
           (tail Day7.example_grid) 7 17).
  - repeat constructor.
  - reflexivity.
  - simpl. lia.
Defined.

(** ** The three solvers of the counter puzzle on one machine *)

Section ThreeSolvers.
Variable m : Machine.
Hypothesis Hwf : wf_machine m.

Local Abbreviation start := (zeros (length (target m))).
Local Abbreviation reach1 := (reach (press_edge m) start).
Local Abbreviation reach2 :=
  (reach (button_edge (buttons m) (target m)) start).

Lemma wf_machine_buttons : wf_buttons (buttons m).
Proof.
  unfold wf_buttons. eapply Forall_impl; [exact Hwf|]. intros btn Hbtn.
  eapply Forall_impl; [exact Hbtn|]. simpl. lia.
Qed.

Lemma wf_machine_range (btn s : list Z) :
  btn ∈ buttons m -> length s = length (target m) ->
  Forall (fun idx => 0 <= idx < Z.of_nat (length s)) btn.
Proof.
  intros Hin ->. by eapply Forall_forall in Hwf.
Qed.

(* a press that the pruning lets through is a press *)
Lemma pruned_reach_reach k s : reach2 k s -> reach1 k s.
Proof.
  induction 1 as [|k s s' _ IH (btn & Hin & Hp)]; [constructor|].
  econstructor; [done|]. exists btn. split; [done|].
  pose proof (reach_length m _ _ IH) as Hlen.
  pose proof (wf_machine_range btn s Hin Hlen) as Hr.
  rewrite press_pressed, decide_True by done.
  destruct (apply_button_fits (target m) btn s Hlen) as [[_ Hf]|[_ Hf]].
  { eapply Forall_impl; [exact Hr|]. simpl. lia. }
  - rewrite Hf in Hp. by injection Hp as <-.
  - by rewrite Hf in Hp.
Qed.

(* presses that end at or below the target are never pruned on the way *)
Lemma reach_below_pruned k s :
  reach1 k s ->
  (forall i v t, s !! i = Some v -> target m !! i = Some t -> v <= t) ->
  reach2 k s.
Proof.
  induction 1 as [|k s s' Hr IH (btn & Hin & Hp)]; intros Hle; [constructor|].
  pose proof (reach_length m _ _ Hr) as Hlen.
  pose proof (wf_machine_range btn s Hin Hlen) as Hrange.
  rewrite press_pressed, decide_True in Hp by done. injection Hp as <-.
  assert (forall i v, s !! i = Some v ->
            pressed s btn !! i = Some (v + listed i btn)) as Hpr.
  { intros i v Hv. unfold pressed. by rewrite list_lookup_imap, Hv. }
  econstructor.
  - apply IH. intros i v t Hv Ht.
    specialize (Hle i _ t (Hpr i v Hv) Ht).
    pose proof (listed_nonneg i btn). lia.
  - exists btn. split; [done|].
    destruct (apply_button_fits (target m) btn s Hlen) as [[_ Hf]|[Hnf _]];
      [|done|].
    { eapply Forall_impl; [exact Hrange|]. simpl. lia. }
    destruct Hnf. intros i v t Hv Ht _. by apply (Hle i _ t (Hpr i v Hv) Ht).
Qed.

Lemma reach_target_iff k : reach1 k (target m) <-> reach2 k (target m).
Proof.
  split; [|apply pruned_reach_reach].
  intros Hr. apply reach_below_pruned; [done|].
  intros i v t Hv Ht. assert (v = t) by congruence. lia.
Qed.

Lemma shortest_target_iff c :
  shortest (press_edge m) start c (target m) <->
  shortest (button_edge (buttons m) (target m)) start c (target m).
Proof.
  unfold shortest. rewrite reach_target_iff.
  split; intros [Hr Hmin]; (split; [done|]); intros j Hj;
    apply Hmin; by apply reach_target_iff.
Qed.
End ThreeSolvers.

(** X22.  The three solvers of the counter puzzle agree.  For a machine
    whose buttons list only indices of counters, whose target is reached by
    some sequence of presses and holds no value above 50 (with fewer than
    INT_MAX / 50 counters), minPresses of the Day 9 file, the bounded BFS
    and the Dijkstra search of Day 10 all return the length of a shortest
    sequence of presses: the pruning of the Day 10 solvers cuts no press
    that lies on a way to the target. *)
Theorem three_solvers_agree m bs :
  wf_machine m -> reaches_target m bs ->
  Forall (fun t => t <= 50) (target m) ->
  50 * Z.of_nat (length (target m)) < INT_MAX ->
  exists d fuel0,
    min_presses m d /\
    forall fuel, (fuel0 <= fuel)%nat ->
      minPresses fuel m = Ok (Z.of_nat d) /\
      solve_machine_part2_bounded fuel (buttons m) (target m)
        = Ok (Z.of_nat d) /\
      solve_machine_part2_dijkstra fuel (buttons m) (target m)
        = Ok (Z.of_nat d).
Proof.
  intros Hwf Hbs Hcap Hint.
  destruct (minPresses_finds_shortest m bs Hwf Hbs) as (d & Hd & Hrun).
  assert (shortest (press_edge m) (zeros (length (target m)))
            (Z.of_nat d) (target m)) as Hs1.
  { destruct Hd as [(bs0 & Hbs0 & Hl0) Hmin]. split.
    - apply reach_press_seq. exists bs0. split; [done | lia].
    - intros j (bs1 & Hbs1 & <-)%reach_press_seq.
      specialize (Hmin bs1 Hbs1). lia. }
  apply shortest_target_iff in Hs1; [|done].
  pose proof (wf_machine_buttons m Hwf) as Hwfb.
  assert (Forall (fun t => t <= 100) (target m)) as Hcap'
    by (eapply Forall_impl; [done|]; simpl; lia).
  exists d, (S (S (S (length (box (target m))
                       + length (states_within m (S (length bs))))))).
  split; [done|]. intros fuel Hf. split; [apply Hrun; lia|].
  unfold solve_machine_part2_bounded, solve_machine_part2_dijkstra. split.
  - destruct (bounded_answer (buttons m) (target m) 50 Hwfb Hcap
                ltac:(lia) Hint fuel) as [(c & -> & Hc)|[_ Hno]]; [lia| |].
    + by rewrite (shortest_unique _ _ _ _ _ Hc Hs1).
    + destruct Hs1 as [Hr _]. by destruct (Hno _ Hr).
  - destruct (dijkstra_answer (buttons m) (target m) 100 Hwfb Hcap'
                ltac:(lia) fuel) as [(c & -> & Hc)|[_ Hno]]; [lia| |].
    + by rewrite (shortest_unique _ _ _ _ _ Hc Hs1).
    + destruct Hs1 as [Hr _]. by destruct (Hno _ Hr).
Qed.

Lemma three_solvers_agree_witness :
  exists d fuel0,
    min_presses (Build_Machine [[0; 1]; [1]] [2; 3]) d /\
    forall fuel, (fuel0 <= fuel)%nat ->
      minPresses fuel (Build_Machine [[0; 1]; [1]] [2; 3]) = Ok (Z.of_nat d) /\
      solve_machine_part2_bounded fuel [[0; 1]; [1]] [2; 3] = Ok (Z.of_nat d) /\
      solve_machine_part2_dijkstra fuel [[0; 1]; [1]] [2; 3] = Ok (Z.of_nat d).
Proof.
  apply (three_solvers_agree (Build_Machine [[0; 1]; [1]] [2; 3])
           [0; 0; 1]%nat).
  - unfold wf_machine. simpl. repeat constructor; simpl; lia.
  - reflexivity.
  - simpl. repeat constructor; lia.
  - simpl. unfold INT_MAX. lia.
Defined.

(** ** Edge cases of the Day 10 programs *)

(** X23.  A machine whose targets are all 0, or that has no counters at
    all, needs no press: the three solvers return 0 whatever the buttons
    and the cap, the BFS of minPresses and the Dijkstra search in their
    first turn, the bounded BFS in its second. *)
Theorem zero_targets_need_no_press btns n cap fuel :
  minPresses (S fuel) {| buttons := btns; target := zeros n |} = Ok 0 /\
  solve_machine_part2_bounded_with cap (S (S fuel)) btns (zeros n) = Ok 0 /\
  solve_machine_part2_dijkstra_with cap (S fuel) btns (zeros n) = Ok 0.
Proof.
  split_and!.
  - unfold minPresses. simpl. rewrite zeros_length.
    by destruct (decide (zeros n = zeros n)).
  - unfold solve_machine_part2_bounded_with, bounded_init.
    rewrite zeros_length. cbn [bounded_loop bounded_step].
    destruct (decide (zeros n = zeros n)); [|done]. simpl.
    by destruct (decide (0 <> INT_MAX)).
  - unfold solve_machine_part2_dijkstra_with, dijkstra_init.
    rewrite zeros_length. cbn [dijkstra_loop dijkstra_step pq_pop pq_least].
    cbn [pq_remove].
    destruct (decide ((0, zeros n, zeros (length btns))
                      = (0, zeros n, zeros (length btns)))); [|done].
    unfold map_index. rewrite lookup_insert_eq. simpl.
    by destruct (decide (zeros n = zeros n)).
Qed.

Lemma regex_search_none op cl s :
  string_forallb (fun c => negb (Ascii.eqb c op)) s = true ->
  regex_search op cl s = None.
Proof.
  induction s as [|c s IH]; simpl; [done|].
  intros [Hc Hs]%andb_prop. apply negb_true_iff in Hc. rewrite Hc. by apply IH.
Qed.

Lemma parse_machine_part2_no_groups line :
  string_forallb (fun c => negb (Ascii.eqb c "(")) line = true ->
  string_forallb (fun c => negb (Ascii.eqb c "{")) line = true ->
  parse_machine_part2 line = Ok ([], []).
Proof.
  intros Hp Hb. unfold parse_machine_part2. cbn [find_buttons].
  by rewrite !regex_search_none.
Qed.

(** X24.  A non-empty line without any parenthesis and brace is not
    skipped by the Day 10 part-2 programs: it is read as a machine without
    buttons and counters, solved with 0 presses, printed as such and
    counted among the processed machines, the total being left as it is. *)
Theorem line_without_groups_is_a_machine line rest total count fuel :
  line <> EmptyString ->
  string_forallb (fun c => negb (Ascii.eqb c "(")) line = true ->
  string_forallb (fun c => negb (Ascii.eqb c "{")) line = true ->
  part2_lines (solve_machine_part2_bounded (S (S fuel))) (line :: rest)
    total count
  = (r <~ part2_lines (solve_machine_part2_bounded (S (S fuel))) rest
            total (count + 1) ;;
     Ok ([OStr "Machine "; OInt 0; OStr " counters, "; OInt 0;
          OStr " buttons: "; OInt 0; OStr " presses"; ONl] ++ r.1.1,
         r.1.2, r.2)) /\
  part2_lines (solve_machine_part2_dijkstra (S fuel)) (line :: rest)
    total count
  = (r <~ part2_lines (solve_machine_part2_dijkstra (S fuel)) rest
            total (count + 1) ;;
     Ok ([OStr "Machine "; OInt 0; OStr " counters, "; OInt 0;
          OStr " buttons: "; OInt 0; OStr " presses"; ONl] ++ r.1.1,
         r.1.2, r.2)).
Proof.
  intros Hne Hp Hb.
  assert (solve_machine_part2_bounded (S (S fuel)) [] [] = Ok 0) as Hbs
    by reflexivity.
  assert (solve_machine_part2_dijkstra (S fuel) [] [] = Ok 0) as Hds
    by reflexivity.
  assert (string_empty line = false) as He by by destruct line.
  split; cbn [part2_lines]; rewrite He, parse_machine_part2_no_groups by done;
    cbn [rbind fst snd].
  - rewrite Hbs. simpl. by rewrite Z.add_0_r.
  - rewrite Hds. simpl. by rewrite Z.add_0_r.
Qed.

Lemma line_without_groups_is_a_machine_witness :
  part2_lines (solve_machine_part2_bounded 2) ["oops"]%string 5 1
  = Ok ([OStr "Machine "; OInt 0; OStr " counters, "; OInt 0;
         OStr " buttons: "; OInt 0; OStr " presses"; ONl], 5, 2).
Proof.
  assert ("oops"%string <> EmptyString) as Hne by done.
  exact (proj1 (line_without_groups_is_a_machine "oops" [] 5 1 0 Hne
                  eq_refl eq_refl)).
Defined.

(** ** The lines of the button-press program *)

Lemma last_cons_cons {A} (a b : A) l d : List.last (a :: b :: l) d = List.last (b :: l) d.
Proof. done. Qed.

Lemma words_from_token t : forall tmp rest,
  string_forallb not_space t = true -> (tmp ++ t)%string <> EmptyString ->
  words_from (t ++ String " " rest) tmp
  = (tmp ++ t)%string :: words_from rest EmptyString.
Proof.
  induction t as [|c t IH]; intros tmp rest Ht Hne.
  - rewrite string_app_empty_r in *. rewrite string_nil_app.
    cbn [words_from]. change (isspace " ") with true. cbv iota.
    by destruct tmp.
  - simpl in Ht. apply andb_prop in Ht as [Hc Ht].
    rewrite string_cons_app. cbn [words_from].
    unfold not_space in Hc. apply negb_true_iff in Hc. rewrite Hc.
    rewrite IH; [by rewrite string_snoc_app|done|].
    rewrite string_snoc_app. by destruct tmp.
Qed.

Lemma parse_machine_line_token t rest :
  t <> EmptyString -> string_forallb not_space t = true ->
  parse_machine_line (t ++ String " " rest) =
  match words rest with
  | [] => Ok None
  | w :: ws =>
      tg <~ parseTarget (List.last (w :: ws) EmptyString) ;;
      bs <~ rmap_list parseButton (removelast (w :: ws)) ;;
      Ok (Some {| buttons := bs; target := tg |})
  end.
Proof.
  intros Hne Ht. unfold parse_machine_line, words.
  rewrite (words_from_token t EmptyString rest Ht) by done.
  rewrite string_nil_app.
  assert (string_empty (t ++ String " " rest) = false) as ->
    by by destruct t.
  fold (words rest). cbn [length tail].
  destruct (words rest) as [|w ws]; [done|]. by rewrite last_cons_cons.
Qed.

(** X25.  The button-press program never reads the first token of a line
    (the indicator-light diagram): two lines that differ in their first
    token only give the same machine, or are both skipped. *)
Theorem parse_machine_line_ignores_first_token t1 t2 rest :
  t1 <> EmptyString -> string_forallb not_space t1 = true ->
  t2 <> EmptyString -> string_forallb not_space t2 = true ->
  parse_machine_line (t1 ++ String " " rest)
  = parse_machine_line (t2 ++ String " " rest).
Proof.
  intros H1 Hs1 H2 Hs2. by rewrite !parse_machine_line_token.
Qed.

Lemma parse_machine_line_ignores_first_token_witness :
  parse_machine_line ("[.#]" ++ String " " "(0,1) {2,3}")
  = parse_machine_line ("[##]" ++ String " " "(0,1) {2,3}").
Proof.
  assert ("[.#]"%string <> EmptyString) as H1 by done.
  assert ("[##]"%string <> EmptyString) as H2 by done.
  apply (parse_machine_line_ignores_first_token _ _ _ H1 eq_refl H2 eq_refl).
Defined.

(** ** The edges and the lines of solution2.cpp *)

Lemma next_points_length {A} (l : list A) : length (next_points l) = length l.
Proof. destruct l; simpl; [done|]. rewrite length_app. simpl. lia. Qed.

Lemma edges_of_length reds : length (edges_of reds) = length reds.
Proof.
  unfold edges_of. rewrite length_zip_with, next_points_length. lia.
Qed.

Section EdgeCount.

Local Abbreviation v_edge_of :=
(fun '(p1, p2) =>
   if px p1 =? px p2
   then Some {| vx := px p1; y_min := Z.min (py p1) (py p2);
                y_max := Z.max (py p1) (py p2) |}
   else None).

Local Abbreviation h_edge_of :=
(fun '(p1, p2) =>
   if px p1 =? px p2 then None
   else if py p1 =? py p2
   then Some {| hy := py p1; x_min := Z.min (px p1) (px p2);
                x_max := Z.max (px p1) (px p2) |}
   else None).

Lemma edge_lists_count (l : list (Point * Point)) :
(length (omap v_edge_of l) + length (omap h_edge_of l) <= length l)%nat /\
(Forall (fun e : Point * Point => px e.1 = px e.2 \/ py e.1 = py e.2) l <->
 (length (omap v_edge_of l) + length (omap h_edge_of l) = length l)%nat).
Proof.
induction l as [|[p1 p2] l [IHle IHeq]]; cbn [omap list_omap length].
{ split; [lia|]. split; [done | constructor]. }
rewrite Forall_cons. cbn [fst snd].
destruct (px p1 =? px p2) eqn:Hx; cbn [length].
- split; [lia|]. rewrite IHeq. split; [intros [_ ?]; lia|].
  intros ?. split; [left; lia | lia].
- destruct (py p1 =? py p2) eqn:Hy; cbn [length].
  + split; [lia|]. rewrite IHeq. split; [intros [_ ?]; lia|].
    intros ?. split; [right; lia | lia].
  + split; [lia|]. split; [intros [[?|?] _]; lia | lia].
Qed.

End EdgeCount.

(** X26.  solution2.cpp makes at most one edge from each pair of
    consecutive points: a vertical edge when the two x are equal, a
    horizontal edge when only the two y are equal, and nothing for a
    diagonal side, which is passed over without a message.  All sides of
    the polygon are among the edges exactly when every side is vertical or
    horizontal. *)
Theorem build_edges_count points :
  (length (build_v_edges points) + length (build_h_edges points)
   <= length points)%nat /\
  (rectilinear points <->
   (length (build_v_edges points) + length (build_h_edges points)
    = length points)%nat).
Proof.
  unfold build_v_edges, build_h_edges, rectilinear.
  pose proof (edge_lists_count (edges_of points)) as Hc.
  rewrite edges_of_length in Hc. exact Hc.
Qed.

Lemma skip_space_length s :
  (String.length (skip_space s) <= String.length s)%nat.
Proof.
  induction s as [|c s IH]; simpl; [done|].
  destruct (isspace c); simpl; lia.
Qed.

Lemma span_digits_length s :
  String.length s
  = (String.length (span_digits s).1 + String.length (span_digits s).2)%nat.
Proof.
  induction s as [|c s IH]; simpl; [done|].
  destruct (isdigit c); [|done].
  destruct (span_digits s) as [d r]. simpl in *. lia.
Qed.

Lemma read_num_shorter lo hi s v r :
  read_num lo hi s = Some (v, r) -> (String.length r < String.length s)%nat.
Proof.
  unfold read_num. pose proof (skip_space_length s) as Hsk.
  set (s1 := skip_space s) in *.
  set (ns := match s1 with
             | String "-" r => (true, r)
             | String "+" r => (false, r)
             | _ => (false, s1)
             end).
  assert (String.length ns.2 <= String.length s1)%nat as Hns.
  { subst ns. destruct s1 as [|c s1']; [done|].
    destruct c as [[] [] [] [] [] [] [] []]; simpl; lia. }
  destruct ns as [neg s2]. simpl in Hns.
  pose proof (span_digits_length s2) as Hsp.
  destruct (span_digits s2) as [ds rest]. simpl in Hsp.
  destruct ds as [|d ds]; [done|]. case_match; [|done].
  intros [= <- <-]. simpl in Hsp. lia.
Qed.

Lemma read_pairs_turns t1 : forall t2 s,
  (String.length s < t1)%nat -> (String.length s < t2)%nat ->
  read_pairs t1 s = read_pairs t2 s.
Proof.
  induction t1 as [|t1 IH]; intros t2 s H1 H2; [lia|].
  destruct t2 as [|t2]; [lia|]. simpl.
  destruct (read_num LLONG_MIN LLONG_MAX s) as [[x r1]|] eqn:Hx; [|done].
  destruct (read_num LLONG_MIN LLONG_MAX r1) as [[y r2]|] eqn:Hy; [|done].
  apply read_num_shorter in Hx, Hy. f_equal. apply IH; lia.
Qed.

Lemma commas_to_spaces_length s :
  String.length (commas_to_spaces s) = String.length s.
Proof. induction s as [|c s IH]; simpl; [done|]. by rewrite IH. Qed.

Lemma commas_to_spaces_idemp s :
  commas_to_spaces (commas_to_spaces s) = commas_to_spaces s.
Proof.
  induction s as [|c s IH]; simpl; [done|]. rewrite IH. f_equal.
  destruct (Ascii.eqb c ",") eqn:Hc; [done|]. by rewrite Hc.
Qed.

(** X27.  How solution2.cpp reads a line: commas count as spaces, so a
    line gives the same points with its commas replaced by spaces; and the
    loop [while (ss >> x >> y)] ends by itself, every turn using up at
    least two characters, so that more turns than the line has characters
    never change the points read. *)
Theorem parse_line2_commas_are_spaces line :
  parse_line2 (commas_to_spaces line) = parse_line2 line /\
  forall turns, (String.length line < turns)%nat ->
    read_pairs turns (commas_to_spaces line) = parse_line2 line.
Proof.
  unfold parse_line2. split.
  - by rewrite commas_to_spaces_idemp, commas_to_spaces_length.
  - intros turns Hlt. apply read_pairs_turns;
      rewrite commas_to_spaces_length; lia.
Qed.
